(** * artefact_adder: a shallow embedding of the video artefact pipeline

    The development follows [src/artefact_adder.py].  Frames are NumPy
    arrays of shape (height, width, channels); they live in a store and are
    passed by reference, as Python does.  The two global random generators
    (NumPy's and OpenCV's), the console and the files written are part of
    the world state that every function threads. *)

From stdpp Require Import base option list strings pretty gmap.
From Stdlib Require Import ZArith QArith Qround Qabs Qpower Lia.

Open Scope Z_scope.

(** ** Arrays *)

(** A three-dimensional array: NumPy keeps the shape next to the buffer, so
    an array with no rows still knows its width and channel count. *)
Record frame := Frame {
  height : nat;
  width : nat;
  channels : nat;
  data : list (list (list Z))
}.

(** [frame.size]: the number of array elements. *)
Definition size (f : frame) : Z := Z.of_nat (height f * width f * channels f).

Definition has_shape (h w c : nat) (d : list (list (list Z))) : Prop :=
  length d = h ∧ Forall (λ row, length row = w ∧ Forall (λ p, length p = c) row) d.

(** The buffer agrees with the recorded shape. *)
Definition wf_frame (f : frame) : Prop :=
  has_shape (height f) (width f) (channels f) (data f).

(** Every element is an 8-bit unsigned value. *)
Definition uint8_frame (f : frame) : Prop :=
  Forall (Forall (Forall (λ v, 0 ≤ v < 256))) (data f).

Definition same_shape (f g : frame) : Prop :=
  height g = height f ∧ width g = width f ∧ channels g = channels f.

(** [f[i, j, k]] for indices inside the array. *)
Definition get (f : frame) (i j k : nat) : option Z :=
  data f !! i ≫= λ row, row !! j ≫= λ p, p !! k.

(** [f[i, j, :]]. *)
Definition get_pixel (f : frame) (i j : nat) : option (list Z) :=
  data f !! i ≫= λ row, row !! j.

Definition map3 (g : Z → Z) (d : list (list (list Z))) : list (list (list Z)) :=
  map (map (map g)) d.

Definition tabulate {A} (n : nat) (g : nat → A) : list A := map g (seq 0 n).

(** An array of the given shape filled from a value function. *)
Definition build (h w c : nat) (g : nat → nat → nat → Z) : frame :=
  Frame h w c (tabulate h (λ i, tabulate w (λ j, tabulate c (λ k, g i j k)))).

(** ** 8-bit arithmetic *)

Definition uint8 (x : Z) : Z := x mod 256.

(** OpenCV's [saturate_cast<uchar>]. *)
Definition saturate_u8 (x : Z) : Z := Z.max 0 (Z.min 255 x).

(** OpenCV's [cvRound]: nearest integer, ties to even. *)
Definition cvRound (q : Q) : Z :=
  let f := Qfloor q in
  match ((q - inject_Z f) ?= 1 # 2)%Q with
  | Lt => f
  | Gt => f + 1
  | Eq => if Z.even f then f else f + 1
  end.

(** ** Floating point *)

(** Python's [float] and NumPy's [float64] are IEEE binary64.  A float is
    given here by its value, a rational.  [float64 q] is the float nearest
    to [q]: a significand of 53 bits, ties to the even significand, gradual
    underflow below 2^-1022.  Overflow to infinity would need a magnitude
    of 2^1024 and is not modelled. *)

(** The exponent of [q > 0]: the [e] with [2^e ≤ q < 2^(e+1)]. *)
Definition Qlog2 (q : Q) : Z :=
  let e := Z.log2 (Qnum q) - Z.log2 (Zpos (Qden q)) in
  if Qle_bool (2 ^ e) q then e else e - 1.

Definition float64 (q : Q) : Q :=
  let e := Z.max (Qlog2 (Qabs q)) (-1022) in
  let ulp := (2 ^ (e - 52))%Q in
  (inject_Z (cvRound (q / ulp)) * ulp)%Q.

(** [x * y] on floats: the product, rounded. *)
Definition float_mul (x y : Q) : Q := float64 (x * y).

(** ** World state *)

(** A random generator: an unbounded tape of raw words and a read head.
    The tape is arbitrary, so every value a sampler can return is returned
    for some tape.  That a sampler reads one word per value is a convention
    of this model, not a fact about the libraries. *)
Record rng := Rng { tape : nat → N; pos : nat }.

Definition addr := nat.

Record video := Video {
  vcodec : string;            (* the four-character code of the encoding *)
  vwidth : Z;
  vheight : Z;
  vfps : Q;
  vcount : Z;                 (* the container's frame-count field *)
  vframes : list frame
}.

(** A [cv2.VideoCapture] object. *)
Record capture := Capture {
  opened : bool;
  cmeta : option video;
  pending : list frame
}.

Record world := World {
  heap : list frame;                (* arrays, addressed by position *)
  np_random : rng;                  (* numpy.random's global state *)
  cv_theRNG : rng;                  (* OpenCV's global generator *)
  stdout : list string;             (* lines printed, oldest first *)
  videos : gmap string video;       (* video files in the working directory *)
  images : gmap string frame;       (* still images in the working directory *)
  captures : list capture           (* VideoCapture objects *)
}.

Inductive exn :=
| ZeroDivisionError
| ValueError
| IndexError
| OverflowError
| CvError
| DanglingRef
| OutOfFuel.

Inductive result (A : Type) :=
| Ok (a : A) (σ : world)
| Raise (e : exn) (σ : world).
Arguments Ok {A} a σ.
Arguments Raise {A} e σ.

(** Computations: state passing with exceptions. *)
Definition M (A : Type) : Type := world → result A.

#[global] Instance M_ret : MRet M := λ A a σ, Ok a σ.
#[global] Instance M_bind : MBind M := λ A B k m σ,
  match m σ with
  | Ok a σ' => k a σ'
  | Raise e σ' => Raise e σ'
  end.

Definition raise {A} (e : exn) : M A := λ σ, Raise e σ.
Definition lift {A} (e : exn) (o : option A) : M A :=
  match o with Some a => mret a | None => raise e end.

Definition set_heap (h : list frame) (σ : world) : world :=
  World h (np_random σ) (cv_theRNG σ) (stdout σ) (videos σ) (images σ) (captures σ).
Definition set_np_random (g : rng) (σ : world) : world :=
  World (heap σ) g (cv_theRNG σ) (stdout σ) (videos σ) (images σ) (captures σ).
Definition set_cv_theRNG (g : rng) (σ : world) : world :=
  World (heap σ) (np_random σ) g (stdout σ) (videos σ) (images σ) (captures σ).
Definition set_stdout (o : list string) (σ : world) : world :=
  World (heap σ) (np_random σ) (cv_theRNG σ) o (videos σ) (images σ) (captures σ).
Definition set_videos (v : gmap string video) (σ : world) : world :=
  World (heap σ) (np_random σ) (cv_theRNG σ) (stdout σ) v (images σ) (captures σ).
Definition set_images (v : gmap string frame) (σ : world) : world :=
  World (heap σ) (np_random σ) (cv_theRNG σ) (stdout σ) (videos σ) v (captures σ).
Definition set_captures (c : list capture) (σ : world) : world :=
  World (heap σ) (np_random σ) (cv_theRNG σ) (stdout σ) (videos σ) (images σ) c.

(** Dereference an array. *)
Definition load (a : addr) : M frame := λ σ,
  match heap σ !! a with
  | Some f => Ok f σ
  | None => Raise DanglingRef σ
  end.

(** A new array object; its reference is returned. *)
Definition alloc (f : frame) : M addr := λ σ,
  Ok (length (heap σ)) (set_heap (heap σ ++ [f]) σ).

(** In-place update of the array behind a reference. *)
Definition store (a : addr) (f : frame) : M unit := λ σ,
  match heap σ !! a with
  | Some _ => Ok () (set_heap (<[a:=f]> (heap σ)) σ)
  | None => Raise DanglingRef σ
  end.

(** A change of the world that returns nothing. *)
Definition modify (g : world → world) : M unit := λ σ, Ok () (g σ).

Definition print (s : string) : M unit :=
  modify (λ σ, set_stdout (stdout σ ++ [s]) σ).

(** ** NumPy primitives *)

(** [np.random.randint(low, high)]: one integer from [low, high). *)
Definition np_random_randint1 (low high : Z) : M Z := λ σ,
  if high <=? low then Raise ValueError σ
  else
    let g := np_random σ in
    Ok (low + Z.of_N (tape g (pos g)) mod (high - low))
       (set_np_random (Rng (tape g) (S (pos g))) σ).

(** [np.random.randint(low, high, n)]: [n] independent integers from
    [low, high).  A negative count is refused; an empty request returns
    before the bounds are looked at. *)
Definition np_random_randint (low high n : Z) : M (list Z) := λ σ,
  if n <? 0 then Raise ValueError σ
  else if n =? 0 then Ok [] σ
  else if high <=? low then Raise ValueError σ
  else
    let g := np_random σ in
    let k := Z.to_nat n in
    Ok (tabulate k (λ i, low + Z.of_N (tape g (pos g + i)%nat) mod (high - low)))
       (set_np_random (Rng (tape g) (pos g + k)) σ).

(** [np.random.rand()]: a float of 53 random bits in [0, 1). *)
Definition np_random_rand : M Q := λ σ,
  let g := np_random σ in
  Ok (Z.of_N (tape g (pos g)) mod 2 ^ 53 # 2 ^ 53)%Q
     (set_np_random (Rng (tape g) (S (pos g))) σ).

(** [frame.shape] as the sequence Python iterates over. *)
Definition shape (f : frame) : list Z :=
  [Z.of_nat (height f); Z.of_nat (width f); Z.of_nat (channels f)].

(** An index into an axis of length [n]; negative indices count from the
    end, anything else out of range is an [IndexError]. *)
Definition norm_index (n : nat) (i : Z) : option nat :=
  if (0 <=? i) && (i <? Z.of_nat n) then Some (Z.to_nat i)
  else if (- Z.of_nat n <=? i) && (i <? 0) then Some (Z.to_nat (i + Z.of_nat n))
  else None.

(** [f[i, j, :] = v]. *)
Definition fill_pixel (v : Z) (f : frame) (i j : nat) : frame :=
  Frame (height f) (width f) (channels f)
        (alter (alter (map (λ _, v)) j) i (data f)).

(** [f[rows, cols, :] = v] with two index arrays: one assignment per
    position of the index arrays, in order. *)
Fixpoint index_assign (v : Z) (f : frame) (rows cols : list Z) : option frame :=
  match rows, cols with
  | [], [] => Some f
  | r :: rows', c :: cols' =>
      i ← norm_index (height f) r;
      j ← norm_index (width f) c;
      index_assign v (fill_pixel v f i j) rows' cols'
  | _, _ => None
  end.

(** The statement [a[rows, cols, :] = v] on the array behind [a]. *)
Definition setitem_rows_cols (a : addr) (rows cols : list Z) (v : Z) : M unit :=
  f ← load a;
  f' ← lift IndexError (index_assign v f rows cols);
  store a f'.

(** [np.roll(l, shift)] along one axis: the last [shift mod n] elements
    come first. *)
Definition roll {A} (shift : Z) (l : list A) : list A :=
  match length l with
  | O => l
  | n => let k := Z.to_nat (shift mod Z.of_nat n) in
         drop (n - k) l ++ take (n - k) l
  end.

(** [np.roll(p, shift, axis=1)] on a plane. *)
Definition np_roll_axis1 (p : list (list Z)) (shift : Z) : list (list Z) :=
  map (roll shift) p.

(** How NumPy types an 8-bit array combined with a Python integer: the
    older value-based rule widens the result when the integer does not fit,
    the newer rule (NEP 50) keeps 8 bits and refuses such an integer. *)
Inductive promotion := ValueBased | NEP50.

(** [a // q] and [a * q] for an 8-bit array and a Python integer.  NumPy's
    integer floor division by zero yields zero, as [Z.div] does. *)
Definition np_scalar_op (np : promotion) (op : Z → Z → Z) (f : frame) (q : Z)
  : option frame :=
  match np with
  | ValueBased => Some (Frame (height f) (width f) (channels f) (map3 (λ v, op v q) (data f)))
  | NEP50 =>
      if (0 <=? q) && (q <=? 255)
      then Some (Frame (height f) (width f) (channels f) (map3 (λ v, uint8 (op v q)) (data f)))
      else None
  end.

(** Python's [a // b] on integers. *)
Definition py_floordiv (a b : Z) : M Z :=
  if b =? 0 then raise ZeroDivisionError else mret (a / b).

(** ** OpenCV primitives *)

Definition is_empty (f : frame) : bool :=
  (height f =? 0)%nat || (width f =? 0)%nat || (channels f =? 0)%nat.

(** [cv2.split]: one plane per channel. *)
Definition cv_split (f : frame) : list (list (list Z)) :=
  if is_empty f then []
  else tabulate (channels f) (λ k, map (map (λ p, nth k p 0)) (data f)).

Definition plane_dims (p : list (list Z)) : nat * nat :=
  (length p, length (hd [] p)).

Definition plane_ok (h w : nat) (p : list (list Z)) : bool :=
  (length p =? h)%nat && forallb (λ row, (length row =? w)%nat) p.

(** [cv2.merge] of three planes of one size. *)
Definition cv_merge3 (b g r : list (list Z)) : option frame :=
  let '(h, w) := plane_dims b in
  if plane_ok h w b && plane_ok h w g && plane_ok h w r && negb (h =? 0)%nat && negb (w =? 0)%nat
  then Some (Frame h w 3
          (zip_with (λ rb gr, zip_with (λ vb vgr, [vb; vgr.1; vgr.2]) rb (zip gr.1 gr.2))
                    b (zip g r)))
  else None.

(** [cv2.borderInterpolate] for the default border (reflect-101), in closed
    form: the image is mirrored about its edge pixels. *)
Definition borderInterpolate (p len : Z) : Z :=
  if len =? 1 then 0
  else
    let period := 2 * (len - 1) in
    let q := p mod period in
    if q <? len then q else period - q.

Definition Qsum (l : list Q) : Q := foldr Qplus 0%Q l.

Definition at3 (f : frame) (i j : Z) (k : nat) : Z :=
  nth k (nth (Z.to_nat j) (nth (Z.to_nat i) (data f) []) []) 0.

(** [cv2.filter2D(src, -1, kernel)]: correlation with the kernel anchored at
    its centre, reflected borders, result rounded and saturated to 8 bits. *)
Definition cv_filter2D (src : frame) (kernel : list (list Q)) : option frame :=
  if is_empty src then None
  else
    let kh := length kernel in
    let kw := length (hd [] kernel) in
    let ay := Z.of_nat kh / 2 in
    let ax := Z.of_nat kw / 2 in
    let h := Z.of_nat (height src) in
    let w := Z.of_nat (width src) in
    Some (build (height src) (width src) (channels src) (λ y x ch,
      saturate_u8 (cvRound (Qsum (imap (λ i krow,
        Qsum (imap (λ j kv,
          (kv * inject_Z (at3 src (borderInterpolate (Z.of_nat y + Z.of_nat i - ay) h)
                                  (borderInterpolate (Z.of_nat x + Z.of_nat j - ax) w) ch))%Q)
          krow)) kernel))))).

(** [cv2.add] on two 8-bit arrays of one shape: saturating addition. *)
Definition cv_add (f g : frame) : option frame :=
  if (height f =? height g)%nat && (width f =? width g)%nat && (channels f =? channels g)%nat
  then Some (Frame (height f) (width f) (channels f)
          (zip_with (zip_with (zip_with (λ a b, saturate_u8 (a + b)))) (data f) (data g)))
  else None.

(** What the libraries compute that the script does not determine: the
    values coming out of the codec, the camera matrix and the remapping, the
    rasteriser, the coefficients of the Gaussian window, the normal
    deviates, the contents of an uninitialised array, and NumPy's typing
    rule.  The shapes of the results are fixed by the definitions below;
    only the values are left to this record. *)
Record library := Library {
  promotion_rule : promotion;
  normal_sample : N → Q;
  jpeg_value : Z → frame → nat → nat → nat → Z;
  optimal_camera_matrix : list (list Q) → list Q → Z → Z → Q → list (list Q);
  undistort_value : list (list Q) → list Q → list (list Q) → frame → nat → nat → nat → Z;
  gaussian_coeff : Z → Q → nat → Q;
  uninitialised : nat → nat → nat → Z;
  circle_covers : Z → Z → Z → nat → nat → bool
}.

(** The 8-bit values [cv2.randn] draws for an array of the given shape. *)
Definition cv_rng_fill (lib : library) (h w c : nat) (mean stddev : Q) : M frame := λ σ,
  let g := cv_theRNG σ in
  Ok (build h w c (λ i j k,
        saturate_u8 (cvRound (mean + stddev *
          normal_sample lib (tape g (pos g + ((i * w + j) * c + k))%nat))%Q)))
     (set_cv_theRNG (Rng (tape g) (pos g + h * w * c)) σ).

(** [cv2.randn(dst, mean, stddev)]: fills the 8-bit array in place. *)
Definition cv_randn (lib : library) (dst : addr) (mean stddev : Q) : M unit :=
  d ← load dst;
  noise ← cv_rng_fill lib (height d) (width d) (channels d) mean stddev;
  store dst noise.

(** An encoded JPEG buffer: the header carries the picture size. *)
Record jpeg := Jpeg { jheight : nat; jwidth : nat; jquality : Z; jsource : frame }.

(** [cv2.imencode('.jpg', img, [IMWRITE_JPEG_QUALITY, quality])].  The
    quality is recorded as given: the binding converts it to a C [int], and
    a quality that does not fit one is outside the model. *)
Definition cv_imencode_jpg (f : frame) (quality : Z) : option jpeg :=
  if is_empty f || negb ((channels f =? 1)%nat || (channels f =? 3)%nat || (channels f =? 4)%nat)
  then None
  else Some (Jpeg (height f) (width f) quality f).

(** [cv2.imdecode(buf, cv2.IMREAD_COLOR)]: always three channels. *)
Definition cv_imdecode_color (lib : library) (e : jpeg) : frame :=
  build (jheight e) (jwidth e) 3 (jpeg_value lib (jquality e) (jsource e)).

(** [cv2.getOptimalNewCameraMatrix(K, D, (w, h), alpha)]: the new camera
    matrix (the region of interest returned with it is not used). *)
Definition cv_getOptimalNewCameraMatrix (lib : library) (K : list (list Q)) (D : list Q)
    (w h : Z) (alpha : Q) : list (list Q) :=
  optimal_camera_matrix lib K D w h alpha.

(** [cv2.undistort(src, K, D, None, new_K)]: the result has the size of the
    source. *)
Definition cv_undistort (lib : library) (f : frame) (K : list (list Q)) (D : list Q)
    (new_K : list (list Q)) : option frame :=
  if is_empty f then None
  else Some (build (height f) (width f) (channels f) (undistort_value lib K D new_K f)).

(** [cv2.getGaussianKernel(ksize, sigma)]: a column of [ksize] weights. *)
Definition cv_getGaussianKernel (lib : library) (ksize : Z) (sigma : Q) : option (list Q) :=
  if ksize <=? 0 then None
  else Some (tabulate (Z.to_nat ksize) (gaussian_coeff lib ksize sigma)).

Definition Qmax_list (l : list Q) : Q :=
  match l with
  | [] => 0%Q
  | x :: l' => foldr (λ a m, if Qle_bool m a then a else m) x l'
  end.

(** Conversion of a float to an integer type: the fraction is dropped. *)
Definition Qtrunc (q : Q) : Z :=
  if Qle_bool 0 q then Qfloor q else Qceiling q.

(** [a[:, :, k] = vals] for a float array [vals], cast to 8 bits. *)
Definition setitem_channel (a : addr) (k : nat) (vals : list (list Q)) : M unit :=
  f ← load a;
  if (k <? channels f)%nat then
    store a (Frame (height f) (width f) (channels f)
      (zip_with (zip_with (λ p q, <[k := uint8 (Qtrunc q)]> p)) (data f) vals))
  else raise IndexError.

(** [f[:, :, k]]. *)
Definition get_channel (f : frame) (k : nat) : option (list (list Z)) :=
  if (k <? channels f)%nat then Some (map (map (λ p, nth k p 0)) (data f)) else None.

(** [cv2.circle(img, (x, y), radius, (v, v, v), -1)]: a filled disc drawn
    in place. *)
Definition cv_circle (lib : library) (img : addr) (x y radius v : Z) : M unit :=
  f ← load img;
  store img (Frame (height f) (width f) (channels f)
    (imap (λ i row, imap (λ j p,
       if circle_covers lib x y radius i j
       then imap (λ k _, if (k <? 3)%nat then v else 0) p
       else p) row) (data f))).

Fixpoint for_each {A} (l : list A) (body : A → M unit) : M unit :=
  match l with
  | [] => mret ()
  | x :: l' => body x;; for_each l' body
  end.

(** ** The transforms *)

Section Transforms.

Context (lib : library).

Definition gaussian_noise (frame : addr) (noise_level : Q) : M addr :=
  f ← load frame;
  noise ← alloc (build (height f) (width f) (channels f) (λ _ _ _, 0));
  cv_randn lib noise 0 noise_level;;
  n ← load noise;
  noisy_frame ← lift CvError (cv_add f n);
  alloc noisy_frame.

Definition compression_artifacts (frame : addr) (compression_quality : Z) : M addr :=
  f ← load frame;
  encimg ← lift CvError (cv_imencode_jpg f compression_quality);
  alloc (cv_imdecode_color lib encimg).

(** The kernel of [motion_blur]: zeros, one row of ones, all divided by the
    size. *)
Definition line_kernel (kernel_size : Z) : M (list (list Q)) :=
  if kernel_size <? 0 then raise ValueError
  else
    let n := Z.to_nat kernel_size in
    r ← lift IndexError (norm_index n ((kernel_size - 1) ÷ 2));
    mret (tabulate n (λ i, tabulate n (λ _,
            ((if (i =? r)%nat then 1 else 0) / inject_Z kernel_size)%Q))).

Definition motion_blur (frame : addr) (kernel_size : Z) : M addr :=
  kernel ← line_kernel kernel_size;
  f ← load frame;
  blurred_frame ← lift CvError (cv_filter2D f kernel);
  alloc blurred_frame.

Definition color_banding (frame : addr) (levels : Z) : M addr :=
  f ← load frame;
  q ← py_floordiv 256 levels;
  t ← lift OverflowError (np_scalar_op (promotion_rule lib) Z.div f q);
  q' ← py_floordiv 256 levels;
  quantized_frame ← lift OverflowError (np_scalar_op (promotion_rule lib) Z.mul t q');
  alloc quantized_frame.

(** [amount] is the decimal written in the call: Python reads it as the
    nearest float, and each of the two products is rounded in turn. *)
Definition salt_and_pepper_noise (frame : addr) (amount : Q) : M addr :=
  f ← load frame;
  noisy_frame ← alloc f;
  let num_salt :=
    Qceiling (float_mul (float_mul (float64 amount) (float64 (inject_Z (size f)))) (1 # 2)) in
  let num_pepper :=
    Qceiling (float_mul (float_mul (float64 amount) (float64 (inject_Z (size f)))) (1 # 2)) in
  coords ← mapM (λ i, np_random_randint 0 (i - 1) num_salt) (shape f);
  rows ← lift IndexError (coords !! 0%nat);
  cols ← lift IndexError (coords !! 1%nat);
  setitem_rows_cols noisy_frame rows cols 255;;
  coords ← mapM (λ i, np_random_randint 0 (i - 1) num_pepper) (shape f);
  rows ← lift IndexError (coords !! 0%nat);
  cols ← lift IndexError (coords !! 1%nat);
  setitem_rows_cols noisy_frame rows cols 0;;
  mret noisy_frame.

Definition lens_distortion (frame : addr) (k1 k2 : Q) : M addr :=
  f ← load frame;
  let h := Z.of_nat (height f) in
  let w := Z.of_nat (width f) in
  let K := [[inject_Z w; 0; inject_Z w / 2];
            [0; inject_Z w; inject_Z h / 2];
            [0; 0; 1]]%Q in
  let D := [k1; k2; 0; 0]%Q in
  let new_K := cv_getOptimalNewCameraMatrix lib K D w h 0 in
  distorted_frame ← lift CvError (cv_undistort lib f K D new_K);
  alloc distorted_frame.

Definition vignetting (frame : addr) : M addr :=
  f ← load frame;
  let h := Z.of_nat (height f) in
  let w := Z.of_nat (width f) in
  X_resultant_kernel ← lift CvError (cv_getGaussianKernel lib w (inject_Z w / 2));
  Y_resultant_kernel ← lift CvError (cv_getGaussianKernel lib h (inject_Z h / 2));
  let kernel := map (λ y, map (λ x, (y * x)%Q) X_resultant_kernel) Y_resultant_kernel in
  let mask := map (map (λ v, (v / Qmax_list (concat kernel))%Q)) kernel in
  vignette_frame ← alloc (build (height f) (width f) (channels f) (uninitialised lib));
  for_each [0; 1; 2]%nat (λ i,
    f ← load frame;
    plane ← lift IndexError (get_channel f i);
    setitem_channel vignette_frame i
      (zip_with (zip_with (λ v m, (inject_Z v * m)%Q)) plane mask));;
  mret vignette_frame.

Definition chromatic_aberration (frame : addr) (shift : Z) : M addr :=
  f ← load frame;
  match cv_split f with
  | [b; g; r] =>
      let b := np_roll_axis1 b shift in
      let r := np_roll_axis1 r (- shift) in
      aberrated_frame ← lift CvError (cv_merge3 b g r);
      alloc aberrated_frame
  | _ => raise ValueError
  end.

Definition dust_dirt_particles (frame : addr) (num_particles : Z) : M addr :=
  f ← load frame;
  dusty_frame ← alloc f;
  let h := Z.of_nat (height f) in
  let w := Z.of_nat (width f) in
  for_each (replicate (Z.to_nat num_particles) ()) (λ _,
    x ← np_random_randint1 0 w;
    y ← np_random_randint1 0 h;
    radius ← np_random_randint1 5 15;
    color ← np_random_randint1 50 100;
    cv_circle lib dusty_frame x y radius color);;
  mret dusty_frame.

End Transforms.

(** ** Video input and output *)

(** [cv2.VideoCapture(path)]: the object exists whether or not the file
    could be opened.  The capture holds the frames the file had when it was
    opened; what OpenCV reads from a file that a writer opens while the
    capture is still reading is outside the model, which is faithful only
    when the path is not one of the names the pipeline writes to. *)
Definition cv_VideoCapture (path : string) : M nat := λ σ,
  let c := match videos σ !! path with
           | Some v => Capture true (Some v) (vframes v)
           | None => Capture false None []
           end in
  Ok (length (captures σ)) (set_captures (captures σ ++ [c]) σ).

Definition the_capture (cap : nat) : M capture := λ σ,
  match captures σ !! cap with
  | Some c => Ok c σ
  | None => Raise DanglingRef σ
  end.

Definition cap_isOpened (cap : nat) : M bool :=
  c ← the_capture cap; mret (opened c).

(** [cap.get(prop)]: zero when nothing is open. *)
Definition cap_get {A} (cap : nat) (prop : video → A) (zero : A) : M A :=
  c ← the_capture cap;
  mret (match cmeta c with Some v => if opened c then prop v else zero | None => zero end).

(** [cap.read()]: the next frame as a new array, or nothing at the end of
    the stream. *)
Definition cap_read (cap : nat) : M (option addr) :=
  c ← the_capture cap;
  match pending c with
  | f :: rest =>
      if opened c then
        modify (λ σ, set_captures (<[cap := Capture true (cmeta c) rest]> (captures σ)) σ);;
        a ← alloc f;
        mret (Some a)
      else mret None
  | [] => mret None
  end.

Definition cap_release (cap : nat) : M unit :=
  c ← the_capture cap;
  modify (λ σ, set_captures (<[cap := Capture false (cmeta c) (pending c)]> (captures σ)) σ).

(** [cv2.VideoWriter_fourcc] applied to the characters of [code]. *)
Definition cv_VideoWriter_fourcc (code : string) : string := code.

(** [cv2.VideoWriter(name, fourcc, fps, (width, height))]: the file is
    created, or emptied if it was there.  The writer is known by its file
    name.  The file records the frames handed to the writer, in order. *)
Definition cv_VideoWriter (name fourcc : string) (fps : Q) (w h : Z) : M string := λ σ,
  Ok name (set_videos (<[name := Video fourcc w h fps 0 []]> (videos σ)) σ).

(** A video file with one more frame at its end. *)
Definition push_frame (f : frame) (v : video) : video :=
  Video (vcodec v) (vwidth v) (vheight v) (vfps v) (vcount v + 1) (vframes v ++ [f]).

(** [out.write(frame)]. *)
Definition writer_write (out : string) (frame : addr) : M unit :=
  f ← load frame;
  modify (λ σ, set_videos (alter (push_frame f) out (videos σ)) σ).

Definition writer_release (out : string) : M unit := mret ().

(** [cv2.imwrite(name, frame)]. *)
Definition cv_imwrite (name : string) (frame : addr) : M unit :=
  f ← load frame;
  modify (λ σ, set_images (<[name := f]> (images σ)) σ).

(** ** The pipeline *)

Record params := Params {
  noise_level : Q;
  compression_quality : Z;
  kernel_size : Z;
  color_branding_levels : Z;
  salt_and_pepper_amount : Q;
  lens_k1 : Q;
  lens_k2 : Q;
  chromatic_aberration_shift : Z;
  dust_particles : Z;
  drop_rate : Q
}.

(** The defaults of [add_artifacts]. *)
Definition default_params : params :=
  Params 80 1 15 8 (1 # 100) (- (1 # 2)) 0 2 10 (1 # 10).

Section Pipeline.

Context (lib : library).

Definition simulate_frame_dropping (frame : addr) (out : string) (drop_rate : Q) : M unit :=
  u ← np_random_rand;
  if Qlt_le_dec drop_rate u then writer_write out frame else mret ().

(** Write a transformed frame to its video and, for the first frame only,
    to its still image. *)
Definition emit (out img : string) (saved_images : bool) (frame : addr) : M unit :=
  writer_write out frame;;
  if negb saved_images then cv_imwrite img frame else mret ().

(** One iteration of the frame loop, after a successful read. *)
Definition process_frame (p : params) (saved_images : bool) (frame : addr) : M unit :=
  noisy_frame ← gaussian_noise lib frame (noise_level p);
  emit "gaussian_noise.mp4" "gaussian_noise.png" saved_images noisy_frame;;
  compressed_frame ← compression_artifacts lib frame (compression_quality p);
  emit "compression.mp4" "compression.png" saved_images compressed_frame;;
  blurred_frame ← motion_blur frame (kernel_size p);
  emit "motion_blur.mp4" "motion_blur.png" saved_images blurred_frame;;
  banded_frame ← color_banding lib frame (color_branding_levels p);
  emit "color_banding.mp4" "color_banding.png" saved_images banded_frame;;
  sp_noise_frame ← salt_and_pepper_noise frame (salt_and_pepper_amount p);
  emit "salt_pepper_noise.mp4" "salt_pepper_noise.png" saved_images sp_noise_frame;;
  distorted_frame ← lens_distortion lib frame (lens_k1 p) (lens_k2 p);
  emit "lens_distortion.mp4" "lens_distortion.png" saved_images distorted_frame;;
  vignette_frame ← vignetting lib frame;
  emit "vignetting.mp4" "vignetting.png" saved_images vignette_frame;;
  aberrated_frame ← chromatic_aberration frame (chromatic_aberration_shift p);
  emit "chromatic_aberration.mp4" "chromatic_aberration.png" saved_images aberrated_frame;;
  dusty_frame ← dust_dirt_particles lib frame (dust_particles p);
  emit "dust_particles.mp4" "dust_particles.png" saved_images dusty_frame;;
  simulate_frame_dropping frame "frame_dropping.mp4" (drop_rate p).

(** The [while True] loop; [fuel] bounds the number of reads. *)
Fixpoint frame_loop (fuel : nat) (cap : nat) (p : params) (frame_count : Z)
    (frame_number : Z) (saved_images : bool) : M unit :=
  match fuel with
  | O => raise OutOfFuel
  | S fuel' =>
      r ← cap_read cap;
      match r with
      | None => mret ()
      | Some frame =>
          process_frame p saved_images frame;;
          let frame_number := frame_number + 1 in
          (if frame_number mod 10 =? 0
           then print ("Processed " +:+ pretty frame_number +:+ "/" +:+
                       pretty frame_count +:+ " frames")
           else mret ());;
          frame_loop fuel' cap p frame_count frame_number true
      end
  end.

Definition sink_names : list string :=
  ["gaussian_noise.mp4"; "compression.mp4"; "motion_blur.mp4"; "color_banding.mp4";
   "salt_pepper_noise.mp4"; "lens_distortion.mp4"; "vignetting.mp4";
   "chromatic_aberration.mp4"; "dust_particles.mp4"; "frame_dropping.mp4"].

Definition add_artifacts (fuel : nat) (input_video_path : string) (p : params) : M unit :=
  cap ← cv_VideoCapture input_video_path;
  ok ← cap_isOpened cap;
  if negb ok then print ("Error opening video file: " +:+ input_video_path)
  else
    width ← cap_get cap vwidth 0;
    height ← cap_get cap vheight 0;
    fps ← cap_get cap vfps 0%Q;
    let fourcc := cv_VideoWriter_fourcc "mp4v" in
    outs ← mapM (λ name, cv_VideoWriter name fourcc fps width height) sink_names;
    frame_count ← cap_get cap vcount 0;
    print ("Processing " +:+ pretty frame_count +:+ " frames to add artifacts...");;
    frame_loop fuel cap p frame_count 0 false;;
    cap_release cap;;
    for_each outs writer_release;;
    print "Artifact addition complete".

(** The script run as a program. *)
Definition main (fuel : nat) : M unit :=
  let input_video := "input_video.mp4" in
  add_artifacts fuel input_video default_params.

End Pipeline.

(** * Vocabulary of the statements *)

(** ** Outcomes and effects *)

(** [mspec partial m σ Q]: running [m] in [σ] returns a value and a world
    that satisfy [Q]; when [partial] is set, raising is accepted too. *)
Definition mspec {A} (partial : bool) (m : M A) (σ : world) (Q : A → world → Prop) : Prop :=
  match m σ with
  | Ok a σ' => Q a σ'
  | Raise _ _ => partial = true
  end.

(** One channel of a row of pixels. *)
Definition channel (k : nat) (row : list (list Z)) : list Z := map (λ p, nth k p 0) row.

(** What [chromatic_aberration] does to one row: the closed form of
    split, roll, roll, merge. *)
Definition aberrate_row (s : Z) (row : list (list Z)) : list (list Z) :=
  zip_with (λ vb vgr, [vb; vgr.1; vgr.2])
           (roll s (channel 0 row)) (zip (channel 1 row) (roll (- s) (channel 2 row))).

(** The column a shifted pixel value comes from. *)
Definition source_column (w : nat) (j : nat) (s : Z) : nat :=
  Z.to_nat ((Z.of_nat j - s) mod Z.of_nat w).

(** [f] with the pixels at [locs] filled with [v], one after the other. *)
Definition paint (v : Z) (f : frame) (locs : list (nat * nat)) : frame :=
  foldl (λ f loc, fill_pixel v f loc.1 loc.2) f locs.

(** Everything but the store and the head of NumPy's generator is as it
    was. *)
Definition keeps_rest (σ σ' : world) : Prop :=
  cv_theRNG σ' = cv_theRNG σ ∧ stdout σ' = stdout σ ∧
  videos σ' = videos σ ∧ images σ' = images σ ∧ captures σ' = captures σ ∧
  tape (np_random σ') = tape (np_random σ) ∧
  (pos (np_random σ) ≤ pos (np_random σ'))%nat.

(** Only NumPy's generator moved on. *)
Definition np_advance (σ σ' : world) : Prop :=
  heap σ' = heap σ ∧ keeps_rest σ σ'.

(** The console, the files and the capture objects are as they were; the
    generators read the same tapes, possibly further on. *)
Definition rest_effect (σ σ' : world) : Prop :=
  stdout σ' = stdout σ ∧
  videos σ' = videos σ ∧ images σ' = images σ ∧ captures σ' = captures σ ∧
  tape (np_random σ') = tape (np_random σ) ∧
  (pos (np_random σ) ≤ pos (np_random σ'))%nat ∧
  tape (cv_theRNG σ') = tape (cv_theRNG σ) ∧
  (pos (cv_theRNG σ) ≤ pos (cv_theRNG σ'))%nat.

(** What a call may do to the world: add the arrays [news] to the store
    and move the generators on.  Every array that was there is untouched;
    so are the console and the files. *)
Definition transform_effect (σ σ' : world) (news : list frame) : Prop :=
  heap σ' = heap σ ++ news ∧ rest_effect σ σ'.

(** The call returned a reference to a new array with the shape of [f]. *)
Definition fresh_frame_like (f : frame) (σ : world) (r : addr) (σ' : world) : Prop :=
  ∃ news g, transform_effect σ σ' news ∧ (length (heap σ) ≤ r)%nat ∧
            heap σ' !! r = Some g ∧ same_shape f g ∧ wf_frame g.

(** The number of salt locations, and of pepper locations. *)
Definition sp_count (f : frame) (amount : Q) : Z :=
  Qceiling (float_mul (float_mul (float64 amount) (float64 (inject_Z (size f)))) (1 # 2)).

(** The locations two index arrays denote. *)
Definition locations (rows cols : list Z) : list (nat * nat) :=
  zip (Z.to_nat <$> rows) (Z.to_nat <$> cols).

(** ** Sample inputs *)

#[global] Instance wf_frame_dec f : Decision (wf_frame f).
Proof. unfold wf_frame, has_shape. apply _. Defined.

#[global] Instance uint8_frame_dec f : Decision (uint8_frame f).
Proof. unfold uint8_frame. apply _. Defined.

Definition sample_library : library :=
  Library NEP50 (λ _, 0%Q) (λ _ _ _ _ _, 0) (λ K _ _ _ _, K) (λ _ _ _ _ _ _ _, 0)
          (λ _ _ _, 1%Q) (λ _ _ _, 0) (λ _ _ _ _ _, false).

Definition sample_frame : frame :=
  Frame 2 3 3 [[[1; 2; 3]; [4; 5; 6]; [7; 8; 9]];
               [[10; 20; 30]; [40; 50; 60]; [70; 80; 255]]].

(** A world holding one frame, both generators reading [t] from the start. *)
Definition sample_world (f : frame) (t : nat → N) : world :=
  World [f] (Rng t 0) (Rng t 0) [] ∅ ∅ [].

(** A frame of two rows and two columns, every element 7. *)
Definition flat_frame : frame :=
  Frame 2 2 3 [[[7; 7; 7]; [7; 7; 7]]; [[7; 7; 7]; [7; 7; 7]]].

(** A frame of three rows and three columns, every element 7. *)
Definition square_frame : frame :=
  Frame 3 3 3 [[[7; 7; 7]; [7; 7; 7]; [7; 7; 7]];
               [[7; 7; 7]; [7; 7; 7]; [7; 7; 7]];
               [[7; 7; 7]; [7; 7; 7]; [7; 7; 7]]].

(** A tape whose first words make the salt rows 0, 0, 1, 1 and the salt
    columns 0, 1, 0, 1 on [square_frame]; every later word is 0. *)
Definition spread_tape (n : nat) : N :=
  match n with
  | 2 | 3 | 5 | 7 => 1%N
  | _ => 0%N
  end%nat.

(** ** The nine transforms as one family *)

(** A transform together with its parameters. *)
Inductive transform :=
| GaussianNoise (noise_level : Q)
| CompressionArtifacts (compression_quality : Z)
| MotionBlur (kernel_size : Z)
| ColorBanding (levels : Z)
| SaltAndPepperNoise (amount : Q)
| LensDistortion (k1 k2 : Q)
| Vignetting
| ChromaticAberration (shift : Z)
| DustDirtParticles (num_particles : Z).

Definition apply_transform (lib : library) (t : transform) (frame : addr) : M addr :=
  match t with
  | GaussianNoise noise_level => gaussian_noise lib frame noise_level
  | CompressionArtifacts compression_quality =>
      compression_artifacts lib frame compression_quality
  | MotionBlur kernel_size => motion_blur frame kernel_size
  | ColorBanding levels => color_banding lib frame levels
  | SaltAndPepperNoise amount => salt_and_pepper_noise frame amount
  | LensDistortion k1 k2 => lens_distortion lib frame k1 k2
  | Vignetting => vignetting lib frame
  | ChromaticAberration shift => chromatic_aberration frame shift
  | DustDirtParticles num_particles => dust_dirt_particles lib frame num_particles
  end.

(** The parameters, and for salt and pepper the frames, on which a
    transform returns. *)
Definition accepts (lib : library) (t : transform) (f : frame) : Prop :=
  match t with
  | MotionBlur kernel_size => 1 ≤ kernel_size
  | ColorBanding levels =>
      levels ≠ 0 ∧ (promotion_rule lib = ValueBased ∨ 0 ≤ 256 / levels ≤ 255)
  | SaltAndPepperNoise amount =>
      (0 <= amount)%Q ∧ (2 ≤ height f)%nat ∧ (2 ≤ width f)%nat
  | _ => True
  end.

(** A frame of one row. *)
Definition one_row_frame : frame :=
  Frame 1 4 3 [[[1; 2; 3]; [4; 5; 6]; [7; 8; 9]; [10; 11; 12]]].

(** ** The frame loop *)

(** The value [np.random.rand()] returns when the head is at cell [n]. *)
Definition rand_value (t : nat → N) (n : nat) : Q :=
  (Z.of_N (t n) mod 2 ^ 53 # 2 ^ 53)%Q.

(** The test of [simulate_frame_dropping]. *)
Definition forwarded (drop_rate u : Q) : bool :=
  if Qlt_le_dec drop_rate u then true else false.

(** The frames that pass the test, given one draw per frame. *)
Definition kept_frames (drop_rate : Q) (frames : list frame) (draws : list Q) : list frame :=
  (zip frames draws) ≫= λ fu, if forwarded drop_rate fu.2 then [fu.1] else [].

(** A frame every transform of the pipeline accepts. *)
Definition video_frame (f : frame) : Prop :=
  wf_frame f ∧ uint8_frame f ∧ channels f = 3%nat ∧ (2 ≤ height f)%nat ∧ (2 ≤ width f)%nat.

(** Parameters with which every transform of the pipeline returns. *)
Definition valid_params (lib : library) (p : params) : Prop :=
  1 ≤ kernel_size p ∧
  color_branding_levels p ≠ 0 ∧
  (promotion_rule lib = ValueBased ∨ 0 ≤ 256 / color_branding_levels p ≤ 255) ∧
  (0 <= salt_and_pepper_amount p)%Q.

(** The world after [emit]. *)
Definition emitted (out img : string) (saved_images : bool) (g : frame) (σ : world) : world :=
  let σ1 := set_videos (alter (push_frame g) out (videos σ)) σ in
  if saved_images then σ1 else set_images (<[img := g]> (images σ1)) σ1.

(** What the frame loop keeps from one command to the next: the frame just
    read, the sink of dropped frames, the capture object, the stream of
    NumPy's generator. *)
Definition loop_state (a : addr) (f : frame) (sink : video) (cap : nat) (c : capture)
    (t : nat → N) (σ : world) : Prop :=
  heap σ !! a = Some f ∧ videos σ !! "frame_dropping.mp4" = Some sink ∧
  captures σ !! cap = Some c ∧ tape (np_random σ) = t.

Definition with_drop_rate (rate : Q) (p : params) : params :=
  Params (noise_level p) (compression_quality p) (kernel_size p) (color_branding_levels p)
         (salt_and_pepper_amount p) (lens_k1 p) (lens_k2 p) (chromatic_aberration_shift p)
         (dust_particles p) rate.

(** A world whose working directory holds one video of one frame, under
    the name the script reads. *)
Definition one_frame_world (t : nat → N) : world :=
  World [] (Rng t 0) (Rng t 0) [] {["input_video.mp4" := Video "avc1" 2 2 30 1 [flat_frame]]} ∅ [].

#[global] Instance video_frame_dec f : Decision (video_frame f).
Proof. unfold video_frame. apply _. Defined.

(** ** What is read from NumPy's generator *)

(** The array [np.random.randint(low, high, n)] returns when the head is at
    cell [p]. *)
Definition randint_values (t : nat → N) (p : nat) (low high : Z) (n : nat) : list Z :=
  tabulate n (λ i, low + Z.of_N (t (p + i)%nat) mod (high - low)).

(** The locations of one round of [salt_and_pepper_noise] on a frame of the
    shape of [f]: [n] row indices, then [n] column indices (the [n] channel
    indices read after them are not used). *)
Definition drawn_locations (t : nat → N) (p : nat) (f : frame) (n : nat)
  : list (nat * nat) :=
  locations (randint_values t p 0 (Z.of_nat (height f) - 1) n)
            (randint_values t (p + n) 0 (Z.of_nat (width f) - 1) n).

(** The salt and the pepper locations of a call in the world [σ]. *)
Definition salt_locations (σ : world) (f : frame) (amount : Q) : list (nat * nat) :=
  drawn_locations (tape (np_random σ)) (pos (np_random σ)) f (Z.to_nat (sp_count f amount)).

Definition pepper_locations (σ : world) (f : frame) (amount : Q) : list (nat * nat) :=
  drawn_locations (tape (np_random σ))
    (pos (np_random σ) + 3 * Z.to_nat (sp_count f amount)) f (Z.to_nat (sp_count f amount)).

(** The values of NumPy's generator a transform reads on the frame [f]. *)
Definition np_reads (t : transform) (f : frame) : nat :=
  match t with
  | SaltAndPepperNoise amount => 6 * Z.to_nat (sp_count f amount)
  | DustDirtParticles num_particles => 4 * Z.to_nat num_particles
  | _ => 0
  end.

(** The values the transforms of one iteration of the frame loop read,
    before [simulate_frame_dropping] makes its draw. *)
Definition np_words (p : params) (f : frame) : nat :=
  np_reads (SaltAndPepperNoise (salt_and_pepper_amount p)) f +
  np_reads (DustDirtParticles (dust_particles p)) f.

(** The cells the draws of [simulate_frame_dropping] are read from, one for
    each frame, when the loop starts with the head at cell [n]. *)
Fixpoint draw_positions (p : params) (n : nat) (frames : list frame) : list nat :=
  match frames with
  | [] => []
  | f :: rest => (n + np_words p f)%nat :: draw_positions p (S (n + np_words p f)) rest
  end.

(** The cell the head is at when the loop ends. *)
Fixpoint loop_end (p : params) (n : nat) (frames : list frame) : nat :=
  match frames with
  | [] => n
  | f :: rest => loop_end p (S (n + np_words p f)) rest
  end.

(** The draws of [simulate_frame_dropping], one for each frame. *)
Definition frame_draws (p : params) (g : rng) (frames : list frame) : list Q :=
  map (rand_value (tape g)) (draw_positions p (pos g) frames).

(** A command that leaves NumPy's generator alone, whether it returns or
    raises. *)
Definition np_kept {A} (m : M A) : Prop :=
  ∀ σ, match m σ with Ok _ σ' | Raise _ σ' => np_random σ' = np_random σ end.

(** ** Further vocabulary *)

(** The call raises the exception [e]. *)
Definition raises {A} (m : M A) (σ : world) (e : exn) : Prop :=
  ∃ σ', m σ = Raise e σ'.

(** What [color_banding] does to one value. *)
Definition quantise (levels v : Z) : Z := v / (256 / levels) * (256 / levels).

(** The mean [motion_blur] takes for one element: [kernel_size] horizontal
    neighbours, mirrored at the border, in the row of the element for an odd
    size and in the row above for an even size. *)
Definition row_mean (f : frame) (kernel_size : Z) (y x ch : nat) : Q :=
  (Qsum (tabulate (Z.to_nat kernel_size) (λ j,
     inject_Z (at3 f
       (borderInterpolate (Z.of_nat y + (if Z.odd kernel_size then 0 else -1))
                          (Z.of_nat (height f)))
       (borderInterpolate (Z.of_nat x + Z.of_nat j - kernel_size / 2)
                          (Z.of_nat (width f)))
       ch)))
   / inject_Z kernel_size)%Q.

(** The array [V] after [V[:, :, k] = vals]. *)
Definition assign_channel (k : nat) (V : frame) (vals : list (list Q)) : frame :=
  Frame (height V) (width V) (channels V)
    (zip_with (zip_with (λ p q, <[k := uint8 (Qtrunc q)]> p)) (data V) vals).

(** The float array [f[:, :, k] * mask]. *)
Definition channel_times (f : frame) (k : nat) (mask : list (list Q)) : list (list Q) :=
  zip_with (zip_with (λ v m, (inject_Z v * m)%Q)) (map (map (λ p, nth k p 0)) (data f)) mask.

(** The entry of a two-dimensional float array. *)
Definition entry (mask : list (list Q)) (i j : nat) : option Q :=
  mask !! i ≫= λ row, row !! j.

(** ** The files of the pipeline *)

(** The nine sinks of the transforms with their still images, in the order
    of the loop body. *)
Definition transform_sinks : list (string * string) :=
  [("gaussian_noise.mp4", "gaussian_noise.png");
   ("compression.mp4", "compression.png");
   ("motion_blur.mp4", "motion_blur.png");
   ("color_banding.mp4", "color_banding.png");
   ("salt_pepper_noise.mp4", "salt_pepper_noise.png");
   ("lens_distortion.mp4", "lens_distortion.png");
   ("vignetting.mp4", "vignetting.png");
   ("chromatic_aberration.mp4", "chromatic_aberration.png");
   ("dust_particles.mp4", "dust_particles.png")].

(** A video file with the frames [L] at its end. *)
Definition grow (s : video) (L : list frame) : video :=
  Video (vcodec s) (vwidth s) (vheight s) (vfps s)
        (vcount s + Z.of_nat (length L)) (vframes s ++ L).

(** The video files after the transformed frames [acc] have been written,
    and the image files after they have been saved. *)
Definition pushed_frames (acc : list (string * string * frame)) (m : gmap string video)
  : gmap string video :=
  foldl (λ m x, alter (push_frame x.2) x.1.1 m) m acc.

Definition saved_stills (acc : list (string * string * frame)) (m : gmap string frame)
  : gmap string frame :=
  foldl (λ m x, <[x.1.2 := x.2]> m) m acc.

(** Inside one iteration of the frame loop that started in [σ0]: the frame
    read is [f], the transformed frames [acc] have been written. *)
Definition step_state (a : addr) (f : frame) (first : bool) (σ0 : world)
    (acc : list (string * string * frame)) (σ : world) : Prop :=
  heap σ !! a = Some f ∧
  videos σ = pushed_frames acc (videos σ0) ∧
  images σ = (if first then saved_stills acc (images σ0) else images σ0) ∧
  stdout σ = stdout σ0 ∧ captures σ = captures σ0 ∧
  tape (np_random σ) = tape (np_random σ0) ∧
  Forall (λ x, same_shape f x.2) acc.

(** What one iteration on the frame [f] does to the sink [x.1] and the
    still image [x.2]: the transformed frame [g] is appended and, in the
    first iteration, saved. *)
Definition sink_written (f : frame) (first : bool) (σ σ' : world)
    (x : string * string) (g : frame) : Prop :=
  same_shape f g ∧
  videos σ' !! x.1 = push_frame g <$> videos σ !! x.1 ∧
  images σ' !! x.2 = (if first then Some g else images σ !! x.2).

(** What the frame loop does to a sink and its still image: one frame [L]
    per frame read; the first of them is saved if the loop starts with the
    first frame. *)
Definition sink_filled (frames : list frame) (first : bool) (σ σ' : world)
    (x : string * string) (L : list frame) : Prop :=
  Forall2 same_shape frames L ∧
  videos σ' !! x.1 = (λ s, grow s L) <$> videos σ !! x.1 ∧
  images σ' !! x.2 = (if first then from_option Some (images σ !! x.2) (head L)
                      else images σ !! x.2).

(** The progress line for frame number [n]. *)
Definition progress_line (frame_count n : Z) : string :=
  "Processed " +:+ pretty n +:+ "/" +:+ pretty frame_count +:+ " frames".

(** The lines the loop prints while it reads [n] frames after frame number
    [frame_number]. *)
Fixpoint loop_lines (frame_count frame_number : Z) (n : nat) : list string :=
  match n with
  | O => []
  | S n' =>
      (if (frame_number + 1) mod 10 =? 0 then [progress_line frame_count (frame_number + 1)]
       else []) ++ loop_lines frame_count (frame_number + 1) n'
  end.

(** The progress lines of a run over [n] frames: one for every tenth. *)
Definition progress_lines (frame_count : Z) (n : nat) : list string :=
  map (λ k, progress_line frame_count (10 * Z.of_nat k)) (seq 1 (n / 10)).

(** * Reasoning about floats *)

Lemma cvRound_nonneg q : (0 <= q)%Q → 0 ≤ cvRound q.
Proof.
  intros Hq. unfold cvRound.
  pose proof (Qfloor_resp_le _ _ Hq) as Hf. change (Qfloor 0) with 0 in Hf.
  destruct (_ ?= _)%Q; [destruct (Z.even _)|..]; lia.
Qed.

(** Rounding keeps the sign. *)
Lemma float64_nonneg q : (0 <= q)%Q → (0 <= float64 q)%Q.
Proof.
  intros Hq. unfold float64. cbv zeta.
  set (ulp := (2 ^ _)%Q).
  assert (0 < ulp)%Q as Hulp by (by apply Qpower_0_lt).
  apply Qmult_le_0_compat; [|by apply Qlt_le_weak].
  change 0%Q with (inject_Z 0). rewrite <- Zle_Qle. apply cvRound_nonneg.
  apply Qle_shift_div_l; [done|]. by rewrite Qmult_0_l.
Qed.

(** From here on a rounding is carried out by evaluation only. *)
Opaque float64.

Lemma float_mul_nonneg x y : (0 <= x)%Q → (0 <= y)%Q → (0 <= float_mul x y)%Q.
Proof. intros Hx Hy. apply float64_nonneg. by apply Qmult_le_0_compat. Qed.

(** * Reasoning about computations *)

Lemma mspec_ret {A} b (a : A) σ Q : Q a σ → mspec b (mret a) σ Q.
Proof. done. Qed.

Lemma mspec_bind {A B} b (m : M A) (k : A → M B) σ Q :
  mspec b m σ (λ a σ', mspec b (k a) σ' Q) → mspec b (m ≫= k) σ Q.
Proof. unfold mspec, mbind, M_bind. by destruct (m σ). Qed.

Lemma mspec_mono {A} b (m : M A) σ (P Q : A → world → Prop) :
  mspec b m σ P → (∀ a σ', P a σ' → Q a σ') → mspec b m σ Q.
Proof. unfold mspec. destruct (m σ); auto. Qed.

Lemma mspec_total_inv {A} (m : M A) σ Q :
  mspec false m σ Q → ∃ a σ', m σ = Ok a σ' ∧ Q a σ'.
Proof. unfold mspec. destruct (m σ); [eauto | done]. Qed.

Lemma mspec_partial_inv {A} (m : M A) σ Q a σ' :
  mspec true m σ Q → m σ = Ok a σ' → Q a σ'.
Proof. unfold mspec. intros H E. by rewrite E in H. Qed.

Lemma mspec_weaken {A} b (m : M A) σ Q : mspec false m σ Q → mspec b m σ Q.
Proof. unfold mspec. by destruct (m σ). Qed.

Lemma mspec_raise {A} b e σ (Q : A → world → Prop) : b = true → mspec b (raise e) σ Q.
Proof. done. Qed.

Lemma mspec_lift {A} b e (o : option A) σ Q :
  (∀ a, o = Some a → Q a σ) → (o = None → b = true) → mspec b (lift e o) σ Q.
Proof. destruct o; simpl; intros H1 H2; [by apply H1 | by apply H2]. Qed.

Lemma mspec_load b a f σ Q :
  heap σ !! a = Some f → Q f σ → mspec b (load a) σ Q.
Proof. unfold mspec, load. by intros ->. Qed.

Lemma mspec_alloc b f σ (Q : addr → world → Prop) :
  Q (length (heap σ)) (set_heap (heap σ ++ [f]) σ) → mspec b (alloc f) σ Q.
Proof. done. Qed.

Lemma mspec_store b a f σ (Q : unit → world → Prop) :
  is_Some (heap σ !! a) → Q () (set_heap (<[a:=f]> (heap σ)) σ) → mspec b (store a f) σ Q.
Proof. unfold mspec, store. by intros [f0 ->]. Qed.

Lemma mspec_modify b g σ (Q : unit → world → Prop) :
  Q () (g σ) → mspec b (modify g) σ Q.
Proof. done. Qed.

Lemma mspec_lift_Some {A} b e (a : A) σ Q : Q a σ → mspec b (lift e (Some a)) σ Q.
Proof. done. Qed.

Arguments mspec : simpl never.

(** One step through a sequence of commands. *)
Ltac mstep :=
  lazymatch goal with
  | |- mspec _ (_ ≫= _) _ _ => apply mspec_bind
  | |- mspec _ (mret _) _ _ => apply mspec_ret
  | |- mspec _ (alloc _) _ _ => apply mspec_alloc
  | |- mspec _ (modify _) _ _ => apply mspec_modify
  | |- mspec _ (lift _ (Some _)) _ _ => apply mspec_lift_Some
  end.

(** Run through the commands that cannot fail. *)
Ltac msteps := repeat first [ mstep | progress cbv beta | progress simpl (_ !! _) ].

(** ** Lists and arrays *)

Lemma length_tabulate {A} n (g : nat → A) : length (tabulate n g) = n.
Proof. unfold tabulate. by rewrite length_map, length_seq. Qed.

Lemma lookup_tabulate {A} n (g : nat → A) i :
  (i < n)%nat → tabulate n g !! i = Some (g i).
Proof.
  intros Hi. unfold tabulate. rewrite list_lookup_fmap, lookup_seq_lt by done. done.
Qed.

Lemma lookup_tabulate_ge {A} n (g : nat → A) i :
  (n ≤ i)%nat → tabulate n g !! i = None.
Proof. intros Hi. apply lookup_ge_None. by rewrite length_tabulate. Qed.

Lemma tabulate_ext {A} n (g1 g2 : nat → A) :
  (∀ i, (i < n)%nat → g1 i = g2 i) → tabulate n g1 = tabulate n g2.
Proof.
  intros H. unfold tabulate. apply map_ext_in. intros i Hi%in_seq. apply H. lia.
Qed.

(** A list is the table of its own elements. *)
Lemma tabulate_nth {A} (l : list A) d : tabulate (length l) (λ i, nth i l d) = l.
Proof.
  apply list_eq. intros i. destruct (decide (i < length l)%nat) as [Hi|Hi].
  - rewrite lookup_tabulate by done.
    destruct (nth_lookup_or_length l i d) as [->|]; [done | lia].
  - rewrite lookup_tabulate_ge by lia. symmetry. apply lookup_ge_None. lia.
Qed.

Lemma get_map3 g h w c d i j k :
  get (Frame h w c (map3 g d)) i j k = g <$> get (Frame h w c d) i j k.
Proof.
  unfold get, map3. simpl. rewrite list_lookup_fmap.
  destruct (d !! i) as [row|]; simpl; [|done].
  rewrite list_lookup_fmap. destruct (row !! j) as [p|]; simpl; [|done].
  by rewrite list_lookup_fmap.
Qed.

Lemma lookup_app_length {A} (l : list A) x : (l ++ [x]) !! length l = Some x.
Proof. by rewrite lookup_app_r, Nat.sub_diag by lia. Qed.

Lemma insert_app_length {A} (l : list A) x y : <[length l := y]> (l ++ [x]) = l ++ [y].
Proof. by rewrite insert_app_r_alt, Nat.sub_diag by lia. Qed.

Lemma map3_map3 g1 g2 d : map3 g2 (map3 g1 d) = map3 (λ v, g2 (g1 v)) d.
Proof.
  unfold map3. rewrite map_map. apply map_ext. intros row.
  rewrite map_map. apply map_ext. intros p. by rewrite map_map.
Qed.

Lemma map3_ext_Forall (P : Z → Prop) g1 g2 d :
  (∀ v, P v → g1 v = g2 v) → Forall (Forall (Forall P)) d → map3 g1 d = map3 g2 d.
Proof.
  intros Hg Hd. unfold map3.
  apply map_ext_Forall. eapply Forall_impl; [exact Hd|]. intros row Hrow. simpl in *.
  apply map_ext_Forall. eapply Forall_impl; [exact Hrow|]. intros p Hp. simpl in *.
  apply map_ext_Forall. eapply Forall_impl; [exact Hp|]. intros v Hv. by apply Hg.
Qed.

(** ** Colour banding *)

(** Quantisation of one 8-bit value stays within 8 bits, so the two typing
    rules agree wherever both return. *)
Lemma quantise_uint8 q v :
  0 ≤ q ≤ 255 → 0 ≤ v < 256 → uint8 (uint8 (v / q) * q) = v / q * q.
Proof.
  intros Hq Hv. unfold uint8.
  destruct (decide (q = 0)) as [->|Hq0].
  { by rewrite Z.div_0_r. }
  assert (0 ≤ v / q) by (apply Z.div_pos; lia).
  assert (v / q * q ≤ v) by (rewrite Z.mul_comm; apply Z.mul_div_le; lia).
  assert (v / q ≤ v / q * q) by nia.
  rewrite (Z.mod_small (v / q)) by lia.
  apply Z.mod_small. nia.
Qed.

Lemma color_banding_spec b lib σ a f L :
  heap σ !! a = Some f →
  uint8_frame f →
  (b = false → L ≠ 0 ∧ (promotion_rule lib = ValueBased ∨ 0 ≤ 256 / L ≤ 255)) →
  mspec b (color_banding lib a L) σ (λ r σ',
    r = length (heap σ) ∧
    σ' = set_heap (heap σ ++ [Frame (height f) (width f) (channels f)
                                 (map3 (λ v, v / (256 / L) * (256 / L)) (data f))]) σ).
Proof.
  intros Ha Hu Hdom. unfold color_banding.
  mstep. eapply mspec_load; [done|].
  unfold py_floordiv. destruct (Z.eqb_spec L 0) as [HL|_].
  { mstep. apply mspec_raise. destruct b; [done|]. by destruct Hdom. }
  msteps.
  set (q := 256 / L) in *.
  destruct (promotion_rule lib) eqn:Hp; simpl.
  - msteps. simpl. msteps. split; [done|]. by rewrite map3_map3.
  - destruct (Z.leb_spec 0 q), (Z.leb_spec q 255); simpl;
      try (apply mspec_raise; destruct b; [done|]; destruct Hdom as [_ [|]]; [done|discriminate|lia]).
    msteps. simpl.
    destruct (Z.leb_spec 0 q), (Z.leb_spec q 255); try lia; simpl.
    msteps. split; [done|]. do 4 f_equal.
    rewrite map3_map3.
    apply (map3_ext_Forall (λ v, 0 ≤ v < 256)); [|done].
    intros v Hv. by apply quantise_uint8.
Qed.

(** ** Circular shifts *)

Lemma length_roll {A} s (l : list A) : length (roll s l) = length l.
Proof.
  unfold roll. destruct (length l) as [|n] eqn:Hn; [done|].
  rewrite length_app, length_drop, length_take.
  assert (0 ≤ s mod Z.of_nat (S n) < Z.of_nat (S n)) by (apply Z.mod_pos_bound; lia).
  lia.
Qed.

(** Column [j] of the shifted row holds what was at column [j - shift],
    counted modulo the row length. *)
Lemma lookup_roll {A} s (l : list A) j :
  (j < length l)%nat →
  roll s l !! j = l !! Z.to_nat ((Z.of_nat j - s) mod Z.of_nat (length l)).
Proof.
  intros Hj. unfold roll. destruct (length l) as [|n] eqn:Hn; [lia|].
  set (N := Z.of_nat (S n)).
  assert (HN : 0 < N) by (unfold N; lia).
  pose proof (Z.mod_pos_bound s N HN) as Hk.
  set (k := Z.to_nat (s mod N)).
  assert (Hkn : (k < S n)%nat) by (unfold k, N in *; lia).
  assert (Hs : s = N * (s / N) + Z.of_nat k).
  { unfold k. rewrite Z2Nat.id by lia. apply Z.div_mod. lia. }
  destruct (decide (j < k)%nat) as [Hlt|Hge].
  - rewrite lookup_app_l by (rewrite length_drop; lia).
    rewrite lookup_drop. f_equal.
    assert ((Z.of_nat j - s) mod N = Z.of_nat j - Z.of_nat k + N) as ->; [|unfold N; lia].
    symmetry. apply (Z.mod_unique_pos _ _ (- (s / N) - 1)). lia. lia.
  - rewrite lookup_app_r by (rewrite length_drop; lia).
    rewrite length_drop, lookup_take_lt by lia. f_equal.
    assert ((Z.of_nat j - s) mod N = Z.of_nat j - Z.of_nat k) as ->; [|lia].
    symmetry. apply (Z.mod_unique_pos _ _ (- (s / N))). lia. lia.
Qed.

(** Shifting back undoes a shift. *)
Lemma roll_roll_opp {A} s (l : list A) : roll (- s) (roll s l) = l.
Proof.
  apply list_eq. intros j.
  destruct (decide (j < length l)%nat) as [Hj|Hj].
  - rewrite lookup_roll by (by rewrite length_roll). rewrite length_roll.
    set (N := Z.of_nat (length l)). assert (0 < N) by (unfold N; lia).
    pose proof (Z.mod_pos_bound (Z.of_nat j - - s) N ltac:(lia)).
    rewrite lookup_roll by lia. fold N. f_equal.
    rewrite Z2Nat.id by lia.
    rewrite Zminus_mod_idemp_l.
    replace (Z.of_nat j - - s - s) with (Z.of_nat j) by lia.
    rewrite Z.mod_small by lia. lia.
  - rewrite !(proj2 (lookup_ge_None _ _)); [done|lia|rewrite !length_roll; lia].
Qed.

(** ** Chromatic aberration *)

Lemma plane_ok_true h w (p : list (list Z)) :
  length p = h → Forall (λ row, length row = w) p → plane_ok h w p = true.
Proof.
  intros Hh Hw. unfold plane_ok. rewrite Hh, Nat.eqb_refl. simpl.
  apply forallb_forall. intros row Hin.
  rewrite Forall_forall in Hw. apply Nat.eqb_eq, Hw. by apply list_elem_of_In.
Qed.

Lemma wf_rows f : wf_frame f → Forall (λ row, length row = width f) (data f).
Proof. intros [_ H]. eapply Forall_impl; [exact H|]. by intros row [? _]. Qed.

Lemma merge_rolled_rows s (d : list (list (list Z))) :
  zip_with (λ rb gr, zip_with (λ vb vgr, [vb; vgr.1; vgr.2]) rb (zip gr.1 gr.2))
     (np_roll_axis1 (map (map (λ p, nth 0 p 0)) d) s)
     (zip (map (map (λ p, nth 1 p 0)) d)
          (np_roll_axis1 (map (map (λ p, nth 2 p 0)) d) (- s)))
  = map (aberrate_row s) d.
Proof. induction d as [|row d IH]; [done|]. simpl. by rewrite <- IH. Qed.

Lemma chromatic_aberration_spec b σ a f s :
  heap σ !! a = Some f →
  wf_frame f → channels f = 3%nat → (1 ≤ height f)%nat → (1 ≤ width f)%nat →
  mspec b (chromatic_aberration a s) σ (λ r σ',
    r = length (heap σ) ∧
    σ' = set_heap (heap σ ++ [Frame (height f) (width f) 3 (map (aberrate_row s) (data f))]) σ).
Proof.
  intros Ha Hwf Hc Hh Hw. unfold chromatic_aberration.
  mstep. eapply mspec_load; [done|].
  unfold cv_split, is_empty. rewrite Hc.
  destruct (Nat.eqb_spec (height f) 0); [lia|].
  destruct (Nat.eqb_spec (width f) 0); [lia|]. simpl.
  pose proof (wf_rows f Hwf) as Hrows. destruct Hwf as [Hlen _].
  assert (Hdims : plane_dims (np_roll_axis1 (map (map (λ p, nth 0 p 0)) (data f)) s)
                  = (height f, width f)).
  { unfold plane_dims, np_roll_axis1. rewrite !length_map, Hlen. f_equal.
    destruct (data f) as [|row0 d]; [simpl in *; lia|]. simpl.
    rewrite length_roll, length_map. by inversion Hrows. }
  unfold cv_merge3. rewrite Hdims.
  rewrite !plane_ok_true; first last.
  - unfold np_roll_axis1. rewrite Forall_map, Forall_map.
    eapply Forall_impl; [exact Hrows|]. intros row Hr. simpl.
    by rewrite length_roll, length_map.
  - unfold np_roll_axis1. by rewrite !length_map.
  - rewrite Forall_map. eapply Forall_impl; [exact Hrows|]. intros row Hr. simpl.
    by rewrite length_map.
  - by rewrite length_map.
  - unfold np_roll_axis1. rewrite Forall_map, Forall_map.
    eapply Forall_impl; [exact Hrows|]. intros row Hr. simpl.
    by rewrite length_roll, length_map.
  - unfold np_roll_axis1. by rewrite !length_map.
  - destruct (Nat.eqb_spec (height f) 0); [lia|].
    destruct (Nat.eqb_spec (width f) 0); [lia|]. simpl.
    mstep. mstep. mstep. rewrite merge_rolled_rows. done.
Qed.

Lemma length_channel k row : length (channel k row) = length row.
Proof. apply length_map. Qed.

Lemma lookup_channel k row j : channel k row !! j = (λ p, nth k p 0) <$> row !! j.
Proof. unfold channel. exact (list_lookup_fmap _ row j). Qed.

Lemma length_aberrate_row s row : length (aberrate_row s row) = length row.
Proof.
  unfold aberrate_row.
  rewrite length_zip_with, length_zip, !length_roll, !length_channel. lia.
Qed.

Lemma channels_of_merged (l1 l2 l3 : list Z) :
  length l2 = length l1 → length l3 = length l1 →
  let m := zip_with (λ vb vgr, [vb; vgr.1; vgr.2]) l1 (zip l2 l3) in
  channel 0 m = l1 ∧ channel 1 m = l2 ∧ channel 2 m = l3 ∧ Forall (λ p, length p = 3%nat) m.
Proof.
  revert l2 l3. induction l1 as [|x l1 IH]; intros [|y l2] [|z l3] H2 H3; simplify_eq/=;
    [by repeat split|].
  destruct (IH l2 l3) as (-> & -> & -> & HF); [lia..|]. repeat split. by constructor.
Qed.

Lemma merge_channels row :
  Forall (λ p, length p = 3%nat) row →
  zip_with (λ vb vgr, [vb; vgr.1; vgr.2]) (channel 0 row) (zip (channel 1 row) (channel 2 row))
  = row.
Proof.
  induction 1 as [|p row Hp _ IH]; [done|]. simpl. rewrite IH. f_equal.
  by destruct p as [|x [|y [|z [|]]]].
Qed.

Lemma aberrate_row_inverse s row :
  Forall (λ p, length p = 3%nat) row →
  aberrate_row (- s) (aberrate_row s row) = row.
Proof.
  intros Hrow. unfold aberrate_row at 1.
  destruct (channels_of_merged (roll s (channel 0 row)) (channel 1 row)
              (roll (- s) (channel 2 row))) as (H0 & H1 & H2 & _).
  { by rewrite length_roll, !length_channel. }
  { by rewrite !length_roll, !length_channel. }
  fold (aberrate_row s row) in H0, H1, H2. rewrite H0, H1, H2.
  rewrite !roll_roll_opp. by apply merge_channels.
Qed.

Lemma aberrate_row_pixels s row : Forall (λ p, length p = 3%nat) (aberrate_row s row).
Proof.
  unfold aberrate_row.
  apply (channels_of_merged (roll s (channel 0 row)) (channel 1 row) (roll (- s) (channel 2 row))).
  - by rewrite length_roll, !length_channel.
  - by rewrite !length_roll, !length_channel.
Qed.

Lemma source_column_lt w j s : (0 < w)%nat → (source_column w j s < w)%nat.
Proof.
  intros Hw. unfold source_column.
  pose proof (Z.mod_pos_bound (Z.of_nat j - s) (Z.of_nat w)). lia.
Qed.

Lemma lookup_aberrate_row s row j p :
  aberrate_row s row !! j = Some p →
  ∃ pb pg pr,
    row !! source_column (length row) j s = Some pb ∧
    row !! j = Some pg ∧
    row !! source_column (length row) j (- s) = Some pr ∧
    p = [nth 0 pb 0; nth 1 pg 0; nth 2 pr 0].
Proof.
  intros Hp.
  assert (Hj : (j < length row)%nat).
  { apply lookup_lt_Some in Hp. by rewrite length_aberrate_row in Hp. }
  unfold aberrate_row in Hp. rewrite lookup_zip_with in Hp.
  rewrite lookup_roll in Hp by (by rewrite length_channel).
  rewrite length_channel in Hp. fold (source_column (length row) j s) in Hp.
  rewrite lookup_channel in Hp.
  destruct (lookup_lt_is_Some_2 row (source_column (length row) j s)) as [pb Hpb].
  { apply source_column_lt. lia. }
  rewrite Hpb in Hp. simpl in Hp.
  rewrite lookup_zip_with, lookup_channel in Hp.
  destruct (lookup_lt_is_Some_2 row j Hj) as [pg Hpg]. rewrite Hpg in Hp. simpl in Hp.
  rewrite lookup_roll in Hp by (by rewrite length_channel).
  rewrite length_channel in Hp. fold (source_column (length row) j (- s)) in Hp.
  rewrite lookup_channel in Hp.
  destruct (lookup_lt_is_Some_2 row (source_column (length row) j (- s))) as [pr Hpr].
  { apply source_column_lt. lia. }
  rewrite Hpr in Hp. simpl in Hp. simplify_eq. eauto 10.
Qed.

(** ** Tables and well-formed frames *)

Lemma build_ext h w c g1 g2 :
  (∀ i j k, (i < h)%nat → (j < w)%nat → (k < c)%nat → g1 i j k = g2 i j k) →
  build h w c g1 = build h w c g2.
Proof.
  intros H. unfold build. f_equal.
  apply tabulate_ext. intros i Hi. apply tabulate_ext. intros j Hj.
  apply tabulate_ext. intros k Hk. by apply H.
Qed.

Lemma wf_row_length f i row :
  wf_frame f → data f !! i = Some row → length row = width f.
Proof.
  intros [_ H] Hi. rewrite Forall_lookup in H. by destruct (H i row Hi).
Qed.

Lemma wf_pixel_length f i j row p :
  wf_frame f → data f !! i = Some row → row !! j = Some p → length p = channels f.
Proof.
  intros [_ H] Hi Hj. rewrite Forall_lookup in H. destruct (H i row Hi) as [_ Hrow].
  rewrite Forall_lookup in Hrow. by apply (Hrow j p).
Qed.

Lemma tabulate_nth_length {A} n (l : list A) d :
  length l = n → tabulate n (λ i, nth i l d) = l.
Proof. intros <-. apply tabulate_nth. Qed.

(** A well-formed frame is the table of its own elements. *)
Lemma build_self f :
  wf_frame f →
  build (height f) (width f) (channels f) (λ i j k, nth k (nth j (nth i (data f) []) []) 0) = f.
Proof.
  intros Hwf. destruct f as [h w c d]. unfold build. simpl in *. f_equal.
  transitivity (tabulate h (λ i, nth i d [])).
  - apply tabulate_ext. intros i Hi.
    destruct (nth_lookup_or_length d i []) as [Hrow|Hlen]; [|destruct Hwf; simpl in *; lia].
    pose proof (wf_row_length _ _ _ Hwf Hrow) as Hw. simpl in Hw.
    transitivity (tabulate w (λ j, nth j (nth i d []) [])); [|by apply tabulate_nth_length].
    apply tabulate_ext. intros j Hj.
    destruct (nth_lookup_or_length (nth i d []) j []) as [Hp|Hlen]; [|lia].
    apply tabulate_nth_length. apply (wf_pixel_length _ _ _ _ _ Hwf Hrow Hp).
  - apply tabulate_nth_length. by destruct Hwf.
Qed.

Lemma nth_Forall {A} (P : A → Prop) l i d : Forall P l → P d → P (nth i l d).
Proof.
  intros Hl Hd. destruct (nth_lookup_or_length l i d) as [H|H].
  - rewrite Forall_lookup in Hl. by apply (Hl i).
  - by rewrite nth_overflow by lia.
Qed.

Lemma uint8_frame_nth f i j k :
  uint8_frame f → 0 ≤ nth k (nth j (nth i (data f) []) []) 0 < 256.
Proof.
  intros Hu. apply nth_Forall; [|lia]. apply nth_Forall; [|done]. by apply nth_Forall.
Qed.

(** ** Motion blur with a kernel of size one *)

Lemma cvRound_integer q v : (q == inject_Z v)%Q → cvRound q = v.
Proof.
  intros Hq. unfold cvRound.
  rewrite (Qfloor_comp _ _ Hq), Qfloor_Z.
  assert (q - inject_Z v == 0)%Q as -> by (rewrite Hq; ring).
  done.
Qed.

Lemma saturate_u8_id v : 0 ≤ v < 256 → saturate_u8 v = v.
Proof. unfold saturate_u8. lia. Qed.

Lemma borderInterpolate_inside p len : 0 ≤ p < len → borderInterpolate p len = p.
Proof.
  intros Hp. unfold borderInterpolate.
  destruct (Z.eqb_spec len 1); [lia|].
  rewrite Z.mod_small by lia.
  destruct (Z.ltb_spec p len); lia.
Qed.

Lemma motion_blur_one_spec b σ a f :
  heap σ !! a = Some f →
  wf_frame f → uint8_frame f →
  (1 ≤ height f)%nat → (1 ≤ width f)%nat → (1 ≤ channels f)%nat →
  mspec b (motion_blur a 1) σ (λ r σ',
    r = length (heap σ) ∧ σ' = set_heap (heap σ ++ [f]) σ).
Proof.
  intros Ha Hwf Hu Hh Hw Hc. unfold motion_blur, line_kernel. simpl.
  mstep. mstep. mstep. mstep. mstep. eapply mspec_load; [done|].
  unfold cv_filter2D, is_empty.
  destruct (Nat.eqb_spec (height f) 0); [lia|].
  destruct (Nat.eqb_spec (width f) 0); [lia|].
  destruct (Nat.eqb_spec (channels f) 0); [lia|]. simpl.
  mstep. mstep. mstep. split; [done|]. do 3 f_equal.
  rewrite <- (build_self f Hwf) at 4.
  apply build_ext. intros y x ch Hy Hx Hch.
  change (Z.of_nat 1 / 2) with 0. rewrite !Z.add_0_r, !Z.sub_0_r.
  rewrite !borderInterpolate_inside by lia.
  unfold at3. rewrite !Nat2Z.id.
  rewrite (cvRound_integer _ (nth ch (nth x (nth y (data f) []) []) 0)).
  - apply saturate_u8_id, uint8_frame_nth, Hu.
  - unfold Qsum. simpl. unfold Qeq. simpl. lia.
Qed.

(** ** Painting pixels *)

Lemma paint_height v f locs : height (paint v f locs) = height f.
Proof. revert f. induction locs as [|l locs IH]; intros f; simpl; [done|]. by rewrite IH. Qed.
Lemma paint_width v f locs : width (paint v f locs) = width f.
Proof. revert f. induction locs as [|l locs IH]; intros f; simpl; [done|]. by rewrite IH. Qed.
Lemma paint_channels v f locs : channels (paint v f locs) = channels f.
Proof. revert f. induction locs as [|l locs IH]; intros f; simpl; [done|]. by rewrite IH. Qed.

Lemma get_pixel_fill v f i j i' j' :
  get_pixel (fill_pixel v f i j) i' j' =
  if decide (i = i' ∧ j = j') then map (λ _, v) <$> get_pixel f i' j' else get_pixel f i' j'.
Proof.
  unfold get_pixel, fill_pixel. simpl.
  destruct (decide (i = i')) as [->|Hi].
  - rewrite list_lookup_alter_eq. destruct (data f !! i') as [row|]; simpl.
    + destruct (decide (j = j')) as [->|Hj].
      * rewrite list_lookup_alter_eq. by rewrite decide_True.
      * rewrite list_lookup_alter_ne by done. rewrite decide_False; [done|]. by intros [_ ?].
    + by destruct (decide _).
  - rewrite list_lookup_alter_ne by done. rewrite decide_False; [done|]. by intros [? _].
Qed.

Lemma map_const_idem {A} (v : A) (o : option (list A)) :
  map (λ _, v) <$> (map (λ _, v) <$> o) = map (λ _, v) <$> o.
Proof. destruct o as [p|]; simpl; [|done]. by rewrite map_map. Qed.

Lemma get_pixel_paint_other v f locs i j :
  (i, j) ∉ locs → get_pixel (paint v f locs) i j = get_pixel f i j.
Proof.
  revert f. induction locs as [|[i0 j0] locs IH]; intros f Hnot; simpl; [done|].
  apply not_elem_of_cons in Hnot as [Hne Hnot].
  rewrite IH by done. rewrite get_pixel_fill. simpl.
  rewrite decide_False; [done|]. intros [-> ->]. done.
Qed.

Lemma get_pixel_paint_hit v f locs i j :
  (i, j) ∈ locs → get_pixel (paint v f locs) i j = map (λ _, v) <$> get_pixel f i j.
Proof.
  revert f. induction locs as [|[i0 j0] locs IH]; intros f Hin; simpl.
  { by apply elem_of_nil in Hin. }
  destruct (decide ((i, j) ∈ locs)) as [Hin'|Hnot].
  - rewrite IH by done. rewrite get_pixel_fill. simpl.
    destruct (decide _); [|done]. apply map_const_idem.
  - apply elem_of_cons in Hin as [Heq|?]; [|done]. simplify_eq.
    rewrite get_pixel_paint_other by done. rewrite get_pixel_fill. simpl.
    by rewrite decide_True.
Qed.

(** Index arrays whose entries are inside the frame paint the listed
    pixels. *)
Lemma index_assign_paint v f rows cols :
  length rows = length cols →
  Forall (λ r, 0 ≤ r < Z.of_nat (height f)) rows →
  Forall (λ c, 0 ≤ c < Z.of_nat (width f)) cols →
  index_assign v f rows cols = Some (paint v f (zip (Z.to_nat <$> rows) (Z.to_nat <$> cols))).
Proof.
  revert f cols. induction rows as [|r rows IH]; intros f [|c cols] Hlen Hr Hc;
    simplify_eq/=; [done|].
  inversion_clear Hr. inversion_clear Hc.
  unfold norm_index.
  destruct (Z.leb_spec 0 r), (Z.ltb_spec r (Z.of_nat (height f))); try lia.
  destruct (Z.leb_spec 0 c), (Z.ltb_spec c (Z.of_nat (width f))); try lia. simpl.
  by apply IH.
Qed.

(** ** Effects on the world *)

Lemma mspec_randint b low high n σ (Q : list Z → world → Prop) :
  (b = false → 0 ≤ n ∧ (n = 0 ∨ low < high)) →
  (∀ draws σ', 0 ≤ n → length draws = Z.to_nat n →
     Forall (λ x, low ≤ x < high) draws → np_advance σ σ' →
     pos (np_random σ') = (pos (np_random σ) + length draws)%nat → Q draws σ') →
  mspec b (np_random_randint low high n) σ Q.
Proof.
  intros Hdom HQ. unfold mspec, np_random_randint.
  destruct (Z.ltb_spec n 0).
  { destruct b; [done|]. destruct Hdom; [done|lia]. }
  destruct (Z.eqb_spec n 0) as [->|].
  { apply HQ; [lia|done|done| |simpl; lia]. by repeat split. }
  destruct (Z.leb_spec high low).
  { destruct b; [done|]. destruct Hdom as [_ []]; [done|lia..]. }
  apply HQ; [lia|by rewrite length_tabulate| |by repeat split; simpl; try lia|].
  - unfold tabulate. rewrite Forall_map. apply Forall_forall. intros i _. simpl.
    pose proof (Z.mod_pos_bound (Z.of_N (tape (np_random σ) (pos (np_random σ) + i)))
                  (high - low)).
    lia.
  - simpl. by rewrite length_tabulate.
Qed.

Lemma keeps_rest_refl σ : keeps_rest σ σ.
Proof. by repeat split. Qed.

Lemma keeps_rest_trans σ1 σ2 σ3 : keeps_rest σ1 σ2 → keeps_rest σ2 σ3 → keeps_rest σ1 σ3.
Proof.
  intros (?&?&?&?&?&?&?) (?&?&?&?&?&?&?). repeat split; try congruence. lia.
Qed.

Lemma keeps_rest_set_heap σ h : keeps_rest σ (set_heap h σ).
Proof. by repeat split. Qed.

Lemma rest_effect_refl σ : rest_effect σ σ.
Proof. by repeat split. Qed.

Lemma rest_effect_trans σ1 σ2 σ3 : rest_effect σ1 σ2 → rest_effect σ2 σ3 → rest_effect σ1 σ3.
Proof.
  intros (?&?&?&?&?&?&?&?) (?&?&?&?&?&?&?&?). repeat split; try congruence; lia.
Qed.

Lemma rest_effect_set_heap σ h : rest_effect σ (set_heap h σ).
Proof. by repeat split. Qed.

Lemma keeps_rest_effect σ σ' : keeps_rest σ σ' → rest_effect σ σ'.
Proof. intros (Hcv&?&?&?&?&?&?). repeat split; try done; by rewrite Hcv. Qed.

(** ** Salt and pepper *)

Lemma length_locations rows cols :
  length rows = length cols → length (locations rows cols) = length rows.
Proof. intros H. unfold locations. rewrite length_zip, !length_fmap. lia. Qed.

Lemma locations_range (hi wi : Z) rows cols :
  Forall (λ r, 0 ≤ r < hi) rows → Forall (λ c, 0 ≤ c < wi) cols →
  Forall (λ loc, Z.of_nat loc.1 < hi ∧ Z.of_nat loc.2 < wi) (locations rows cols).
Proof.
  unfold locations. intros Hr. revert cols.
  induction Hr as [|r rows Hr _ IH]; intros cols Hc; [constructor|].
  destruct Hc as [|c cols Hc Hcs]; [constructor|]. simpl.
  constructor; [simpl; lia|by apply IH].
Qed.

(** One round of [salt_and_pepper_noise]: draw the index arrays, assign,
    go on with [k]. *)
Lemma sp_round_spec {A} b n v (num : Z) g H0 σ (k : M A) (Q : A → world → Prop) :
  heap σ = H0 ++ [g] → n = length H0 →
  (b = false → 0 ≤ num ∧
     (num = 0 ∨ (2 ≤ height g ∧ 2 ≤ width g ∧ 2 ≤ channels g)%nat)) →
  (∀ locs σ',
     0 ≤ num → length locs = Z.to_nat num →
     Forall (λ loc, Z.of_nat loc.1 < Z.of_nat (height g) - 1 ∧
                    Z.of_nat loc.2 < Z.of_nat (width g) - 1) locs →
     heap σ' = H0 ++ [paint v g locs] → keeps_rest σ σ' →
     pos (np_random σ') = (pos (np_random σ) + 3 * length locs)%nat →
     mspec b k σ' Q) →
  mspec b (coords ← mapM (λ i, np_random_randint 0 (i - 1) num) (shape g);
           rows ← lift IndexError (coords !! 0%nat);
           cols ← lift IndexError (coords !! 1%nat);
           setitem_rows_cols n rows cols v;; k) σ Q.
Proof.
  intros Hheap -> Hdom HQ. unfold shape. simpl.
  mstep. mstep. apply mspec_randint. { intros Hb. destruct (Hdom Hb) as [? [|]]; lia. }
  intros rows σ1 Hnum Hlr Hrows [Hh1 Hk1] Hp1.
  mstep. mstep. apply mspec_randint. { intros Hb. destruct (Hdom Hb) as [? [|]]; lia. }
  intros cols σ2 _ Hlc Hcols [Hh2 Hk2] Hp2.
  mstep. mstep. apply mspec_randint. { intros Hb. destruct (Hdom Hb) as [? [|]]; lia. }
  intros chans σ3 _ Hlch _ [Hh3 Hk3] Hp3.
  msteps. unfold setitem_rows_cols.
  assert (Hheap3 : heap σ3 = H0 ++ [g]) by congruence.
  mstep. eapply mspec_load. { rewrite Hheap3. apply lookup_app_length. }
  rewrite index_assign_paint; first last.
  { eapply Forall_impl; [exact Hcols|]. simpl. lia. }
  { eapply Forall_impl; [exact Hrows|]. simpl. lia. }
  { congruence. }
  msteps. apply mspec_store. { rewrite Hheap3, lookup_app_length. eauto. }
  apply (HQ (locations rows cols)); [done| | | | |].
  - rewrite length_locations; congruence.
  - by apply locations_range.
  - simpl. rewrite Hheap3. apply insert_app_length.
  - eapply keeps_rest_trans; [|apply keeps_rest_set_heap].
    eauto using keeps_rest_trans.
  - simpl. rewrite length_locations by congruence. lia.
Qed.

Lemma salt_and_pepper_noise_spec b σ a f amount :
  heap σ !! a = Some f →
  (b = false → 0 ≤ sp_count f amount ∧
     (sp_count f amount = 0 ∨ (2 ≤ height f ∧ 2 ≤ width f ∧ 2 ≤ channels f)%nat)) →
  mspec b (salt_and_pepper_noise a amount) σ (λ r σ',
    r = length (heap σ) ∧
    ∃ salt pepper,
      0 ≤ sp_count f amount ∧
      length salt = Z.to_nat (sp_count f amount) ∧
      length pepper = Z.to_nat (sp_count f amount) ∧
      Forall (λ loc, Z.of_nat loc.1 < Z.of_nat (height f) - 1 ∧
                     Z.of_nat loc.2 < Z.of_nat (width f) - 1) salt ∧
      Forall (λ loc, Z.of_nat loc.1 < Z.of_nat (height f) - 1 ∧
                     Z.of_nat loc.2 < Z.of_nat (width f) - 1) pepper ∧
      heap σ' = heap σ ++ [paint 0 (paint 255 f salt) pepper] ∧
      keeps_rest σ σ' ∧
      pos (np_random σ') = (pos (np_random σ) + 3 * length salt + 3 * length pepper)%nat).
Proof.
  intros Ha Hdom. unfold salt_and_pepper_noise.
  mstep. eapply mspec_load; [done|]. mstep. mstep. cbv beta zeta.
  fold (sp_count f amount).
  apply (sp_round_spec b _ 255 _ f (heap σ)); [done|done|done|].
  intros salt σ1 Hnum Hls Hsalt Hh1 Hk1 Hp1.
  replace (shape f) with (shape (paint 255 f salt))
    by (unfold shape; by rewrite paint_height, paint_width, paint_channels).
  apply (sp_round_spec b _ 0 _ (paint 255 f salt) (heap σ)); [done|done| |].
  { rewrite paint_height, paint_width, paint_channels. done. }
  intros pepper σ2 _ Hlp Hpepper Hh2 Hk2 Hp2.
  rewrite paint_height, paint_width in Hpepper.
  msteps. split; [done|]. exists salt, pepper.
  do 6 (split; [done|]). split.
  - eapply keeps_rest_trans; [apply keeps_rest_set_heap|].
    eauto using keeps_rest_trans.
  - rewrite Hp2, Hp1. done.
Qed.

(** ** Shapes are kept *)

Lemma Forall_tabulate {A} (P : A → Prop) n g :
  (∀ i, (i < n)%nat → P (g i)) → Forall P (tabulate n g).
Proof.
  intros H. unfold tabulate. rewrite Forall_map. apply Forall_forall.
  intros i Hi%elem_of_seq. apply H. lia.
Qed.

Lemma wf_build h w c g : wf_frame (build h w c g).
Proof.
  split; simpl; [apply length_tabulate|].
  apply Forall_tabulate. intros i _. split; [apply length_tabulate|].
  apply Forall_tabulate. intros j _. apply length_tabulate.
Qed.

Lemma has_shape_map3 h w c g d : has_shape h w c d → has_shape h w c (map3 g d).
Proof.
  intros [Hh Hd]. split; [unfold map3; by rewrite length_map|].
  unfold map3. rewrite Forall_map. eapply Forall_impl; [exact Hd|].
  intros row [Hw Hrow]. simpl. split; [by rewrite length_map|].
  rewrite Forall_map. eapply Forall_impl; [exact Hrow|].
  intros p Hp. simpl. by rewrite length_map.
Qed.

Lemma Forall_zip_with {A B C} (P : A → Prop) (Q : B → Prop) (R : C → Prop)
    (op : A → B → C) l k :
  (∀ x y, P x → Q y → R (op x y)) → Forall P l → Forall Q k → Forall R (zip_with op l k).
Proof.
  intros Hop Hl. revert k. induction Hl as [|x l Hx _ IH]; intros k Hk; [constructor|].
  destruct Hk as [|y k Hy Hk]; [constructor|]. simpl. constructor; auto.
Qed.

Lemma has_shape_zip_with h w c (op : list Z → list Z → list Z) d1 d2 :
  (∀ p q, length p = c → length q = c → length (op p q) = c) →
  has_shape h w c d1 → has_shape h w c d2 →
  has_shape h w c (zip_with (zip_with op) d1 d2).
Proof.
  intros Hop [Hh1 Hd1] [Hh2 Hd2]. split; [rewrite length_zip_with; lia|].
  eapply Forall_zip_with; [|exact Hd1|exact Hd2].
  intros r1 r2 [Hw1 Hr1] [Hw2 Hr2]. simpl. split; [rewrite length_zip_with; lia|].
  eapply Forall_zip_with; [|exact Hr1|exact Hr2]. intros p q Hp Hq. simpl in *. by apply Hop.
Qed.

Lemma Forall_alter_same {A} (P : A → Prop) g i l :
  (∀ x, P x → P (g x)) → Forall P l → Forall P (alter g i l).
Proof.
  intros Hg Hl. apply Forall_lookup. intros j y Hj.
  rewrite Forall_lookup in Hl. rewrite list_lookup_alter in Hj.
  destruct (decide (i = j)) as [->|]; [|by eapply Hl].
  destruct (l !! j) as [x|] eqn:Hx; simplify_eq/=. eapply Hg, Hl, Hx.
Qed.

Lemma wf_fill_pixel v f i j : wf_frame f → wf_frame (fill_pixel v f i j).
Proof.
  intros [Hh Hd]. split; simpl; [by rewrite length_alter|].
  apply Forall_alter_same; [|done].
  intros row [Hw Hrow]. split; [by rewrite length_alter|].
  apply Forall_alter_same; [|done]. intros p Hp. by rewrite length_map.
Qed.

Lemma wf_paint v f locs : wf_frame f → wf_frame (paint v f locs).
Proof.
  revert f. induction locs as [|l locs IH]; intros f Hf; [done|].
  simpl. by apply IH, wf_fill_pixel.
Qed.

Lemma Forall_imap {A B} (P : A → Prop) (Q : B → Prop) (g : nat → A → B) l :
  (∀ i x, P x → Q (g i x)) → Forall P l → Forall Q (imap g l).
Proof.
  intros Hg Hl. apply Forall_lookup. intros i y Hy.
  rewrite list_lookup_imap in Hy. rewrite Forall_lookup in Hl.
  destruct (l !! i) as [x|] eqn:Hx; simplify_eq/=. eapply Hg, Hl, Hx.
Qed.

Lemma has_shape_imap h w c (g : nat → nat → list Z → list Z) d :
  (∀ i j p, length (g i j p) = length p) →
  has_shape h w c d → has_shape h w c (imap (λ i, imap (g i)) d).
Proof.
  intros Hg [Hh Hd]. split; [by rewrite length_imap|].
  eapply Forall_imap; [|exact Hd]. intros i row [Hw Hrow]. simpl.
  split; [by rewrite length_imap|].
  eapply Forall_imap; [|exact Hrow]. intros j p Hp. simpl in *. by rewrite Hg.
Qed.

Lemma wf_aberrate h w d s :
  has_shape h w 3 d → has_shape h w 3 (map (aberrate_row s) d).
Proof.
  intros [Hh Hd]. split; [by rewrite length_map|].
  rewrite Forall_map. eapply Forall_impl; [exact Hd|]. intros row [Hw _]. simpl.
  split; [by rewrite length_aberrate_row|apply aberrate_row_pixels].
Qed.

(** ** Every transform returns a new frame of the same shape *)

Lemma rest_effect_explicit σ σ' :
  stdout σ' = stdout σ → videos σ' = videos σ → images σ' = images σ →
  captures σ' = captures σ →
  tape (np_random σ') = tape (np_random σ) → (pos (np_random σ) ≤ pos (np_random σ'))%nat →
  tape (cv_theRNG σ') = tape (cv_theRNG σ) → (pos (cv_theRNG σ) ≤ pos (cv_theRNG σ'))%nat →
  rest_effect σ σ'.
Proof. by repeat split. Qed.

(** A result allocated last, after some temporaries. *)
Lemma fresh_frame_like_intro f σ σ' temps g :
  heap σ' = heap σ ++ temps ++ [g] → rest_effect σ σ' →
  same_shape f g → wf_frame g →
  fresh_frame_like f σ (length (heap σ) + length temps)%nat σ'.
Proof.
  intros Hh Hr Hs Hg. exists (temps ++ [g]), g.
  split; [by split|]. split; [lia|]. split; [|by split].
  rewrite Hh, app_assoc, <- length_app. apply lookup_app_length.
Qed.

Lemma color_banding_fresh b lib σ a f L :
  heap σ !! a = Some f → wf_frame f → uint8_frame f →
  (b = false → L ≠ 0 ∧ (promotion_rule lib = ValueBased ∨ 0 ≤ 256 / L ≤ 255)) →
  mspec b (color_banding lib a L) σ (fresh_frame_like f σ).
Proof.
  intros Ha Hwf Hu Hdom.
  eapply mspec_mono; [by apply color_banding_spec|].
  intros r σ' [-> ->]. simpl.
  rewrite <- (Nat.add_0_r (length (heap σ))).
  eapply (fresh_frame_like_intro f σ _ []); simpl; [done|apply rest_effect_set_heap|done|].
  by apply has_shape_map3.
Qed.

Lemma chromatic_aberration_fresh b σ a f s :
  heap σ !! a = Some f → wf_frame f →
  channels f = 3%nat → (1 ≤ height f)%nat → (1 ≤ width f)%nat →
  mspec b (chromatic_aberration a s) σ (fresh_frame_like f σ).
Proof.
  intros Ha Hwf Hc Hh Hw.
  eapply mspec_mono; [by apply chromatic_aberration_spec|].
  intros r σ' [-> ->]. simpl.
  rewrite <- (Nat.add_0_r (length (heap σ))).
  eapply (fresh_frame_like_intro f σ _ []); simpl; [done|apply rest_effect_set_heap|done|].
  apply wf_aberrate. unfold wf_frame in Hwf. by rewrite Hc in Hwf.
Qed.

Lemma salt_and_pepper_noise_fresh b σ a f amount :
  heap σ !! a = Some f → wf_frame f →
  (b = false → 0 ≤ sp_count f amount ∧
     (sp_count f amount = 0 ∨ (2 ≤ height f ∧ 2 ≤ width f ∧ 2 ≤ channels f)%nat)) →
  mspec b (salt_and_pepper_noise a amount) σ (fresh_frame_like f σ).
Proof.
  intros Ha Hwf Hdom.
  eapply mspec_mono; [by apply salt_and_pepper_noise_spec|].
  intros r σ' (-> & salt & pepper & _ & _ & _ & _ & _ & Hh & Hk & _). simpl.
  rewrite <- (Nat.add_0_r (length (heap σ))).
  eapply (fresh_frame_like_intro f σ _ []); simpl; [done|by apply keeps_rest_effect| |].
  - unfold same_shape. by rewrite !paint_height, !paint_width, !paint_channels.
  - by do 2 apply wf_paint.
Qed.

Lemma mspec_cv_rng_fill b lib h w c mean stddev σ (Q : frame → world → Prop) :
  (∀ g σ', height g = h → width g = w → channels g = c → wf_frame g →
     heap σ' = heap σ → rest_effect σ σ' → Q g σ') →
  mspec b (cv_rng_fill lib h w c mean stddev) σ Q.
Proof.
  intros HQ. unfold mspec, cv_rng_fill. apply HQ; try done; [apply wf_build|].
  apply rest_effect_explicit; simpl; try done. lia.
Qed.

Lemma gaussian_noise_fresh b lib σ a f noise_level :
  heap σ !! a = Some f → wf_frame f →
  mspec b (gaussian_noise lib a noise_level) σ (fresh_frame_like f σ).
Proof.
  intros Ha Hwf. unfold gaussian_noise.
  mstep. eapply mspec_load; [done|]. msteps. unfold cv_randn.
  mstep. eapply mspec_load. { simpl. apply lookup_app_length. }
  mstep. apply mspec_cv_rng_fill. simpl.
  intros n σ1 Hnh Hnw Hnc Hn Hh1 Hr1. simpl in Hh1.
  apply mspec_store. { rewrite Hh1, lookup_app_length. eauto. }
  mstep. eapply mspec_load. { simpl. rewrite Hh1, insert_app_length. apply lookup_app_length. }
  unfold cv_add. rewrite Hnh, Hnw, Hnc, !Nat.eqb_refl. simpl.
  msteps. simpl. rewrite Hh1, insert_app_length, length_app. simpl.
  eapply (fresh_frame_like_intro f σ _ [n]); simpl.
  - by rewrite <- app_assoc.
  - eapply rest_effect_trans; [apply rest_effect_set_heap|].
    eapply rest_effect_trans; [exact Hr1|].
    eapply rest_effect_trans; apply rest_effect_set_heap.
  - done.
  - destruct Hwf as [Hh Hd], Hn as [Hh' Hd']. rewrite Hnh, Hnw, Hnc in *.
    apply has_shape_zip_with; [|done|done].
    intros p q Hp Hq. rewrite length_zip_with. lia.
Qed.

Lemma compression_artifacts_fresh b lib σ a f quality :
  heap σ !! a = Some f → channels f = 3%nat →
  (b = false → (1 ≤ height f)%nat ∧ (1 ≤ width f)%nat) →
  mspec b (compression_artifacts lib a quality) σ (fresh_frame_like f σ).
Proof.
  intros Ha Hc Hdom. unfold compression_artifacts.
  mstep. eapply mspec_load; [done|].
  mstep. apply mspec_lift.
  - intros e He. unfold cv_imencode_jpg in He. destruct (_ || _); [done|]. simplify_eq.
    msteps. rewrite <- (Nat.add_0_r (length (heap σ))).
    eapply (fresh_frame_like_intro f σ _ []); simpl;
      [done|apply rest_effect_set_heap|done|apply wf_build].
  - intros He. destruct b; [done|]. exfalso. destruct Hdom as [Hh Hw]; [done|].
    unfold cv_imencode_jpg, is_empty in He. rewrite Hc in He.
    destruct (Nat.eqb_spec (height f) 0); [lia|].
    destruct (Nat.eqb_spec (width f) 0); [lia|]. done.
Qed.

Lemma lens_distortion_fresh b lib σ a f k1 k2 :
  heap σ !! a = Some f →
  (b = false → (1 ≤ height f)%nat ∧ (1 ≤ width f)%nat ∧ (1 ≤ channels f)%nat) →
  mspec b (lens_distortion lib a k1 k2) σ (fresh_frame_like f σ).
Proof.
  intros Ha Hdom. unfold lens_distortion.
  mstep. eapply mspec_load; [done|]. cbv zeta.
  mstep. apply mspec_lift.
  - intros e He. unfold cv_undistort in He. destruct (is_empty f); [done|]. simplify_eq.
    msteps. rewrite <- (Nat.add_0_r (length (heap σ))).
    eapply (fresh_frame_like_intro f σ _ []); simpl;
      [done|apply rest_effect_set_heap|done|apply wf_build].
  - intros He. destruct b; [done|]. exfalso. destruct Hdom as (Hh & Hw & Hc); [done|].
    unfold cv_undistort, is_empty in He.
    destruct (Nat.eqb_spec (height f) 0); [lia|].
    destruct (Nat.eqb_spec (width f) 0); [lia|].
    destruct (Nat.eqb_spec (channels f) 0); [lia|]. done.
Qed.

Lemma motion_blur_fresh b σ a f kernel_size :
  heap σ !! a = Some f →
  (b = false → 1 ≤ kernel_size ∧
     (1 ≤ height f)%nat ∧ (1 ≤ width f)%nat ∧ (1 ≤ channels f)%nat) →
  mspec b (motion_blur a kernel_size) σ (fresh_frame_like f σ).
Proof.
  intros Ha Hdom. unfold motion_blur, line_kernel.
  mstep. destruct (Z.ltb_spec kernel_size 0).
  { apply mspec_raise. destruct b; [done|]. destruct Hdom; [done|lia]. }
  mstep. apply mspec_lift; first last.
  { intros Hn. destruct b; [done|]. exfalso. destruct Hdom as [Hk _]; [done|].
    unfold norm_index in Hn.
    assert (0 ≤ (kernel_size - 1) ÷ 2) by (apply Z.quot_pos; lia).
    assert ((kernel_size - 1) ÷ 2 < kernel_size).
    { apply Z.quot_lt_upper_bound; lia. }
    destruct (Z.leb_spec 0 ((kernel_size - 1) ÷ 2)); [|lia].
    destruct (Z.ltb_spec ((kernel_size - 1) ÷ 2) (Z.of_nat (Z.to_nat kernel_size))); [|lia].
    done. }
  intros r _. msteps. eapply mspec_load; [done|].
  mstep. apply mspec_lift.
  - intros g Hg. unfold cv_filter2D in Hg. destruct (is_empty f); [done|]. simplify_eq.
    msteps. rewrite <- (Nat.add_0_r (length (heap σ))).
    eapply (fresh_frame_like_intro f σ _ []); simpl;
      [done|apply rest_effect_set_heap|done|apply wf_build].
  - intros He. destruct b; [done|]. exfalso. destruct Hdom as (_ & Hh & Hw & Hc); [done|].
    unfold cv_filter2D, is_empty in He.
    destruct (Nat.eqb_spec (height f) 0); [lia|].
    destruct (Nat.eqb_spec (width f) 0); [lia|].
    destruct (Nat.eqb_spec (channels f) 0); [lia|]. done.
Qed.

Lemma has_shape_setitem h w c k (g : Q → Z) (d : list (list (list Z))) (vals : list (list Q)) :
  has_shape h w c d → length vals = h → Forall (λ r, length r = w) vals →
  has_shape h w c (zip_with (zip_with (λ p q, <[k := g q]> p)) d vals).
Proof.
  intros [Hh Hd] Hvh Hvw. split; [rewrite length_zip_with; lia|].
  eapply Forall_zip_with; [|exact Hd|exact Hvw].
  intros row r [Hw Hrow] Hr. simpl in *. split; [rewrite length_zip_with; lia|].
  eapply (Forall_zip_with _ (λ _, True)); [|exact Hrow|by apply Forall_true].
  intros p q Hp _. simpl in *. by rewrite length_insert.
Qed.

(** One pass of the channel loop of [vignetting]. *)
Lemma vignetting_step {A} b a i f V H0 (mask : list (list Q)) σ (k : M A) (Q : A → world → Prop) :
  heap σ = H0 ++ [V] → H0 !! a = Some f → wf_frame f → wf_frame V → same_shape f V →
  length mask = height f → Forall (λ r, length r = width f) mask →
  (b = false → (i < channels f)%nat) →
  (∀ V' σ', heap σ' = H0 ++ [V'] → wf_frame V' → same_shape f V' → rest_effect σ σ' →
     mspec b k σ' Q) →
  mspec b ((f ← load a;
            plane ← lift IndexError (get_channel f i);
            setitem_channel (length H0) i
              (zip_with (zip_with (λ v m, (inject_Z v * m)%Q)) plane mask));; k) σ Q.
Proof.
  intros Hheap Ha Hwf HV (HVh & HVw & HVc) Hmh Hmw Hdom HQ.
  mstep. mstep. eapply mspec_load. { rewrite Hheap. by apply lookup_app_l_Some. }
  unfold get_channel. destruct (Nat.ltb_spec i (channels f)); first last.
  { mstep. apply mspec_raise. destruct b; [done|]. specialize (Hdom eq_refl). lia. }
  msteps. unfold setitem_channel.
  mstep. eapply mspec_load. { rewrite Hheap. apply lookup_app_length. }
  destruct (Nat.ltb_spec i (channels V)); [|lia].
  apply mspec_store. { rewrite Hheap, lookup_app_length. eauto. }
  eapply HQ; simpl.
  - rewrite Hheap. apply insert_app_length.
  - unfold wf_frame in *. simpl. rewrite HVh, HVw, HVc in *.
    apply has_shape_setitem; [done| |].
    + rewrite length_zip_with, length_map. destruct Hwf as [-> _]. lia.
    + eapply (Forall_zip_with (λ r, length r = width f)); [| |exact Hmw].
      * intros r m Hr Hm. simpl in *. rewrite length_zip_with. lia.
      * rewrite Forall_map. eapply Forall_impl; [apply (wf_rows f Hwf)|].
        intros row Hrow. simpl. by rewrite length_map.
  - done.
  - apply rest_effect_set_heap.
Qed.

Lemma vignetting_fresh b lib σ a f :
  heap σ !! a = Some f → wf_frame f →
  (b = false → (1 ≤ height f)%nat ∧ (1 ≤ width f)%nat ∧ (3 ≤ channels f)%nat) →
  mspec b (vignetting lib a) σ (fresh_frame_like f σ).
Proof.
  intros Ha Hwf Hdom. unfold vignetting.
  mstep. eapply mspec_load; [done|].
  mstep. apply mspec_lift; first last.
  { unfold cv_getGaussianKernel. destruct (Z.leb_spec (Z.of_nat (width f)) 0); [|done].
    intros _. destruct b; [done|]. destruct Hdom as (?&?&?); [done|lia]. }
  intros X HX. mstep. apply mspec_lift; first last.
  { unfold cv_getGaussianKernel. destruct (Z.leb_spec (Z.of_nat (height f)) 0); [|done].
    intros _. destruct b; [done|]. destruct Hdom as (?&?&?); [done|lia]. }
  intros Y HY. cbv zeta.
  assert (HXl : length X = width f).
  { unfold cv_getGaussianKernel in HX. destruct (_ <=? _); simplify_eq.
    by rewrite length_tabulate, Nat2Z.id. }
  assert (HYl : length Y = height f).
  { unfold cv_getGaussianKernel in HY. destruct (_ <=? _); simplify_eq.
    by rewrite length_tabulate, Nat2Z.id. }
  set (kernel := map (λ y, map (λ x, (y * x)%Q) X) Y).
  set (mask := map (map (λ v, (v / Qmax_list (concat kernel))%Q)) kernel).
  assert (Hmh : length mask = height f).
  { unfold mask, kernel. by rewrite !length_map. }
  assert (Hmw : Forall (λ r, length r = width f) mask).
  { unfold mask, kernel. rewrite !Forall_map. apply Forall_true. intros y. simpl.
    by rewrite !length_map. }
  mstep. mstep. cbv beta. simpl for_each.
  assert (Hi : ∀ i, (i < 3)%nat → b = false → (i < channels f)%nat).
  { intros i Hi Hb. destruct (Hdom Hb) as (_&_&?). lia. }
  assert (Hheap : heap (set_heap (heap σ ++ [build (height f) (width f) (channels f)
                          (uninitialised lib)]) σ) = heap σ ++
                          [build (height f) (width f) (channels f) (uninitialised lib)]) by done.
  mstep.
  eapply (vignetting_step b a 0); [exact Hheap|done|done|apply wf_build|done|done|done|auto|].
  intros V1 σ1 Hh1 HV1 Hs1 Hr1.
  eapply (vignetting_step b a 1); [exact Hh1|done|done|done|done|done|done|auto|].
  intros V2 σ2 Hh2 HV2 Hs2 Hr2.
  eapply (vignetting_step b a 2); [exact Hh2|done|done|done|done|done|done|auto|].
  intros V3 σ3 Hh3 HV3 Hs3 Hr3.
  msteps. rewrite <- (Nat.add_0_r (length (heap σ))).
  eapply (fresh_frame_like_intro f σ _ []); simpl; [exact Hh3| |done|done].
  eapply rest_effect_trans; [apply rest_effect_set_heap|].
  eauto using rest_effect_trans.
Qed.

Lemma mspec_randint1 b low high σ (Q : Z → world → Prop) :
  (b = false → low < high) →
  (∀ x σ', low ≤ x < high → np_advance σ σ' → Q x σ') →
  mspec b (np_random_randint1 low high) σ Q.
Proof.
  intros Hdom HQ. unfold mspec, np_random_randint1.
  destruct (Z.leb_spec high low).
  { destruct b; [done|]. specialize (Hdom eq_refl). lia. }
  apply HQ.
  - pose proof (Z.mod_pos_bound (Z.of_N (tape (np_random σ) (pos (np_random σ)))) (high - low)).
    lia.
  - split; [done|]. repeat split; simpl; try done. lia.
Qed.

(** The particle loop of [dust_dirt_particles]. *)
Lemma dust_loop_spec b lib f D H0 (m : nat) σ (Q : unit → world → Prop) :
  heap σ = H0 ++ [D] → wf_frame D → same_shape f D →
  (b = false → (1 ≤ height f)%nat ∧ (1 ≤ width f)%nat) →
  (∀ D' σ', heap σ' = H0 ++ [D'] → wf_frame D' → same_shape f D' → rest_effect σ σ' →
     Q () σ') →
  mspec b (for_each (replicate m ()) (λ _,
             x ← np_random_randint1 0 (Z.of_nat (width f));
             y ← np_random_randint1 0 (Z.of_nat (height f));
             radius ← np_random_randint1 5 15;
             color ← np_random_randint1 50 100;
             cv_circle lib (length H0) x y radius color)) σ Q.
Proof.
  revert D σ. induction m as [|m IH]; intros D σ Hheap HD Hs Hdom HQ; simpl.
  { msteps. eapply HQ; eauto using rest_effect_refl. }
  mstep. mstep.
  apply mspec_randint1. { intros Hb. destruct (Hdom Hb). lia. }
  intros x σ1 _ [Hh1 Hk1%keeps_rest_effect].
  mstep. apply mspec_randint1. { intros Hb. destruct (Hdom Hb). lia. }
  intros y σ2 _ [Hh2 Hk2%keeps_rest_effect].
  mstep. apply mspec_randint1. { lia. }
  intros radius σ3 _ [Hh3 Hk3%keeps_rest_effect].
  mstep. apply mspec_randint1. { lia. }
  intros color σ4 _ [Hh4 Hk4%keeps_rest_effect].
  assert (Hheap4 : heap σ4 = H0 ++ [D]) by congruence.
  unfold cv_circle. mstep. eapply mspec_load. { rewrite Hheap4. apply lookup_app_length. }
  apply mspec_store. { rewrite Hheap4, lookup_app_length. eauto. }
  cbv beta.
  eapply IH; simpl.
  - rewrite Hheap4. apply insert_app_length.
  - unfold wf_frame. simpl.
    apply (has_shape_imap _ _ _ (λ i j p, if circle_covers lib x y radius i j
             then imap (λ k _, if (k <? 3)%nat then color else 0) p else p)); [|done].
    intros i j p. destruct (circle_covers _ _ _ _ _ _); [by rewrite length_imap|done].
  - done.
  - done.
  - intros D' σ' Hh' HD' Hs' Hr'. eapply HQ; [done..|].
    eapply rest_effect_trans; [|exact Hr'].
    eapply rest_effect_trans; [|apply rest_effect_set_heap].
    eauto using rest_effect_trans.
Qed.

Lemma dust_dirt_particles_fresh b lib σ a f num_particles :
  heap σ !! a = Some f → wf_frame f →
  (b = false → (1 ≤ height f)%nat ∧ (1 ≤ width f)%nat) →
  mspec b (dust_dirt_particles lib a num_particles) σ (fresh_frame_like f σ).
Proof.
  intros Ha Hwf Hdom. unfold dust_dirt_particles.
  mstep. eapply mspec_load; [done|]. mstep. mstep. cbv beta zeta. mstep.
  eapply (dust_loop_spec b lib f f (heap σ)); [done|done|done|done|].
  intros D σ1 Hh1 HD Hs Hr. msteps.
  rewrite <- (Nat.add_0_r (length (heap σ))).
  eapply (fresh_frame_like_intro f σ _ []); simpl; [exact Hh1| |done|done].
  eapply rest_effect_trans; [apply rest_effect_set_heap|done].
Qed.

(** ** The locations salt and pepper are painted at *)

Lemma randint_values_range t p low high n :
  low < high → Forall (λ x, low ≤ x < high) (randint_values t p low high n).
Proof.
  intros H. apply Forall_tabulate. intros i _.
  pose proof (Z.mod_pos_bound (Z.of_N (t (p + i)%nat)) (high - low)). lia.
Qed.

Lemma length_randint_values t p low high n : length (randint_values t p low high n) = n.
Proof. apply length_tabulate. Qed.

(** [np.random.randint(low, high, n)] returns the values of the next [n]
    cells and moves the head past them. *)
Lemma mspec_randint_exact b low high n σ (Q : list Z → world → Prop) :
  (b = false → 0 ≤ n ∧ (n = 0 ∨ low < high)) →
  (∀ σ', 0 ≤ n → (n = 0 ∨ low < high) → heap σ' = heap σ → keeps_rest σ σ' →
     np_random σ' = Rng (tape (np_random σ)) (pos (np_random σ) + Z.to_nat n) →
     Q (randint_values (tape (np_random σ)) (pos (np_random σ)) low high (Z.to_nat n)) σ') →
  mspec b (np_random_randint low high n) σ Q.
Proof.
  intros Hdom HQ. unfold mspec, np_random_randint.
  destruct (Z.ltb_spec n 0).
  { destruct b; [done|]. destruct Hdom; [done|lia]. }
  destruct (Z.eqb_spec n 0) as [->|].
  { apply (HQ σ); [lia|by left|done|by repeat split|].
    destruct (np_random σ) as [t p]. simpl. by rewrite Nat.add_0_r. }
  destruct (Z.leb_spec high low).
  { destruct b; [done|]. destruct Hdom as [_ []]; [done|lia..]. }
  apply HQ; [lia|right; lia|done| |done].
  repeat split; simpl; try done. lia.
Qed.

Lemma drawn_locations_range t p f n :
  (n = 0%nat ∨ (2 ≤ height f ∧ 2 ≤ width f)%nat) →
  Forall (λ loc, Z.of_nat loc.1 < Z.of_nat (height f) - 1 ∧
                 Z.of_nat loc.2 < Z.of_nat (width f) - 1) (drawn_locations t p f n).
Proof.
  intros [->|[Hh Hw]]; [constructor|].
  unfold drawn_locations. apply locations_range; apply randint_values_range; lia.
Qed.

Lemma length_drawn_locations t p f n : length (drawn_locations t p f n) = n.
Proof.
  unfold drawn_locations.
  rewrite length_locations; by rewrite !length_randint_values.
Qed.

(** One round of [salt_and_pepper_noise], with the locations it reads. *)
Lemma sp_round_exact {A} b n v (num : Z) g H0 σ (k : M A) (Q : A → world → Prop) :
  heap σ = H0 ++ [g] → n = length H0 →
  (b = false → 0 ≤ num ∧
     (num = 0 ∨ (2 ≤ height g ∧ 2 ≤ width g ∧ 2 ≤ channels g)%nat)) →
  (∀ σ',
     0 ≤ num →
     heap σ' = H0 ++ [paint v g (drawn_locations (tape (np_random σ)) (pos (np_random σ))
                                                 g (Z.to_nat num))] →
     keeps_rest σ σ' →
     np_random σ' = Rng (tape (np_random σ)) (pos (np_random σ) + 3 * Z.to_nat num) →
     mspec b k σ' Q) →
  mspec b (coords ← mapM (λ i, np_random_randint 0 (i - 1) num) (shape g);
           rows ← lift IndexError (coords !! 0%nat);
           cols ← lift IndexError (coords !! 1%nat);
           setitem_rows_cols n rows cols v;; k) σ Q.
Proof.
  intros Hheap -> Hdom HQ. unfold shape. simpl.
  mstep. mstep. apply mspec_randint_exact.
  { intros Hb. destruct (Hdom Hb) as [? [|]]; lia. }
  intros σ1 Hnum Hr1 Hh1 Hk1 Hp1.
  mstep. mstep. apply mspec_randint_exact.
  { intros Hb. destruct (Hdom Hb) as [? [|]]; lia. }
  intros σ2 _ Hr2 Hh2 Hk2 Hp2.
  mstep. mstep. apply mspec_randint_exact.
  { intros Hb. destruct (Hdom Hb) as [? [|]]; lia. }
  intros σ3 _ _ Hh3 Hk3 Hp3.
  rewrite Hp1 in Hp2. simpl in Hp2. rewrite Hp2 in Hp3. simpl in Hp3.
  rewrite Hp1. simpl. rewrite Hp2. simpl.
  msteps. unfold setitem_rows_cols.
  assert (Hheap3 : heap σ3 = H0 ++ [g]) by congruence.
  mstep. eapply mspec_load. { rewrite Hheap3. apply lookup_app_length. }
  rewrite index_assign_paint; first last.
  { destruct Hr2 as [->|Hr2]; [constructor|].
    eapply Forall_impl; [by apply randint_values_range|]. simpl. lia. }
  { destruct Hr1 as [->|Hr1]; [constructor|].
    eapply Forall_impl; [by apply randint_values_range|]. simpl. lia. }
  { by rewrite !length_randint_values. }
  msteps. apply mspec_store. { rewrite Hheap3, lookup_app_length. eauto. }
  apply HQ; [done| | |].
  - simpl. rewrite Hheap3. apply insert_app_length.
  - eapply keeps_rest_trans; [|apply keeps_rest_set_heap].
    eauto using keeps_rest_trans.
  - simpl. rewrite Hp3. f_equal. lia.
Qed.

Lemma drawn_locations_shape t p f g n :
  height g = height f → width g = width f →
  drawn_locations t p g n = drawn_locations t p f n.
Proof. intros Hh Hw. unfold drawn_locations. by rewrite Hh, Hw. Qed.

(** [salt_and_pepper_noise], with the locations it reads from the
    generator: the salt from the next [3 n] cells, the pepper from the
    [3 n] cells after them. *)
Lemma salt_and_pepper_noise_exact b σ a f amount :
  heap σ !! a = Some f →
  (b = false → 0 ≤ sp_count f amount ∧
     (sp_count f amount = 0 ∨ (2 ≤ height f ∧ 2 ≤ width f ∧ 2 ≤ channels f)%nat)) →
  mspec b (salt_and_pepper_noise a amount) σ (λ r σ',
    r = length (heap σ) ∧ 0 ≤ sp_count f amount ∧
    heap σ' = heap σ ++ [paint 0 (paint 255 f (salt_locations σ f amount))
                                 (pepper_locations σ f amount)] ∧
    keeps_rest σ σ' ∧
    np_random σ' = Rng (tape (np_random σ))
                       (pos (np_random σ) + 6 * Z.to_nat (sp_count f amount))).
Proof.
  intros Ha Hdom. unfold salt_and_pepper_noise.
  mstep. eapply mspec_load; [done|]. mstep. mstep. cbv beta zeta.
  fold (sp_count f amount).
  apply (sp_round_exact b _ 255 _ f (heap σ)); [done|done|done|].
  intros σ1 Hnum Hh1 Hk1 Hp1. simpl tape in *. simpl pos in *.
  replace (shape f) with (shape (paint 255 f (salt_locations σ f amount)))
    by (unfold shape; by rewrite paint_height, paint_width, paint_channels).
  apply (sp_round_exact b _ 0 _ (paint 255 f (salt_locations σ f amount)) (heap σ));
    [done|done| |].
  { rewrite paint_height, paint_width, paint_channels. done. }
  intros σ2 _ Hh2 Hk2 Hp2.
  msteps. split; [done|]. split; [done|]. split; [|split].
  - rewrite Hh2, Hp1. simpl. unfold pepper_locations.
    by rewrite (drawn_locations_shape _ _ f) by (by rewrite ?paint_height, ?paint_width).
  - eapply keeps_rest_trans; [apply keeps_rest_set_heap|].
    eauto using keeps_rest_trans.
  - rewrite Hp2, Hp1. simpl. f_equal. lia.
Qed.

(** * The claims *)

(** Discharge a decidable fact about concrete data by evaluation. *)
Ltac by_compute := apply (bool_decide_unpack _); vm_compute; exact I.

(** * Colour banding *)

(** C3.  For an 8-bit frame and a level count [L] that divides 256, every
    element of [color_banding(F, L)] is a multiple of [256 / L], is at most
    the element of [F] at the same place, and is the largest such multiple
    (the next one is already above).  The call returns under either typing
    rule when [L ≥ 2]; for [L = 1] it returns under the value-based rule. *)
Theorem color_banding_quantises lib σ a f L :
  heap σ !! a = Some f → uint8_frame f → 0 < L → (L | 256) →
  (promotion_rule lib = ValueBased ∨ 2 ≤ L → ∃ r σ', color_banding lib a L σ = Ok r σ') ∧
  ∀ r σ', color_banding lib a L σ = Ok r σ' →
    ∃ g, heap σ' !! r = Some g ∧ same_shape f g ∧
      ∀ i j k v, get f i j k = Some v →
        ∃ v', get g i j k = Some v' ∧ (256 / L | v') ∧ v' ≤ v ∧ v < v' + 256 / L.
Proof.
  intros Ha Hu HL Hdiv.
  assert (Hq : 1 ≤ 256 / L ∧ (2 ≤ L → 256 / L ≤ 255)).
  { destruct Hdiv as [m Hm]. assert (0 < m) by nia.
    rewrite Hm, Z.div_mul by lia. split; nia. }
  split.
  - intros Hdom.
    destruct (mspec_total_inv (color_banding lib a L) σ _
                (color_banding_spec false lib σ a f L Ha Hu
                   ltac:(intros _; split; [lia|destruct Hdom; [by left|right; lia]])))
      as (r & σ' & Hrun & _).
    eauto.
  - intros r σ' Hrun.
    pose proof (mspec_partial_inv _ _ _ _ _
                  (color_banding_spec true lib σ a f L Ha Hu ltac:(done)) Hrun) as [-> ->].
    eexists. split; [simpl; apply lookup_app_length|]. split; [done|].
    intros i j k v Hv. exists (v / (256 / L) * (256 / L)).
    split; [|split; [|split]].
    + rewrite get_map3.
      change (get (Frame (height f) (width f) (channels f) (data f)) i j k) with (get f i j k).
      by rewrite Hv.
    + apply Z.divide_factor_r.
    + rewrite Z.mul_comm. apply Z.mul_div_le. lia.
    + pose proof (Z.mul_succ_div_gt v (256 / L)). lia.
Qed.

Lemma color_banding_quantises_witness :
  (promotion_rule sample_library = ValueBased ∨ 2 ≤ 8 →
     ∃ r σ', color_banding sample_library 0%nat 8 (sample_world sample_frame (λ _, 0%N))
             = Ok r σ') ∧
  ∀ r σ', color_banding sample_library 0%nat 8 (sample_world sample_frame (λ _, 0%N))
          = Ok r σ' →
    ∃ g, heap σ' !! r = Some g ∧ same_shape sample_frame g ∧
      ∀ i j k v, get sample_frame i j k = Some v →
        ∃ v', get g i j k = Some v' ∧ (256 / 8 | v') ∧ v' ≤ v ∧ v < v' + 256 / 8.
Proof.
  apply (color_banding_quantises sample_library
           (sample_world sample_frame (λ _, 0%N)) 0%nat sample_frame 8).
  - reflexivity.
  - by_compute.
  - lia.
  - exists 32. reflexivity.
Defined.

(** * Chromatic aberration *)

Lemma lookup_map {A B} (g : A → B) l i : map g l !! i = g <$> l !! i.
Proof. exact (list_lookup_fmap g l i). Qed.

Lemma get_aberrated f s i j :
  wf_frame f → channels f = 3%nat → (i < height f)%nat → (j < width f)%nat →
  let G := Frame (height f) (width f) 3 (map (aberrate_row s) (data f)) in
  get G i j 0 = get f i (source_column (width f) j s) 0 ∧
  get G i j 1 = get f i j 1 ∧
  get G i j 2 = get f i (source_column (width f) j (- s)) 2.
Proof.
  intros Hwf Hc Hi Hj G.
  destruct (lookup_lt_is_Some_2 (data f) i) as [row Hrow]; [destruct Hwf; lia|].
  pose proof (wf_row_length _ _ _ Hwf Hrow) as Hw.
  destruct (lookup_lt_is_Some_2 (aberrate_row s row) j) as [p Hp].
  { rewrite length_aberrate_row. lia. }
  destruct (lookup_aberrate_row _ _ _ _ Hp) as (pb & pg & pr & Hpb & Hpg & Hpr & ->).
  rewrite Hw in Hpb, Hpr.
  assert (Hlen : ∀ x q, row !! x = Some q → length q = 3%nat).
  { intros x q Hq. rewrite <- Hc. eapply wf_pixel_length; eauto. }
  unfold G, get. simpl. rewrite lookup_map, Hrow. simpl. rewrite Hp, Hpb, Hpg, Hpr. simpl.
  pose proof (Hlen _ _ Hpb). pose proof (Hlen _ _ Hpg). pose proof (Hlen _ _ Hpr).
  destruct pb as [|? [|? [|? [|]]]], pg as [|? [|? [|? [|]]]], pr as [|? [|? [|? [|]]]];
    simplify_eq/=. done.
Qed.

(** C5.  On a frame with three channels, [chromatic_aberration] returns a
    new frame of the same shape in which, at every pixel of column [j], the
    first channel holds the input's first channel from column [j - shift],
    the third channel holds the input's third channel from column
    [j + shift] (columns counted modulo the width), and the middle channel
    is the input's at the same place. *)
Theorem chromatic_aberration_shifts σ a f shift :
  heap σ !! a = Some f → wf_frame f →
  channels f = 3%nat → (1 ≤ height f)%nat → (1 ≤ width f)%nat →
  ∃ r σ' g,
    chromatic_aberration a shift σ = Ok r σ' ∧ heap σ' !! r = Some g ∧
    same_shape f g ∧ wf_frame g ∧
    ∀ i j, (i < height f)%nat → (j < width f)%nat →
      get g i j 0 = get f i (source_column (width f) j shift) 0 ∧
      get g i j 1 = get f i j 1 ∧
      get g i j 2 = get f i (source_column (width f) j (- shift)) 2.
Proof.
  intros Ha Hwf Hc Hh Hw.
  destruct (mspec_total_inv _ _ _ (chromatic_aberration_spec false σ a f shift Ha Hwf Hc Hh Hw))
    as (r & σ' & Hrun & -> & ->).
  eexists _, _, _. split; [exact Hrun|]. split; [simpl; apply lookup_app_length|].
  split; [done|]. split.
  - apply wf_aberrate. unfold wf_frame in Hwf. by rewrite Hc in Hwf.
  - intros i j Hi Hj. by apply get_aberrated.
Qed.

Lemma chromatic_aberration_shifts_witness :
  ∃ r σ' g,
    chromatic_aberration 0%nat 1 (sample_world sample_frame (λ _, 0%N)) = Ok r σ' ∧
    heap σ' !! r = Some g ∧ same_shape sample_frame g ∧ wf_frame g ∧
    ∀ i j, (i < height sample_frame)%nat → (j < width sample_frame)%nat →
      get g i j 0 = get sample_frame i (source_column (width sample_frame) j 1) 0 ∧
      get g i j 1 = get sample_frame i j 1 ∧
      get g i j 2 = get sample_frame i (source_column (width sample_frame) j (- 1)) 2.
Proof.
  apply (chromatic_aberration_shifts (sample_world sample_frame (λ _, 0%N)) 0%nat
           sample_frame 1).
  - reflexivity.
  - by_compute.
  - reflexivity.
  - simpl. lia.
  - simpl. lia.
Defined.

(** C6.  Applying [chromatic_aberration] with [shift] and then, to the
    result, with [- shift] gives back the input frame: every shifted plane
    is at its original column alignment again. *)
Theorem chromatic_aberration_inverse σ a f shift :
  heap σ !! a = Some f → wf_frame f →
  channels f = 3%nat → (1 ≤ height f)%nat → (1 ≤ width f)%nat →
  ∃ r1 σ1 r2 σ2,
    chromatic_aberration a shift σ = Ok r1 σ1 ∧
    chromatic_aberration r1 (- shift) σ1 = Ok r2 σ2 ∧
    heap σ2 !! r2 = Some f.
Proof.
  intros Ha Hwf Hc Hh Hw.
  destruct (mspec_total_inv _ _ _ (chromatic_aberration_spec false σ a f shift Ha Hwf Hc Hh Hw))
    as (r1 & σ1 & Hrun1 & -> & ->).
  set (G := Frame (height f) (width f) 3 (map (aberrate_row shift) (data f))) in *.
  assert (HG : wf_frame G).
  { apply wf_aberrate. unfold wf_frame in Hwf. by rewrite Hc in Hwf. }
  destruct (mspec_total_inv _ _ _
              (chromatic_aberration_spec false (set_heap (heap σ ++ [G]) σ) (length (heap σ))
                 G (- shift) (lookup_app_length _ _) HG eq_refl Hh Hw))
    as (r2 & σ2 & Hrun2 & -> & ->).
  eexists _, _, _, _. split; [exact Hrun1|]. split; [exact Hrun2|].
  simpl. rewrite lookup_app_length. f_equal.
  destruct f as [h w c d]. simpl in *. subst c. f_equal.
  rewrite map_map. rewrite <- (map_id d) at 2.
  apply map_ext_Forall. destruct Hwf as [_ Hd]. eapply Forall_impl; [exact Hd|].
  intros row [_ Hrow]. by apply aberrate_row_inverse.
Qed.

Lemma chromatic_aberration_inverse_witness :
  ∃ r1 σ1 r2 σ2,
    chromatic_aberration 0%nat 2 (sample_world sample_frame (λ _, 0%N)) = Ok r1 σ1 ∧
    chromatic_aberration r1 (- 2) σ1 = Ok r2 σ2 ∧
    heap σ2 !! r2 = Some sample_frame.
Proof.
  apply (chromatic_aberration_inverse (sample_world sample_frame (λ _, 0%N)) 0%nat
           sample_frame 2).
  - reflexivity.
  - by_compute.
  - reflexivity.
  - simpl. lia.
  - simpl. lia.
Defined.

(** * Motion blur *)

(** C7.  With a kernel of size one, [motion_blur] returns a new frame equal
    to its 8-bit input: the kernel is the single weight 1, so every pixel is
    kept. *)
Theorem motion_blur_size_one_identity σ a f :
  heap σ !! a = Some f → wf_frame f → uint8_frame f →
  (1 ≤ height f)%nat → (1 ≤ width f)%nat → (1 ≤ channels f)%nat →
  ∃ r σ', motion_blur a 1 σ = Ok r σ' ∧ r = length (heap σ) ∧ heap σ' !! r = Some f.
Proof.
  intros Ha Hwf Hu Hh Hw Hc.
  destruct (mspec_total_inv _ _ _ (motion_blur_one_spec false σ a f Ha Hwf Hu Hh Hw Hc))
    as (r & σ' & Hrun & -> & ->).
  eexists _, _. split; [exact Hrun|]. split; [done|]. simpl. apply lookup_app_length.
Qed.

Lemma motion_blur_size_one_identity_witness :
  ∃ r σ', motion_blur 0%nat 1 (sample_world sample_frame (λ _, 0%N)) = Ok r σ' ∧
          r = length (heap (sample_world sample_frame (λ _, 0%N))) ∧
          heap σ' !! r = Some sample_frame.
Proof.
  apply (motion_blur_size_one_identity (sample_world sample_frame (λ _, 0%N)) 0%nat
           sample_frame).
  - reflexivity.
  - by_compute.
  - by_compute.
  - simpl. lia.
  - simpl. lia.
  - simpl. lia.
Defined.

(** * Salt and pepper *)

Lemma sp_count_nonneg f amount : (0 <= amount)%Q → 0 ≤ sp_count f amount.
Proof.
  intros Ha. unfold sp_count. change 0 with (Qceiling 0).
  apply Qceiling_resp_le.
  apply float_mul_nonneg; [|done].
  apply float_mul_nonneg; apply float64_nonneg; [done|].
  unfold Qle, size. simpl. lia.
Qed.

Lemma map_const_replicate {A B} (v : B) (p : list A) :
  map (λ _, v) p = replicate (length p) v.
Proof. induction p as [|x p IH]; simpl; [done|]. by rewrite IH. Qed.

(** The pixels of a frame after the salt and then the pepper were painted. *)
Lemma get_pixel_salt_pepper f salt pepper i j :
  get_pixel (paint 0 (paint 255 f salt) pepper) i j =
  if decide ((i, j) ∈ pepper) then (λ p, replicate (length p) 0) <$> get_pixel f i j
  else if decide ((i, j) ∈ salt) then (λ p, replicate (length p) 255) <$> get_pixel f i j
  else get_pixel f i j.
Proof.
  destruct (decide ((i, j) ∈ pepper)) as [Hp|Hp].
  - rewrite get_pixel_paint_hit by done.
    destruct (decide ((i, j) ∈ salt)) as [Hs|Hs].
    + rewrite get_pixel_paint_hit by done.
      destruct (get_pixel f i j) as [p|]; simpl; [|done].
      by rewrite map_map, map_const_replicate.
    + rewrite get_pixel_paint_other by done.
      destruct (get_pixel f i j) as [p|]; simpl; [|done].
      by rewrite map_const_replicate.
  - rewrite get_pixel_paint_other by done.
    destruct (decide ((i, j) ∈ salt)) as [Hs|Hs].
    + rewrite get_pixel_paint_hit by done.
      destruct (get_pixel f i j) as [p|]; simpl; [|done].
      by rewrite map_const_replicate.
    + by rewrite get_pixel_paint_other.
Qed.

(** C10.  On a frame with at least two rows and two columns, whatever the
    amount and whatever the generator yields, [salt_and_pepper_noise] leaves
    every pixel of the last row and of the last column as it was: all the
    locations it paints have a row index of at most [h - 2] and a column
    index of at most [w - 2].  The call returns for every amount that is not
    negative. *)
Theorem salt_and_pepper_spares_last_row_and_column σ a f amount :
  heap σ !! a = Some f → wf_frame f → (2 ≤ height f)%nat → (2 ≤ width f)%nat →
  ((0 <= amount)%Q → (2 ≤ channels f)%nat →
     ∃ r σ', salt_and_pepper_noise a amount σ = Ok r σ') ∧
  ∀ r σ', salt_and_pepper_noise a amount σ = Ok r σ' →
    ∃ g salt pepper,
      heap σ' !! r = Some g ∧ g = paint 0 (paint 255 f salt) pepper ∧
      Forall (λ loc, (loc.1 ≤ height f - 2)%nat ∧ (loc.2 ≤ width f - 2)%nat) (salt ++ pepper) ∧
      (∀ j, get_pixel g (height f - 1) j = get_pixel f (height f - 1) j) ∧
      (∀ i, get_pixel g i (width f - 1) = get_pixel f i (width f - 1)).
Proof.
  intros Ha Hwf Hh Hw. split.
  - intros Hamount Hc.
    destruct (mspec_total_inv _ _ _
                (salt_and_pepper_noise_spec false σ a f amount Ha
                   ltac:(intros _; split; [by apply sp_count_nonneg|by right])))
      as (r & σ' & Hrun & _).
    eauto.
  - intros r σ' Hrun.
    pose proof (mspec_partial_inv _ _ _ _ _
                  (salt_and_pepper_noise_spec true σ a f amount Ha ltac:(done)) Hrun)
      as (-> & salt & pepper & _ & _ & _ & Hsalt & Hpepper & Hheap & _).
    exists (paint 0 (paint 255 f salt) pepper), salt, pepper.
    split; [rewrite Hheap; apply lookup_app_length|]. split; [done|].
    assert (Hrow : ∀ j, (((height f - 1)%nat, j) ∉ salt) ∧ (((height f - 1)%nat, j) ∉ pepper)).
    { intros j. rewrite Forall_forall in Hsalt, Hpepper.
      split; intros Hin; [apply Hsalt in Hin|apply Hpepper in Hin]; simpl in Hin; lia. }
    assert (Hcol : ∀ i, ((i, (width f - 1)%nat) ∉ salt) ∧ ((i, (width f - 1)%nat) ∉ pepper)).
    { intros i. rewrite Forall_forall in Hsalt, Hpepper.
      split; intros Hin; [apply Hsalt in Hin|apply Hpepper in Hin]; simpl in Hin; lia. }
    split; [|split].
    + apply Forall_app. split; (eapply Forall_impl; [eassumption|]); simpl; lia.
    + intros j. destruct (Hrow j). by rewrite !get_pixel_paint_other.
    + intros i. destruct (Hcol i). by rewrite !get_pixel_paint_other.
Qed.

Lemma salt_and_pepper_spares_last_row_and_column_witness :
  ((0 <= 1 # 9)%Q → (2 ≤ channels sample_frame)%nat →
     ∃ r σ', salt_and_pepper_noise 0%nat (1 # 9) (sample_world sample_frame N.of_nat)
             = Ok r σ') ∧
  ∀ r σ', salt_and_pepper_noise 0%nat (1 # 9) (sample_world sample_frame N.of_nat)
          = Ok r σ' →
    ∃ g salt pepper,
      heap σ' !! r = Some g ∧ g = paint 0 (paint 255 sample_frame salt) pepper ∧
      Forall (λ loc, (loc.1 ≤ height sample_frame - 2)%nat ∧
                     (loc.2 ≤ width sample_frame - 2)%nat) (salt ++ pepper) ∧
      (∀ j, get_pixel g (height sample_frame - 1) j
            = get_pixel sample_frame (height sample_frame - 1) j) ∧
      (∀ i, get_pixel g i (width sample_frame - 1)
            = get_pixel sample_frame i (width sample_frame - 1)).
Proof.
  apply (salt_and_pepper_spares_last_row_and_column
           (sample_world sample_frame N.of_nat) 0%nat sample_frame (1 # 9)).
  - reflexivity.
  - by_compute.
  - simpl. lia.
  - simpl. lia.
Defined.

(** C1, as stated, fails on the frame [square_frame] with amount 1/4.  The
    frame has nine pixels, so the stated size of each location set is
    ceil(1/4 × 9 × 1/2) = 2; the code counts the 27 array elements and draws
    ceil(1/4 × 27 × 1/2) = 4 locations per set, and in the run on
    [spread_tape] three pixels end up salted.  Rows 0, 1, 2 and columns 0, 1,
    2 are the full index ranges, yet whatever the generator yields no pixel
    of row 2 or of column 2 is ever painted. *)
Lemma salt_and_pepper_noise_counterexample :
  Qceiling (float_mul (float_mul (float64 (1 # 4)) (float64 (inject_Z (3 * 3)))) (1 # 2)) = 2 ∧
  sp_count square_frame (1 # 4) = 4 ∧
  (∃ r σ',
     salt_and_pepper_noise 0%nat (1 # 4) (sample_world square_frame spread_tape) = Ok r σ' ∧
     heap σ' !! r = Some (Frame 3 3 3 [[[0; 0; 0]; [255; 255; 255]; [7; 7; 7]];
                                       [[255; 255; 255]; [255; 255; 255]; [7; 7; 7]];
                                       [[7; 7; 7]; [7; 7; 7]; [7; 7; 7]]])) ∧
  ∀ t n, ∃ r σ' g,
    salt_and_pepper_noise 0%nat (1 # 4) (World [square_frame] (Rng t n) (Rng t 0) [] ∅ ∅ [])
      = Ok r σ' ∧
    heap σ' !! r = Some g ∧
    (∀ j, get_pixel g 2 j = get_pixel square_frame 2 j) ∧
    (∀ i, get_pixel g i 2 = get_pixel square_frame i 2).
Proof.
  split; [vm_compute; reflexivity|]. split; [vm_compute; reflexivity|]. split.
  { eexists _, _. split; vm_compute; reflexivity. }
  intros t n.
  set (σ := World [square_frame] (Rng t n) (Rng t 0) [] ∅ ∅ []).
  assert (Hcount : sp_count square_frame (1 # 4) = 4) by (vm_compute; reflexivity).
  destruct (mspec_total_inv _ _ _
              (salt_and_pepper_noise_spec false σ 0%nat square_frame (1 # 4) eq_refl
                 ltac:(intros _; rewrite Hcount; split; [lia|right; simpl; lia])))
    as (r & σ' & Hrun & -> & salt & pepper & _ & _ & _ & Hsalt & Hpepper & Hheap & _).
  simpl in Hsalt, Hpepper.
  exists (length (heap σ)), σ', (paint 0 (paint 255 square_frame salt) pepper).
  split; [exact Hrun|]. split; [rewrite Hheap; apply lookup_app_length|].
  rewrite Forall_forall in Hsalt, Hpepper.
  split.
  - intros j. rewrite !get_pixel_paint_other; [done|..];
      intros Hin; [apply Hsalt in Hin|apply Hpepper in Hin]; simpl in Hin; lia.
  - intros i. rewrite !get_pixel_paint_other; [done|..];
      intros Hin; [apply Hsalt in Hin|apply Hpepper in Hin]; simpl in Hin; lia.
Qed.

(** C1, amended.  On a frame of shape h × w × c with h, w, c ≥ 2 and for an
    amount that is not negative, [salt_and_pepper_noise] returns a new frame
    and leaves its input as it was.  With n = ceil(amount × h·w·c × 1/2),
    the products taken in floating point and h·w·c the number of array
    elements, it reads 6 n values from NumPy's generator: n row indices, n
    column indices and n channel indices for the salt, then as many for the
    pepper.  The salt locations are the pairs of the first n row and column
    indices, the pepper locations those of the second (repetitions allowed),
    all inside the frame.  The result is the input with all channels 0 at
    the pepper locations, all channels 255 at the salt locations that are
    not pepper locations, and every other pixel unchanged. *)
Theorem salt_and_pepper_noise_paints σ a f amount :
  heap σ !! a = Some f → wf_frame f →
  (2 ≤ height f)%nat → (2 ≤ width f)%nat → (2 ≤ channels f)%nat → (0 <= amount)%Q →
  ∃ r σ' g,
    salt_and_pepper_noise a amount σ = Ok r σ' ∧
    r ≠ a ∧ heap σ' !! a = Some f ∧ heap σ' !! r = Some g ∧
    same_shape f g ∧ wf_frame g ∧
    0 ≤ sp_count f amount ∧
    sp_count f amount =
      Qceiling (float_mul
                  (float_mul (float64 amount)
                     (float64 (inject_Z (Z.of_nat (height f * width f * channels f)))))
                  (1 # 2)) ∧
    Z.of_nat (length (salt_locations σ f amount)) = sp_count f amount ∧
    Z.of_nat (length (pepper_locations σ f amount)) = sp_count f amount ∧
    Forall (λ loc, (loc.1 < height f)%nat ∧ (loc.2 < width f)%nat)
           (salt_locations σ f amount ++ pepper_locations σ f amount) ∧
    np_random σ' = Rng (tape (np_random σ))
                       (pos (np_random σ) + 6 * Z.to_nat (sp_count f amount)) ∧
    ∀ i j, get_pixel g i j =
      if decide ((i, j) ∈ pepper_locations σ f amount)
      then (λ p, replicate (length p) 0) <$> get_pixel f i j
      else if decide ((i, j) ∈ salt_locations σ f amount)
      then (λ p, replicate (length p) 255) <$> get_pixel f i j
      else get_pixel f i j.
Proof.
  intros Ha Hwf Hh Hw Hc Hamount.
  pose proof (sp_count_nonneg f amount Hamount) as Hnum.
  destruct (mspec_total_inv _ _ _
              (salt_and_pepper_noise_exact false σ a f amount Ha
                 ltac:(intros _; split; [done|by right])))
    as (r & σ' & Hrun & -> & _ & Hheap & _ & Hnp).
  exists (length (heap σ)), σ',
    (paint 0 (paint 255 f (salt_locations σ f amount)) (pepper_locations σ f amount)).
  pose proof (lookup_lt_Some _ _ _ Ha) as Hlt.
  split; [exact Hrun|]. split; [lia|].
  split; [rewrite Hheap; by apply lookup_app_l_Some|].
  split; [rewrite Hheap; apply lookup_app_length|].
  split; [unfold same_shape; by rewrite !paint_height, !paint_width, !paint_channels|].
  split; [by do 2 apply wf_paint|].
  split; [done|]. split; [done|].
  split; [unfold salt_locations; rewrite length_drawn_locations; lia|].
  split; [unfold pepper_locations; rewrite length_drawn_locations; lia|].
  split; [|split; [exact Hnp|intros i j; apply get_pixel_salt_pepper]].
  apply Forall_app. split;
    (eapply Forall_impl; [apply drawn_locations_range; right; lia|]); simpl; lia.
Qed.

Lemma salt_and_pepper_noise_paints_witness :
  ∃ r σ' g,
    salt_and_pepper_noise 0%nat (1 # 9) (sample_world sample_frame N.of_nat) = Ok r σ' ∧
    r ≠ 0%nat ∧ heap σ' !! 0%nat = Some sample_frame ∧ heap σ' !! r = Some g ∧
    same_shape sample_frame g ∧ wf_frame g ∧
    0 ≤ sp_count sample_frame (1 # 9) ∧
    sp_count sample_frame (1 # 9) =
      Qceiling (float_mul
                  (float_mul (float64 (1 # 9))
                     (float64 (inject_Z (Z.of_nat (height sample_frame * width sample_frame *
                                                   channels sample_frame)))))
                  (1 # 2)) ∧
    Z.of_nat (length (salt_locations (sample_world sample_frame N.of_nat) sample_frame (1 # 9)))
      = sp_count sample_frame (1 # 9) ∧
    Z.of_nat (length (pepper_locations (sample_world sample_frame N.of_nat) sample_frame (1 # 9)))
      = sp_count sample_frame (1 # 9) ∧
    Forall (λ loc, (loc.1 < height sample_frame)%nat ∧ (loc.2 < width sample_frame)%nat)
           (salt_locations (sample_world sample_frame N.of_nat) sample_frame (1 # 9) ++
            pepper_locations (sample_world sample_frame N.of_nat) sample_frame (1 # 9)) ∧
    np_random σ' = Rng (tape (np_random (sample_world sample_frame N.of_nat)))
                       (pos (np_random (sample_world sample_frame N.of_nat)) +
                        6 * Z.to_nat (sp_count sample_frame (1 # 9))) ∧
    ∀ i j, get_pixel g i j =
      if decide ((i, j) ∈ pepper_locations (sample_world sample_frame N.of_nat)
                            sample_frame (1 # 9))
      then (λ p, replicate (length p) 0) <$> get_pixel sample_frame i j
      else if decide ((i, j) ∈ salt_locations (sample_world sample_frame N.of_nat)
                                 sample_frame (1 # 9))
      then (λ p, replicate (length p) 255) <$> get_pixel sample_frame i j
      else get_pixel sample_frame i j.
Proof.
  apply (salt_and_pepper_noise_paints (sample_world sample_frame N.of_nat) 0%nat
           sample_frame (1 # 9)).
  - reflexivity.
  - by_compute.
  - simpl. lia.
  - simpl. lia.
  - simpl. lia.
  - unfold Qle. simpl. lia.
Defined.

(** * All nine transforms *)

Lemma apply_transform_fresh b lib t σ a f :
  heap σ !! a = Some f → wf_frame f → uint8_frame f →
  channels f = 3%nat → (1 ≤ height f)%nat → (1 ≤ width f)%nat →
  (b = false → accepts lib t f) →
  mspec b (apply_transform lib t a) σ (fresh_frame_like f σ).
Proof.
  intros Ha Hwf Hu Hc Hh Hw Hdom. destruct t; simpl in *.
  - by apply gaussian_noise_fresh.
  - by apply compression_artifacts_fresh.
  - apply motion_blur_fresh; [done|]. intros Hb. specialize (Hdom Hb). lia.
  - by apply color_banding_fresh.
  - apply salt_and_pepper_noise_fresh; [done|done|].
    intros Hb. destruct (Hdom Hb) as (?&?&?).
    split; [by apply sp_count_nonneg|right; lia].
  - apply lens_distortion_fresh; [done|]. intros _. lia.
  - apply vignetting_fresh; [done|done|]. intros _. lia.
  - by apply chromatic_aberration_fresh.
  - by apply dust_dirt_particles_fresh.
Qed.

(** On frames with at least two rows and two columns and with parameters
    a transform accepts, each of the nine transforms returns a reference to
    a new array; and whenever a transform returns, on any frame with three
    channels, the new array has the height, width and channel count of the
    input. *)
Theorem transforms_keep_shape lib t σ a f :
  heap σ !! a = Some f → wf_frame f → uint8_frame f →
  channels f = 3%nat → (1 ≤ height f)%nat → (1 ≤ width f)%nat →
  (accepts lib t f → ∃ r σ', apply_transform lib t a σ = Ok r σ') ∧
  ∀ r σ', apply_transform lib t a σ = Ok r σ' →
    ∃ g, (length (heap σ) ≤ r)%nat ∧ heap σ' !! r = Some g ∧ same_shape f g ∧ wf_frame g.
Proof.
  intros Ha Hwf Hu Hc Hh Hw. split.
  - intros Hacc.
    destruct (mspec_total_inv _ _ _
                (apply_transform_fresh false lib t σ a f Ha Hwf Hu Hc Hh Hw (λ _, Hacc)))
      as (r & σ' & Hrun & _).
    eauto.
  - intros r σ' Hrun.
    destruct (mspec_partial_inv _ _ _ _ _
                (apply_transform_fresh true lib t σ a f Ha Hwf Hu Hc Hh Hw ltac:(done)) Hrun)
      as (news & g & _ & ? & ? & ? & ?).
    eauto.
Qed.

(** C8 on a frame of one row: [salt_and_pepper_noise] with the default
    amount asks the generator for a row index below [1 - 1 = 0] and raises;
    no frame is returned.  The same happens on a frame of one column. *)
Theorem salt_and_pepper_noise_one_row_raises t n :
  ∃ σ', salt_and_pepper_noise 0%nat (1 # 100)
          (World [one_row_frame] (Rng t n) (Rng t 0) [] ∅ ∅ []) = Raise ValueError σ'.
Proof. eexists. reflexivity. Qed.

(** C9, as stated, fails: a transform that draws random numbers has an
    effect beyond its return value, it moves the global generator on.  After
    [dust_dirt_particles] has drawn one particle on the sample frame, the
    state of NumPy's generator is not what it was. *)
Lemma transform_side_effect_counterexample :
  ∃ r σ',
    apply_transform sample_library (DustDirtParticles 1) 0%nat
      (sample_world sample_frame N.of_nat) = Ok r σ' ∧
    np_random σ' ≠ np_random (sample_world sample_frame N.of_nat).
Proof.
  eexists _, _. split; [vm_compute; reflexivity|].
  simpl. intros H. by apply (f_equal pos) in H.
Qed.

(** C9, amended.  No transform changes its input frame or any other array
    that exists when it is called: when a transform returns, the store is
    the old store followed by new arrays, the result among them.  Nothing is
    printed and no file or capture object is touched.  The global random
    generators keep their streams; all that may change besides the store is
    that their read heads have moved forward. *)
Theorem transforms_leave_frames_alone lib t σ a f :
  heap σ !! a = Some f → wf_frame f → uint8_frame f →
  channels f = 3%nat → (1 ≤ height f)%nat → (1 ≤ width f)%nat →
  (accepts lib t f → ∃ r σ', apply_transform lib t a σ = Ok r σ') ∧
  ∀ r σ', apply_transform lib t a σ = Ok r σ' →
    heap σ' !! a = Some f ∧ r ≠ a ∧
    (∃ news, heap σ' = heap σ ++ news) ∧
    (∀ a' f', heap σ !! a' = Some f' → heap σ' !! a' = Some f') ∧
    stdout σ' = stdout σ ∧ videos σ' = videos σ ∧
    images σ' = images σ ∧ captures σ' = captures σ ∧
    tape (np_random σ') = tape (np_random σ) ∧
    (pos (np_random σ) ≤ pos (np_random σ'))%nat ∧
    tape (cv_theRNG σ') = tape (cv_theRNG σ) ∧
    (pos (cv_theRNG σ) ≤ pos (cv_theRNG σ'))%nat.
Proof.
  intros Ha Hwf Hu Hc Hh Hw. split.
  - intros Hacc.
    destruct (mspec_total_inv _ _ _
                (apply_transform_fresh false lib t σ a f Ha Hwf Hu Hc Hh Hw (λ _, Hacc)))
      as (r & σ' & Hrun & _).
    eauto.
  - intros r σ' Hrun.
    destruct (mspec_partial_inv _ _ _ _ _
                (apply_transform_fresh true lib t σ a f Ha Hwf Hu Hc Hh Hw ltac:(done)) Hrun)
      as (news & g & [Hheap (?&?&?&?&?&?&?&?)] & Hr & _).
    pose proof (lookup_lt_Some _ _ _ Ha).
    split; [rewrite Hheap; by apply lookup_app_l_Some|].
    split; [lia|]. split; [eauto|].
    split; [intros a' f' Ha'; rewrite Hheap; by apply lookup_app_l_Some|].
    done.
Qed.

Lemma transforms_leave_frames_alone_witness :
  (accepts sample_library (SaltAndPepperNoise (1 # 9)) sample_frame →
     ∃ r σ', apply_transform sample_library (SaltAndPepperNoise (1 # 9)) 0%nat
               (sample_world sample_frame N.of_nat) = Ok r σ') ∧
  ∀ r σ', apply_transform sample_library (SaltAndPepperNoise (1 # 9)) 0%nat
            (sample_world sample_frame N.of_nat) = Ok r σ' →
    heap σ' !! 0%nat = Some sample_frame ∧ r ≠ 0%nat ∧
    (∃ news, heap σ' = heap (sample_world sample_frame N.of_nat) ++ news) ∧
    (∀ a' f', heap (sample_world sample_frame N.of_nat) !! a' = Some f' →
              heap σ' !! a' = Some f') ∧
    stdout σ' = stdout (sample_world sample_frame N.of_nat) ∧
    videos σ' = videos (sample_world sample_frame N.of_nat) ∧
    images σ' = images (sample_world sample_frame N.of_nat) ∧
    captures σ' = captures (sample_world sample_frame N.of_nat) ∧
    tape (np_random σ') = tape (np_random (sample_world sample_frame N.of_nat)) ∧
    (pos (np_random (sample_world sample_frame N.of_nat)) ≤ pos (np_random σ'))%nat ∧
    tape (cv_theRNG σ') = tape (cv_theRNG (sample_world sample_frame N.of_nat)) ∧
    (pos (cv_theRNG (sample_world sample_frame N.of_nat)) ≤ pos (cv_theRNG σ'))%nat.
Proof.
  apply (transforms_leave_frames_alone sample_library (SaltAndPepperNoise (1 # 9))
           (sample_world sample_frame N.of_nat) 0%nat sample_frame).
  - reflexivity.
  - by_compute.
  - by_compute.
  - reflexivity.
  - simpl. lia.
  - simpl. lia.
Defined.

(** * The pipeline *)

Lemma rand_value_range t n : (0 <= rand_value t n)%Q ∧ (rand_value t n < 1)%Q.
Proof.
  unfold rand_value, Qle, Qlt. simpl.
  pose proof (Z.mod_pos_bound (Z.of_N (t n)) (2 ^ 53) ltac:(done)). lia.
Qed.

Lemma mspec_emit b out img saved r g σ (Q : unit → world → Prop) :
  heap σ !! r = Some g → Q () (emitted out img saved g σ) → mspec b (emit out img saved r) σ Q.
Proof.
  intros Hr HQ. unfold emit, writer_write, cv_imwrite.
  mstep. mstep. eapply mspec_load; [done|]. mstep. cbv beta.
  unfold emitted in HQ. destruct saved; simpl in *; [by mstep|].
  mstep. eapply mspec_load; [done|]. by mstep.
Qed.

Lemma loop_state_effect a f sink cap c t σ σ' news :
  loop_state a f sink cap c t σ → transform_effect σ σ' news → loop_state a f sink cap c t σ'.
Proof.
  intros (Ha & Hv & Hc & Ht) [Hheap (?&Hv'&?&Hc'&Ht'&_)].
  repeat split; [|congruence..]. rewrite Hheap. by apply lookup_app_l_Some.
Qed.

Lemma loop_state_emitted a f sink cap c t out img saved g σ :
  out ≠ "frame_dropping.mp4" →
  loop_state a f sink cap c t σ → loop_state a f sink cap c t (emitted out img saved g σ).
Proof.
  intros Hout (Ha & Hv & Hc & Ht). unfold emitted.
  destruct saved; (repeat split; simpl; [done| |done|done]);
    by rewrite lookup_alter_ne.
Qed.

(** A transform followed by [emit], inside the loop. *)
Lemma transform_emit_spec {A} a f sink cap c t out img saved (m : M addr) (k : M A) σ Q :
  out ≠ "frame_dropping.mp4" →
  loop_state a f sink cap c t σ →
  mspec false m σ (fresh_frame_like f σ) →
  (∀ σ', loop_state a f sink cap c t σ' → mspec false k σ' Q) →
  mspec false (r ← m; emit out img saved r;; k) σ Q.
Proof.
  intros Hout Hst Hm Hk. mstep. eapply mspec_mono; [exact Hm|].
  intros r σ' (news & g & Heff & _ & Hr & _). cbv beta.
  mstep. eapply mspec_emit; [exact Hr|]. cbv beta.
  apply Hk. apply loop_state_emitted; [done|]. by eapply loop_state_effect.
Qed.

Lemma valid_params_accepts lib p f :
  valid_params lib p → video_frame f →
  accepts lib (MotionBlur (kernel_size p)) f ∧
  accepts lib (ColorBanding (color_branding_levels p)) f ∧
  accepts lib (SaltAndPepperNoise (salt_and_pepper_amount p)) f.
Proof. intros (?&?&?&?) (?&?&?&?&?). simpl. tauto. Qed.

(** One iteration of the loop body: the sink of dropped frames receives
    the frame just read exactly when the draw exceeds the rate; the frame
    itself, the capture object and the generator's stream are kept. *)
Lemma process_frame_spec lib p saved a f sink cap c t σ (Q : unit → world → Prop) :
  valid_params lib p → video_frame f →
  loop_state a f sink cap c t σ →
  (∀ σ' n,
     loop_state a f (if forwarded (drop_rate p) (rand_value t n) then push_frame f sink else sink)
                cap c t σ' → Q () σ') →
  mspec false (process_frame lib p saved a) σ Q.
Proof.
  intros Hp Hf Hst HQ.
  destruct (valid_params_accepts lib p f Hp Hf) as (Hmb & Hcb & Hsp).
  destruct Hf as (Hwf & Hu & Hc & Hh & Hw).
  assert (Hfresh : ∀ t' σ', loop_state a f sink cap c t σ' → accepts lib t' f →
            mspec false (apply_transform lib t' a) σ' (fresh_frame_like f σ')).
  { intros t' σ' (Ha & _) Hacc. apply apply_transform_fresh; try done; lia. }
  unfold process_frame.
  eapply (transform_emit_spec a f sink cap c t); [done|exact Hst|by apply (Hfresh (GaussianNoise _))|].
  clear σ Hst. intros σ Hst.
  eapply (transform_emit_spec a f sink cap c t); [done|exact Hst|by apply (Hfresh (CompressionArtifacts _))|].
  clear σ Hst. intros σ Hst.
  eapply (transform_emit_spec a f sink cap c t); [done|exact Hst|by apply (Hfresh (MotionBlur _))|].
  clear σ Hst. intros σ Hst.
  eapply (transform_emit_spec a f sink cap c t); [done|exact Hst|by apply (Hfresh (ColorBanding _))|].
  clear σ Hst. intros σ Hst.
  eapply (transform_emit_spec a f sink cap c t); [done|exact Hst|by apply (Hfresh (SaltAndPepperNoise _))|].
  clear σ Hst. intros σ Hst.
  eapply (transform_emit_spec a f sink cap c t); [done|exact Hst|by apply (Hfresh (LensDistortion _ _))|].
  clear σ Hst. intros σ Hst.
  eapply (transform_emit_spec a f sink cap c t); [done|exact Hst|by apply (Hfresh Vignetting)|].
  clear σ Hst. intros σ Hst.
  eapply (transform_emit_spec a f sink cap c t); [done|exact Hst|by apply (Hfresh (ChromaticAberration _))|].
  clear σ Hst. intros σ Hst.
  eapply (transform_emit_spec a f sink cap c t); [done|exact Hst|by apply (Hfresh (DustDirtParticles _))|].
  clear σ Hst. intros σ (Ha & Hv & Hcap & Ht).
  unfold simulate_frame_dropping.
  mstep. unfold mspec at 1, np_random_rand. cbv beta zeta.
  fold (rand_value (tape (np_random σ)) (pos (np_random σ))). rewrite Ht.
  set (u := rand_value t (pos (np_random σ))).
  pose proof (λ σ', HQ σ' (pos (np_random σ))) as HQ2.
  fold u in HQ2. unfold forwarded in *.
  destruct (Qlt_le_dec (drop_rate p) u).
  - unfold writer_write. mstep. eapply mspec_load; [exact Ha|]. mstep.
    apply HQ2. split; [done|]. split; [simpl; by rewrite lookup_alter_eq, Hv|]. by split.
  - mstep. apply HQ2. by repeat split.
Qed.

Lemma mspec_the_capture b cap c σ (Q : capture → world → Prop) :
  captures σ !! cap = Some c → Q c σ → mspec b (the_capture cap) σ Q.
Proof. unfold mspec, the_capture. by intros ->. Qed.

(** The frame loop reads every pending frame, draws once per frame, and
    appends to the sink of dropped frames those whose draw exceeds the
    rate. *)
Lemma frame_loop_spec lib p frame_count t cap meta frames :
  ∀ fuel frame_number saved sink σ,
    valid_params lib p → Forall video_frame frames → (length frames < fuel)%nat →
    videos σ !! "frame_dropping.mp4" = Some sink →
    captures σ !! cap = Some (Capture true meta frames) →
    tape (np_random σ) = t →
    mspec false (frame_loop lib fuel cap p frame_count frame_number saved) σ (λ _ σ',
      ∃ draws sink',
        length draws = length frames ∧
        Forall (λ u, ∃ n, u = rand_value t n) draws ∧
        videos σ' !! "frame_dropping.mp4" = Some sink' ∧
        vframes sink' = vframes sink ++ kept_frames (drop_rate p) frames draws ∧
        captures σ' !! cap = Some (Capture true meta [])).
Proof.
  induction frames as [|f rest IH]; intros fuel fn saved sink σ Hp Hfr Hfuel Hv Hc Ht;
    (destruct fuel as [|fuel]; [simpl in Hfuel; lia|]); simpl.
  - unfold cap_read. mstep. mstep. eapply mspec_the_capture; [done|]. simpl.
    msteps. exists [], sink. split; [done|]. split; [constructor|]. split; [done|].
    split; [by rewrite app_nil_r|done].
  - inversion_clear Hfr as [|? ? Hf Hrest].
    unfold cap_read. mstep. mstep. eapply mspec_the_capture; [done|]. simpl.
    mstep. mstep. mstep. mstep. mstep. msteps.
    eapply (process_frame_spec lib p saved _ f sink cap (Capture true meta rest) t);
      [done|done| |].
    { split; [simpl; apply lookup_app_length|]. split; [done|]. split; [|done].
      simpl. apply list_lookup_insert_eq. by eapply lookup_lt_Some. }
    intros σ2 n (Ha2 & Hv2 & Hc2 & Ht2). cbv beta zeta.
    set (sink2 := if forwarded (drop_rate p) (rand_value t n) then push_frame f sink else sink)
      in *.
    assert (Hrec : ∀ σ3, videos σ3 = videos σ2 → captures σ3 = captures σ2 →
              np_random σ3 = np_random σ2 →
              mspec false (frame_loop lib fuel cap p frame_count (fn + 1) true) σ3 (λ _ σ',
                ∃ draws sink',
                  length draws = length (f :: rest) ∧
                  Forall (λ u, ∃ n, u = rand_value t n) draws ∧
                  videos σ' !! "frame_dropping.mp4" = Some sink' ∧
                  vframes sink' = vframes sink ++ kept_frames (drop_rate p) (f :: rest) draws ∧
                  captures σ' !! cap = Some (Capture true meta []))).
    { intros σ3 Hv3 Hc3 Hr3.
      eapply mspec_mono.
      { apply (IH fuel (fn + 1) true sink2 σ3); [done|done|simpl in Hfuel; lia|congruence..]. }
      intros _ σ' (draws & sink' & Hl & Hd & Hv' & Hk & Hc').
      exists (rand_value t n :: draws), sink'.
      split; [simpl; by rewrite Hl|]. split; [constructor; eauto|]. split; [done|].
      split; [|done].
      rewrite Hk. unfold kept_frames. simpl. unfold sink2.
      destruct (forwarded (drop_rate p) (rand_value t n)); simpl; [|done].
      by rewrite <- app_assoc. }
    mstep. destruct (_ =? 0).
    + unfold print. mstep. cbv beta. by apply Hrec.
    + mstep. by apply Hrec.
Qed.

Lemma kept_frames_none frames draws :
  Forall (λ u, (u < 1)%Q) draws → ∀ rate, (rate == 1)%Q → kept_frames rate frames draws = [].
Proof.
  intros Hd rate Hrate. revert frames.
  induction Hd as [|u draws Hu _ IH]; intros [|f frames]; try done.
  unfold kept_frames in *. simpl. rewrite IH. unfold forwarded.
  destruct (Qlt_le_dec rate u) as [Hlt|]; [|done].
  rewrite Hrate in Hlt. exfalso. eapply Qlt_irrefl, Qlt_trans; eauto.
Qed.

Lemma kept_frames_all frames draws :
  length draws = length frames →
  Forall (λ u, (0 <= u)%Q ∧ ¬ (u == 0)%Q) draws →
  ∀ rate, (rate == 0)%Q → kept_frames rate frames draws = frames.
Proof.
  intros Hl Hd rate Hrate. revert frames Hl.
  induction Hd as [|u draws [Hu0 Hu] _ IH]; intros [|f frames] Hl; simplify_eq/=; [done|].
  unfold kept_frames in *. simpl. rewrite IH by done. unfold forwarded.
  destruct (Qlt_le_dec rate u) as [|Hle]; [done|].
  exfalso. apply Hu. apply Qle_antisym; [|done]. by rewrite <- Hrate.
Qed.

Lemma mspec_VideoWriter b name fourcc fps w h σ (Q : string → world → Prop) :
  Q name (set_videos (<[name := Video fourcc w h fps 0 []]> (videos σ)) σ) →
  mspec b (cv_VideoWriter name fourcc fps w h) σ Q.
Proof. done. Qed.

(** Opening the writers creates one empty video file per name. *)
Lemma open_writers_spec b fourcc fps w h names :
  ∀ σ (Q : list string → world → Prop),
    Q names (set_videos (foldl (λ m name, <[name := Video fourcc w h fps 0 []]> m)
                               (videos σ) names) σ) →
    mspec b (mapM (λ name, cv_VideoWriter name fourcc fps w h) names) σ Q.
Proof.
  induction names as [|name names IH]; intros σ Q HQ.
  - destruct σ. exact HQ.
  - change (mspec b (out ← cv_VideoWriter name fourcc fps w h;
                     outs ← mapM (λ name, cv_VideoWriter name fourcc fps w h) names;
                     mret (out :: outs)) σ Q).
    mstep. apply mspec_VideoWriter. mstep.
    apply IH. mstep. exact HQ.
Qed.

Lemma for_each_release b outs σ (Q : unit → world → Prop) :
  Q () σ → mspec b (for_each outs writer_release) σ Q.
Proof.
  intros HQ. induction outs as [|o outs IH]; simpl; [by mstep|].
  mstep. unfold writer_release at 1. by mstep.
Qed.

(** The pipeline on a video that opens: it runs to the end, and the sink
    of dropped frames holds the frames whose draws exceed the rate. *)
Lemma add_artifacts_spec lib fuel path p σ v :
  videos σ !! path = Some v →
  Forall video_frame (vframes v) → valid_params lib p →
  (length (vframes v) < fuel)%nat →
  mspec false (add_artifacts lib fuel path p) σ (λ _ σ',
    ∃ draws sink,
      length draws = length (vframes v) ∧
      Forall (λ u, ∃ n, u = rand_value (tape (np_random σ)) n) draws ∧
      videos σ' !! "frame_dropping.mp4" = Some sink ∧
      vframes sink = kept_frames (drop_rate p) (vframes v) draws).
Proof.
  intros Hv Hfr Hp Hfuel. unfold add_artifacts.
  mstep. unfold mspec at 1, cv_VideoCapture. rewrite Hv. cbv beta zeta.
  set (cap := length (captures σ)).
  set (c := Capture true (Some v) (vframes v)).
  set (σ0 := set_captures (captures σ ++ [c]) σ).
  assert (Hc0 : captures σ0 !! cap = Some c) by apply lookup_app_length.
  assert (Hcap : ∀ {A} (prop : video → A) zero σ1 (Q : A → world → Prop),
            captures σ1 !! cap = Some c → Q (prop v) σ1 →
            mspec false (cap_get cap prop zero) σ1 Q).
  { intros A prop zero σ1 Q Hc1 HQ. unfold cap_get.
    mstep. eapply mspec_the_capture; [done|]. by mstep. }
  unfold cap_isOpened. mstep. mstep. eapply mspec_the_capture; [done|]. msteps.
  simpl negb. cbv iota.
  mstep. apply Hcap; [done|]. mstep. apply Hcap; [done|]. mstep. apply Hcap; [done|].
  cbv zeta. mstep. apply open_writers_spec.
  mstep. apply Hcap; [done|]. cbv beta. mstep. unfold print at 1. mstep. cbv beta. mstep.
  eapply mspec_mono.
  { eapply (frame_loop_spec lib p _ (tape (np_random σ)) cap (Some v) (vframes v));
      [done|done|done| |done|done].
    unfold sink_names. simpl. apply lookup_insert_eq. }
  intros _ σ1 (draws & sink & Hl & Hd & Hv1 & Hk & Hc1). cbv beta.
  mstep. unfold cap_release. mstep. eapply mspec_the_capture; [done|]. mstep.
  mstep. apply for_each_release. unfold print. mstep.
  exists draws, sink. by rewrite Hk in *.
Qed.

(** C4.  When no video can be opened at the path, [add_artifacts] prints
    one line that names the path and returns at once: no video file and no
    still image is created or changed, no array is allocated and no random
    number is drawn. *)
Theorem add_artifacts_open_failure lib fuel path p σ :
  videos σ !! path = None →
  ∃ σ',
    add_artifacts lib fuel path p σ = Ok () σ' ∧
    stdout σ' = stdout σ ++ ["Error opening video file: " +:+ path] ∧
    videos σ' = videos σ ∧ images σ' = images σ ∧ heap σ' = heap σ ∧
    np_random σ' = np_random σ ∧ cv_theRNG σ' = cv_theRNG σ.
Proof.
  intros Hv.
  assert (Hspec : mspec false (add_artifacts lib fuel path p) σ (λ _ σ',
            stdout σ' = stdout σ ++ ["Error opening video file: " +:+ path] ∧
            videos σ' = videos σ ∧ images σ' = images σ ∧ heap σ' = heap σ ∧
            np_random σ' = np_random σ ∧ cv_theRNG σ' = cv_theRNG σ)).
  { unfold add_artifacts.
    mstep. unfold mspec at 1, cv_VideoCapture. rewrite Hv. cbv beta zeta.
    unfold cap_isOpened. mstep. mstep.
    eapply mspec_the_capture; [apply lookup_app_length|]. msteps.
    simpl negb. cbv iota. unfold print. mstep. done. }
  destruct (mspec_total_inv _ _ _ Hspec) as ([] & σ' & Hrun & Hpost). eauto.
Qed.

Lemma add_artifacts_open_failure_witness :
  ∃ σ',
    add_artifacts sample_library 5 "input_video.mp4" default_params
      (sample_world sample_frame N.of_nat) = Ok () σ' ∧
    stdout σ' = stdout (sample_world sample_frame N.of_nat)
                ++ ["Error opening video file: " +:+ "input_video.mp4"] ∧
    videos σ' = videos (sample_world sample_frame N.of_nat) ∧
    images σ' = images (sample_world sample_frame N.of_nat) ∧
    heap σ' = heap (sample_world sample_frame N.of_nat) ∧
    np_random σ' = np_random (sample_world sample_frame N.of_nat) ∧
    cv_theRNG σ' = cv_theRNG (sample_world sample_frame N.of_nat).
Proof.
  apply (add_artifacts_open_failure sample_library 5 "input_video.mp4" default_params
           (sample_world sample_frame N.of_nat)).
  reflexivity.
Defined.

(** ** What the loop reads from NumPy's generator *)

Lemma np_kept_ret {A} (a : A) : np_kept (mret a).
Proof. by intros σ. Qed.

Lemma np_kept_raise {A} e : np_kept (raise e : M A).
Proof. by intros σ. Qed.

Lemma np_kept_bind {A B} (m : M A) (k : A → M B) :
  np_kept m → (∀ a, np_kept (k a)) → np_kept (m ≫= k).
Proof.
  intros Hm Hk σ. unfold mbind, M_bind. specialize (Hm σ).
  destruct (m σ) as [a σ1|e σ1]; [|done].
  specialize (Hk a σ1). destruct (k a σ1); congruence.
Qed.

Lemma np_kept_lift {A} e (o : option A) : np_kept (lift e o).
Proof. by destruct o. Qed.

Lemma np_kept_load a : np_kept (load a).
Proof. intros σ. unfold load. by destruct (heap σ !! a). Qed.

Lemma np_kept_alloc f : np_kept (alloc f).
Proof. by intros σ. Qed.

Lemma np_kept_store a f : np_kept (store a f).
Proof. intros σ. unfold store. by destruct (heap σ !! a). Qed.

Lemma np_kept_for_each {A} (l : list A) body :
  (∀ x, np_kept (body x)) → np_kept (for_each l body).
Proof.
  intros Hb. induction l as [|x l IH]; simpl; [apply np_kept_ret|].
  apply np_kept_bind; [apply Hb|by intros _].
Qed.

Lemma np_kept_py_floordiv a b : np_kept (py_floordiv a b).
Proof. unfold py_floordiv. destruct (b =? 0); [apply np_kept_raise|apply np_kept_ret]. Qed.

Lemma np_kept_cv_rng_fill lib h w c mean stddev :
  np_kept (cv_rng_fill lib h w c mean stddev).
Proof. by intros σ. Qed.

Ltac np_kept_step :=
  lazymatch goal with
  | |- np_kept (_ ≫= _) => apply np_kept_bind; [|intros ?]
  | |- np_kept (mret _) => apply np_kept_ret
  | |- np_kept (raise _) => apply np_kept_raise
  | |- np_kept (lift _ _) => apply np_kept_lift
  | |- np_kept (load _) => apply np_kept_load
  | |- np_kept (alloc _) => apply np_kept_alloc
  | |- np_kept (store _ _) => apply np_kept_store
  | |- np_kept (py_floordiv _ _) => apply np_kept_py_floordiv
  | |- np_kept (cv_rng_fill _ _ _ _ _ _) => apply np_kept_cv_rng_fill
  end.

Lemma gaussian_noise_np_kept lib a noise_level : np_kept (gaussian_noise lib a noise_level).
Proof. unfold gaussian_noise, cv_randn. repeat np_kept_step. Qed.

Lemma compression_artifacts_np_kept lib a quality :
  np_kept (compression_artifacts lib a quality).
Proof. unfold compression_artifacts. repeat np_kept_step. Qed.

Lemma motion_blur_np_kept a kernel_size : np_kept (motion_blur a kernel_size).
Proof.
  unfold motion_blur, line_kernel.
  destruct (kernel_size <? 0); repeat np_kept_step.
Qed.

Lemma color_banding_np_kept lib a levels : np_kept (color_banding lib a levels).
Proof. unfold color_banding. repeat np_kept_step. Qed.

Lemma lens_distortion_np_kept lib a k1 k2 : np_kept (lens_distortion lib a k1 k2).
Proof. unfold lens_distortion. repeat np_kept_step. Qed.

Lemma vignetting_np_kept lib a : np_kept (vignetting lib a).
Proof.
  unfold vignetting. repeat np_kept_step.
  apply np_kept_for_each. intros i. unfold setitem_channel. repeat np_kept_step.
  destruct (_ <? _)%nat; repeat np_kept_step.
Qed.

Lemma chromatic_aberration_np_kept a shift : np_kept (chromatic_aberration a shift).
Proof.
  unfold chromatic_aberration. np_kept_step; [np_kept_step|].
  destruct (cv_split _) as [|? [|? [|? [|]]]]; repeat np_kept_step.
Qed.

Lemma cv_circle_np_kept lib img x y radius v : np_kept (cv_circle lib img x y radius v).
Proof. unfold cv_circle. repeat np_kept_step. Qed.

Lemma mspec_np_kept {A} (m : M A) σ (Q : A → world → Prop) :
  np_kept m → (∀ a σ', np_random σ' = np_random σ → Q a σ') → mspec true m σ Q.
Proof. intros Hm HQ. unfold mspec. specialize (Hm σ). destruct (m σ); auto. Qed.

(** A total and a partial fact about one command. *)
Lemma mspec_conj {A} (m : M A) σ (P Q : A → world → Prop) :
  mspec false m σ P → mspec true m σ Q → mspec false m σ (λ a σ', P a σ' ∧ Q a σ').
Proof. unfold mspec. destruct (m σ); [done|done]. Qed.

Lemma mspec_load_partial a σ (Q : frame → world → Prop) :
  (∀ f, heap σ !! a = Some f → Q f σ) → mspec true (load a) σ Q.
Proof. intros HQ. unfold mspec, load. destruct (heap σ !! a); [by apply HQ|done]. Qed.

(** [np.random.randint(low, high)] reads one cell. *)
Lemma mspec_randint1_exact low high σ (Q : Z → world → Prop) :
  (∀ x σ', np_random σ' = Rng (tape (np_random σ)) (S (pos (np_random σ))) → Q x σ') →
  mspec true (np_random_randint1 low high) σ Q.
Proof.
  intros HQ. unfold mspec, np_random_randint1.
  destruct (high <=? low); [done|]. by apply HQ.
Qed.

(** The particle loop reads four cells for every particle. *)
Lemma dust_loop_np lib (a : addr) (w h : Z) (m : nat) :
  ∀ σ, mspec true (for_each (replicate m ()) (λ _,
             x ← np_random_randint1 0 w;
             y ← np_random_randint1 0 h;
             radius ← np_random_randint1 5 15;
             color ← np_random_randint1 50 100;
             cv_circle lib a x y radius color)) σ (λ _ σ',
         np_random σ' = Rng (tape (np_random σ)) (pos (np_random σ) + 4 * m)).
Proof.
  induction m as [|m IH]; intros σ; simpl.
  { mstep. destruct (np_random σ) as [t q]. simpl. f_equal. lia. }
  mstep. mstep. apply mspec_randint1_exact. intros x σ1 H1.
  mstep. apply mspec_randint1_exact. intros y σ2 H2.
  mstep. apply mspec_randint1_exact. intros radius σ3 H3.
  mstep. apply mspec_randint1_exact. intros color σ4 H4.
  apply mspec_np_kept; [apply cv_circle_np_kept|]. intros _ σ5 H5.
  eapply mspec_mono; [apply IH|]. intros ? σ6 H6. cbv beta in H6.
  rewrite H6, H5, H4. simpl. rewrite H3. simpl. rewrite H2. simpl. rewrite H1. simpl.
  f_equal. lia.
Qed.

Lemma dust_dirt_particles_np lib σ a num_particles :
  mspec true (dust_dirt_particles lib a num_particles) σ (λ _ σ',
    np_random σ' = Rng (tape (np_random σ))
                       (pos (np_random σ) + 4 * Z.to_nat num_particles)).
Proof.
  unfold dust_dirt_particles.
  mstep. apply mspec_load_partial. intros f Hf. mstep. mstep. cbv beta zeta. mstep.
  eapply mspec_mono; [apply dust_loop_np|]. intros ? σ1 H1. cbv beta in H1.
  mstep. exact H1.
Qed.

(** What a transform reads from NumPy's generator. *)
Lemma apply_transform_np lib t σ a f :
  heap σ !! a = Some f →
  mspec true (apply_transform lib t a) σ (λ _ σ',
    np_random σ' = Rng (tape (np_random σ)) (pos (np_random σ) + np_reads t f)).
Proof.
  intros Ha.
  assert (Hkept : ∀ m : M addr, np_kept m →
            mspec true m σ (λ _ σ',
              np_random σ' = Rng (tape (np_random σ)) (pos (np_random σ) + 0))).
  { intros m Hm. apply mspec_np_kept; [done|]. intros _ σ' ->.
    destruct (np_random σ) as [t' q]. simpl. by rewrite Nat.add_0_r. }
  destruct t; simpl.
  - apply Hkept, gaussian_noise_np_kept.
  - apply Hkept, compression_artifacts_np_kept.
  - apply Hkept, motion_blur_np_kept.
  - apply Hkept, color_banding_np_kept.
  - eapply mspec_mono; [by apply (salt_and_pepper_noise_exact true σ a f)|].
    by intros r σ' (_ & _ & _ & _ & Hnp).
  - apply Hkept, lens_distortion_np_kept.
  - apply Hkept, vignetting_np_kept.
  - apply Hkept, chromatic_aberration_np_kept.
  - apply dust_dirt_particles_np.
Qed.

Lemma np_random_emitted out img saved g σ :
  np_random (emitted out img saved g σ) = np_random σ.
Proof. unfold emitted. by destruct saved. Qed.

(** A transform followed by [emit], inside the loop, with the head of the
    generator. *)
Lemma transform_emit_exact {A} lib a f sink cap c t q tr out img saved
    (k : M A) σ Q :
  out ≠ "frame_dropping.mp4" →
  loop_state a f sink cap c t σ → np_random σ = Rng t q →
  mspec false (apply_transform lib tr a) σ (fresh_frame_like f σ) →
  (∀ σ', loop_state a f sink cap c t σ' → np_random σ' = Rng t (q + np_reads tr f) →
     mspec false k σ' Q) →
  mspec false (r ← apply_transform lib tr a; emit out img saved r;; k) σ Q.
Proof.
  intros Hout Hst Hnp Hm Hk. mstep.
  eapply mspec_mono.
  { apply mspec_conj; [exact Hm|]. apply (apply_transform_np lib tr σ a f). by destruct Hst. }
  intros r σ' [(news & g & Heff & _ & Hr & _) Hnp']. cbv beta.
  mstep. eapply mspec_emit; [exact Hr|]. cbv beta.
  apply Hk.
  - apply loop_state_emitted; [done|]. by eapply loop_state_effect.
  - rewrite np_random_emitted, Hnp', Hnp. done.
Qed.

(** One iteration of the loop body: the draw is read from the cell after
    those the transforms have read, and the sink of dropped frames receives
    the frame exactly when the draw exceeds the rate. *)
Lemma process_frame_exact lib p saved a f sink cap c t q σ (Q : unit → world → Prop) :
  valid_params lib p → video_frame f →
  loop_state a f sink cap c t σ → np_random σ = Rng t q →
  (∀ σ',
     loop_state a f (if forwarded (drop_rate p) (rand_value t (q + np_words p f))
                     then push_frame f sink else sink) cap c t σ' →
     np_random σ' = Rng t (S (q + np_words p f)) → Q () σ') →
  mspec false (process_frame lib p saved a) σ Q.
Proof.
  intros Hp Hf Hst Hnp HQ.
  destruct (valid_params_accepts lib p f Hp Hf) as (Hmb & Hcb & Hsp).
  destruct Hf as (Hwf & Hu & Hc & Hh & Hw).
  assert (Hfresh : ∀ tr σ', loop_state a f sink cap c t σ' → accepts lib tr f →
            mspec false (apply_transform lib tr a) σ' (fresh_frame_like f σ')).
  { intros tr σ' (Ha & _) Hacc. apply apply_transform_fresh; try done; lia. }
  unfold process_frame.
  eapply (transform_emit_exact lib a f sink cap c t _ (GaussianNoise _));
    [done|exact Hst|exact Hnp|by apply Hfresh|].
  clear σ Hst Hnp. intros σ Hst Hnp.
  eapply (transform_emit_exact lib a f sink cap c t _ (CompressionArtifacts _));
    [done|exact Hst|exact Hnp|by apply Hfresh|].
  clear σ Hst Hnp. intros σ Hst Hnp.
  eapply (transform_emit_exact lib a f sink cap c t _ (MotionBlur _));
    [done|exact Hst|exact Hnp|by apply Hfresh|].
  clear σ Hst Hnp. intros σ Hst Hnp.
  eapply (transform_emit_exact lib a f sink cap c t _ (ColorBanding _));
    [done|exact Hst|exact Hnp|by apply Hfresh|].
  clear σ Hst Hnp. intros σ Hst Hnp.
  eapply (transform_emit_exact lib a f sink cap c t _ (SaltAndPepperNoise _));
    [done|exact Hst|exact Hnp|by apply Hfresh|].
  clear σ Hst Hnp. intros σ Hst Hnp.
  eapply (transform_emit_exact lib a f sink cap c t _ (LensDistortion _ _));
    [done|exact Hst|exact Hnp|by apply Hfresh|].
  clear σ Hst Hnp. intros σ Hst Hnp.
  eapply (transform_emit_exact lib a f sink cap c t _ Vignetting);
    [done|exact Hst|exact Hnp|by apply Hfresh|].
  clear σ Hst Hnp. intros σ Hst Hnp.
  eapply (transform_emit_exact lib a f sink cap c t _ (ChromaticAberration _));
    [done|exact Hst|exact Hnp|by apply Hfresh|].
  clear σ Hst Hnp. intros σ Hst Hnp.
  eapply (transform_emit_exact lib a f sink cap c t _ (DustDirtParticles _));
    [done|exact Hst|exact Hnp|by apply Hfresh|].
  clear σ Hst Hnp. intros σ (Ha & Hv & Hcap & Ht) Hnp.
  assert (Hq : np_random σ = Rng t (q + np_words p f)).
  { rewrite Hnp. f_equal. unfold np_words. simpl. lia. }
  clear Hnp.
  unfold simulate_frame_dropping.
  mstep. unfold mspec at 1, np_random_rand. cbv beta zeta.
  fold (rand_value (tape (np_random σ)) (pos (np_random σ))). rewrite Hq. simpl tape. simpl pos.
  unfold forwarded in HQ.
  destruct (Qlt_le_dec (drop_rate p) (rand_value t (q + np_words p f))).
  - unfold writer_write. mstep. eapply mspec_load; [exact Ha|]. mstep.
    apply HQ; [|done].
    split; [done|]. split; [simpl; by rewrite lookup_alter_eq, Hv|]. by split.
  - mstep. apply HQ; [|done]. by repeat split.
Qed.

(** The frame loop: the sink of dropped frames receives the frames whose
    draws exceed the rate, each draw read from its own cell. *)
Lemma frame_loop_exact lib p frame_count t cap meta frames :
  ∀ fuel frame_number saved sink q σ,
    valid_params lib p → Forall video_frame frames → (length frames < fuel)%nat →
    videos σ !! "frame_dropping.mp4" = Some sink →
    captures σ !! cap = Some (Capture true meta frames) →
    np_random σ = Rng t q →
    mspec false (frame_loop lib fuel cap p frame_count frame_number saved) σ (λ _ σ',
      ∃ sink',
        videos σ' !! "frame_dropping.mp4" = Some sink' ∧
        vframes sink' = vframes sink ++
          kept_frames (drop_rate p) frames (map (rand_value t) (draw_positions p q frames)) ∧
        captures σ' !! cap = Some (Capture true meta []) ∧
        np_random σ' = Rng t (loop_end p q frames)).
Proof.
  induction frames as [|f rest IH]; intros fuel fn saved sink q σ Hp Hfr Hfuel Hv Hc Hnp;
    (destruct fuel as [|fuel]; [simpl in Hfuel; lia|]); simpl.
  - unfold cap_read. mstep. mstep. eapply mspec_the_capture; [done|]. simpl.
    msteps. exists sink. split; [done|]. split; [by rewrite app_nil_r|done].
  - inversion_clear Hfr as [|? ? Hf Hrest].
    unfold cap_read. mstep. mstep. eapply mspec_the_capture; [done|]. simpl.
    mstep. mstep. mstep. mstep. mstep. msteps.
    eapply (process_frame_exact lib p saved _ f sink cap (Capture true meta rest) t q);
      [done|done| |done|].
    { split; [simpl; apply lookup_app_length|]. split; [done|]. split.
      - simpl. apply list_lookup_insert_eq. by eapply lookup_lt_Some.
      - simpl. by rewrite Hnp. }
    intros σ2 (Ha2 & Hv2 & Hc2 & Ht2) Hnp2. cbv beta zeta.
    set (u := rand_value t (q + np_words p f)) in *.
    set (sink2 := if forwarded (drop_rate p) u then push_frame f sink else sink) in *.
    assert (Hrec : ∀ σ3, videos σ3 = videos σ2 → captures σ3 = captures σ2 →
              np_random σ3 = np_random σ2 →
              mspec false (frame_loop lib fuel cap p frame_count (fn + 1) true) σ3 (λ _ σ',
                ∃ sink',
                  videos σ' !! "frame_dropping.mp4" = Some sink' ∧
                  vframes sink' = vframes sink ++
                    kept_frames (drop_rate p) (f :: rest)
                      (u :: map (rand_value t)
                              (draw_positions p (S (q + np_words p f)) rest)) ∧
                  captures σ' !! cap = Some (Capture true meta []) ∧
                  np_random σ' = Rng t (loop_end p (S (q + np_words p f)) rest))).
    { intros σ3 Hv3 Hc3 Hr3.
      eapply mspec_mono.
      { apply (IH fuel (fn + 1) true sink2 (S (q + np_words p f)) σ3);
          [done|done|simpl in Hfuel; lia|congruence..]. }
      intros _ σ' (sink' & Hv' & Hk & Hc' & Hnp').
      exists sink'. split; [done|]. split; [|done].
      rewrite Hk. unfold kept_frames. simpl. unfold sink2.
      destruct (forwarded (drop_rate p) u); simpl; [|done].
      by rewrite <- app_assoc. }
    mstep. destruct (_ =? 0).
    + unfold print. mstep. cbv beta. by apply Hrec.
    + mstep. by apply Hrec.
Qed.

(** The pipeline on a video that opens: it runs to the end, and the sink
    of dropped frames holds the frames whose draws exceed the rate. *)
Lemma add_artifacts_exact lib fuel path p σ v :
  videos σ !! path = Some v →
  Forall video_frame (vframes v) → valid_params lib p →
  (length (vframes v) < fuel)%nat →
  mspec false (add_artifacts lib fuel path p) σ (λ _ σ',
    ∃ sink,
      videos σ' !! "frame_dropping.mp4" = Some sink ∧
      vframes sink = kept_frames (drop_rate p) (vframes v)
                       (frame_draws p (np_random σ) (vframes v)) ∧
      np_random σ' = Rng (tape (np_random σ))
                         (loop_end p (pos (np_random σ)) (vframes v))).
Proof.
  intros Hv Hfr Hp Hfuel. unfold add_artifacts.
  mstep. unfold mspec at 1, cv_VideoCapture. rewrite Hv. cbv beta zeta.
  set (cap := length (captures σ)).
  set (c := Capture true (Some v) (vframes v)).
  set (σ0 := set_captures (captures σ ++ [c]) σ).
  assert (Hc0 : captures σ0 !! cap = Some c) by apply lookup_app_length.
  assert (Hcap : ∀ {A} (prop : video → A) zero σ1 (Q : A → world → Prop),
            captures σ1 !! cap = Some c → Q (prop v) σ1 →
            mspec false (cap_get cap prop zero) σ1 Q).
  { intros A prop zero σ1 Q Hc1 HQ. unfold cap_get.
    mstep. eapply mspec_the_capture; [done|]. by mstep. }
  unfold cap_isOpened. mstep. mstep. eapply mspec_the_capture; [done|]. msteps.
  simpl negb. cbv iota.
  mstep. apply Hcap; [done|]. mstep. apply Hcap; [done|]. mstep. apply Hcap; [done|].
  cbv zeta. mstep. apply open_writers_spec.
  mstep. apply Hcap; [done|]. cbv beta. mstep. unfold print at 1. mstep. cbv beta. mstep.
  eapply mspec_mono.
  { eapply (frame_loop_exact lib p _ (tape (np_random σ)) cap (Some v) (vframes v)
              fuel 0 false _ (pos (np_random σ)));
      [done|done|done| |done|].
    - unfold sink_names. simpl. apply lookup_insert_eq.
    - simpl. by destruct (np_random σ). }
  intros _ σ1 (sink & Hv1 & Hk & Hc1 & Hnp1). cbv beta.
  mstep. unfold cap_release. mstep. eapply mspec_the_capture; [done|]. mstep.
  mstep. apply for_each_release. unfold print. mstep.
  exists sink. split; [done|]. split; [|done]. by rewrite Hk.
Qed.

Lemma draw_positions_fresh p frames :
  ∀ n, Forall (λ k, (n ≤ k)%nat) (draw_positions p n frames) ∧
       NoDup (draw_positions p n frames).
Proof.
  induction frames as [|f rest IH]; intros n; simpl; [split; constructor|].
  destruct (IH (S (n + np_words p f))) as [Hge Hnd]. split.
  - constructor; [lia|]. eapply Forall_impl; [exact Hge|]. simpl. lia.
  - constructor; [|done]. intros Hin. rewrite Forall_forall in Hge.
    apply Hge in Hin. lia.
Qed.

Lemma length_draw_positions p frames :
  ∀ n, length (draw_positions p n frames) = length frames.
Proof. induction frames as [|f rest IH]; intros n; simpl; [done|]. by rewrite IH. Qed.

(** C2, as stated, fails for a drop rate of 0.0: [np.random.rand()] returns
    values in [0, 1), 0.0 included, and the test [rand() > drop_rate] is
    strict.  On a video of one frame, with a generator whose words are all
    zero, the sink of dropped frames ends with no frame. *)
Lemma frame_dropping_counterexample :
  ∃ σ',
    add_artifacts sample_library 2 "input_video.mp4" (with_drop_rate 0 default_params)
      (one_frame_world (λ _, 0%N)) = Ok () σ' ∧
    vframes <$> videos (one_frame_world (λ _, 0%N)) !! "input_video.mp4" = Some [flat_frame] ∧
    vframes <$> videos σ' !! "frame_dropping.mp4" = Some [].
Proof.
  eexists. split; [vm_compute; reflexivity|]. split; vm_compute; reflexivity.
Qed.

(** C2, amended.  On a video read from a path that is not one of the
    output names, whose frames have three channels and at least two rows
    and two columns, with parameters every transform accepts, the pipeline
    runs to the end.  [simulate_frame_dropping] makes one draw in [0, 1)
    for each frame, each from a cell of its own of NumPy's generator: the
    cell the head has reached after the values salt and pepper and the dust
    particles read on that frame.  The sink of dropped frames holds, in
    order and unmodified, exactly the source frames whose draw is greater
    than the drop rate, and the generator is left after the last draw.
    With a drop rate of 1 the sink holds no frame; with a drop rate of 0 it
    holds every frame provided no draw is exactly 0. *)
Theorem frame_dropping_forwards lib fuel path p σ v :
  videos σ !! path = Some v → path ∉ sink_names →
  Forall video_frame (vframes v) → valid_params lib p →
  (length (vframes v) < fuel)%nat →
  ∃ σ' sink,
    add_artifacts lib fuel path p σ = Ok () σ' ∧
    videos σ' !! "frame_dropping.mp4" = Some sink ∧
    vframes sink = kept_frames (drop_rate p) (vframes v)
                     (frame_draws p (np_random σ) (vframes v)) ∧
    length (frame_draws p (np_random σ) (vframes v)) = length (vframes v) ∧
    Forall (λ u, (0 <= u)%Q ∧ (u < 1)%Q) (frame_draws p (np_random σ) (vframes v)) ∧
    Forall (λ k, (pos (np_random σ) ≤ k)%nat)
           (draw_positions p (pos (np_random σ)) (vframes v)) ∧
    NoDup (draw_positions p (pos (np_random σ)) (vframes v)) ∧
    np_random σ' = Rng (tape (np_random σ))
                       (loop_end p (pos (np_random σ)) (vframes v)) ∧
    ((drop_rate p == 1)%Q → vframes sink = []) ∧
    ((drop_rate p == 0)%Q →
       Forall (λ u, ¬ (u == 0)%Q) (frame_draws p (np_random σ) (vframes v)) →
       vframes sink = vframes v).
Proof.
  intros Hv _ Hfr Hp Hfuel.
  destruct (mspec_total_inv _ _ _ (add_artifacts_exact lib fuel path p σ v Hv Hfr Hp Hfuel))
    as ([] & σ' & Hrun & sink & Hs & Hk & Hnp).
  assert (Hl : length (frame_draws p (np_random σ) (vframes v)) = length (vframes v)).
  { unfold frame_draws. by rewrite length_map, length_draw_positions. }
  assert (Hrange : Forall (λ u, (0 <= u)%Q ∧ (u < 1)%Q)
                     (frame_draws p (np_random σ) (vframes v))).
  { unfold frame_draws. apply Forall_map, Forall_forall. intros k _.
    apply rand_value_range. }
  destruct (draw_positions_fresh p (vframes v) (pos (np_random σ))) as [Hge Hnd].
  exists σ', sink. do 8 (split; [done|]). split.
  - intros Hone. rewrite Hk. apply kept_frames_none; [|done].
    eapply Forall_impl; [exact Hrange|]. by intros u [_ ?].
  - intros Hzero Hnz. rewrite Hk. apply kept_frames_all; [done| |done].
    apply Forall_and. split; [|done].
    eapply Forall_impl; [exact Hrange|]. by intros u [? _].
Qed.

Lemma frame_dropping_forwards_witness :
  ∃ σ' sink,
    add_artifacts sample_library 2 "input_video.mp4" default_params
      (one_frame_world N.of_nat) = Ok () σ' ∧
    videos σ' !! "frame_dropping.mp4" = Some sink ∧
    vframes sink = kept_frames (drop_rate default_params) [flat_frame]
                     (frame_draws default_params (np_random (one_frame_world N.of_nat))
                        [flat_frame]) ∧
    length (frame_draws default_params (np_random (one_frame_world N.of_nat))
              [flat_frame]) = length [flat_frame] ∧
    Forall (λ u, (0 <= u)%Q ∧ (u < 1)%Q)
           (frame_draws default_params (np_random (one_frame_world N.of_nat))
              [flat_frame]) ∧
    Forall (λ k, (pos (np_random (one_frame_world N.of_nat)) ≤ k)%nat)
           (draw_positions default_params (pos (np_random (one_frame_world N.of_nat)))
              [flat_frame]) ∧
    NoDup (draw_positions default_params (pos (np_random (one_frame_world N.of_nat)))
             [flat_frame]) ∧
    np_random σ' = Rng (tape (np_random (one_frame_world N.of_nat)))
                       (loop_end default_params
                          (pos (np_random (one_frame_world N.of_nat))) [flat_frame]) ∧
    ((drop_rate default_params == 1)%Q → vframes sink = []) ∧
    ((drop_rate default_params == 0)%Q →
       Forall (λ u, ¬ (u == 0)%Q)
              (frame_draws default_params (np_random (one_frame_world N.of_nat))
                 [flat_frame]) →
       vframes sink = [flat_frame]).
Proof.
  apply (frame_dropping_forwards sample_library 2 "input_video.mp4" default_params
           (one_frame_world N.of_nat) (Video "avc1" 2 2 30 1 [flat_frame])).
  - vm_compute. reflexivity.
  - by_compute.
  - constructor; [by_compute|constructor].
  - unfold valid_params. simpl. split; [lia|]. split; [lia|].
    split; [right; change (256 / 8) with 32; lia|].
    unfold Qle. simpl. lia.
  - simpl. lia.
Defined.

(** * Further properties of the transforms *)

(** ** Raising *)

Lemma raises_bind {A B} (m : M A) (k : A → M B) σ e :
  raises m σ e → raises (m ≫= k) σ e.
Proof. intros [σ' H]. exists σ'. unfold mbind, M_bind. by rewrite H. Qed.

Lemma raises_bind_ok {A B} (m : M A) (k : A → M B) σ a σ1 e :
  m σ = Ok a σ1 → raises (k a) σ1 e → raises (m ≫= k) σ e.
Proof. intros H [σ' Hk]. exists σ'. unfold mbind, M_bind. by rewrite H. Qed.

Lemma load_ok a f σ : heap σ !! a = Some f → load a σ = Ok f σ.
Proof. unfold load. by intros ->. Qed.

(** ** Colour banding *)

Lemma color_banding_run lib σ a f L :
  heap σ !! a = Some f → uint8_frame f →
  L ≠ 0 → (promotion_rule lib = ValueBased ∨ 0 ≤ 256 / L ≤ 255) →
  color_banding lib a L σ =
    Ok (length (heap σ))
       (set_heap (heap σ ++ [Frame (height f) (width f) (channels f)
                                   (map3 (quantise L) (data f))]) σ).
Proof.
  intros Ha Hu HL Hdom.
  destruct (mspec_total_inv _ _ _
              (color_banding_spec false lib σ a f L Ha Hu (λ _, conj HL Hdom)))
    as (r & σ' & Hrun & -> & ->).
  exact Hrun.
Qed.

Lemma quantise_range L v : 0 < L → 0 ≤ v < 256 → 0 ≤ quantise L v ≤ v.
Proof.
  intros HL Hv. unfold quantise.
  destruct (decide (256 / L = 0)) as [->|Hq]; [rewrite Z.div_0_r; lia|].
  assert (0 < 256 / L) by (pose proof (Z.div_pos 256 L); lia).
  assert (0 ≤ v / (256 / L)) by (apply Z.div_pos; lia).
  pose proof (Z.mul_div_le v (256 / L)). nia.
Qed.

Lemma quantise_idem L v : quantise L (quantise L v) = quantise L v.
Proof.
  unfold quantise. destruct (decide (256 / L = 0)) as [->|Hq].
  - by rewrite !Z.div_0_r.
  - by rewrite Z.div_mul.
Qed.

Lemma uint8_quantised L f :
  0 < L → uint8_frame f →
  uint8_frame (Frame (height f) (width f) (channels f) (map3 (quantise L) (data f))).
Proof.
  intros HL Hu. unfold uint8_frame, map3 in *. simpl.
  rewrite Forall_map. eapply Forall_impl; [exact Hu|]. intros row Hrow. simpl.
  rewrite Forall_map. eapply Forall_impl; [exact Hrow|]. intros p Hp. simpl.
  rewrite Forall_map. eapply Forall_impl; [exact Hp|]. intros v Hv. simpl.
  cbv beta in *. pose proof (quantise_range L v HL Hv). lia.
Qed.

(** X1.  Banding a banded frame again with the same level count changes
    nothing. *)
Theorem color_banding_idempotent lib σ a f L :
  heap σ !! a = Some f → uint8_frame f →
  0 < L → (promotion_rule lib = ValueBased ∨ 2 ≤ L) →
  ∃ r1 σ1 r2 σ2 g,
    color_banding lib a L σ = Ok r1 σ1 ∧
    color_banding lib r1 L σ1 = Ok r2 σ2 ∧
    heap σ2 !! r1 = Some g ∧ heap σ2 !! r2 = Some g.
Proof.
  intros Ha Hu HL Hdom.
  assert (Hq : promotion_rule lib = ValueBased ∨ 0 ≤ 256 / L ≤ 255).
  { destruct Hdom as [|HL2]; [by left|right].
    split; [apply Z.div_pos; lia|].
    assert (256 / L ≤ 256 / 2) by (apply Z.div_le_compat_l; lia).
    change (256 / 2) with 128 in *. lia. }
  pose proof (color_banding_run lib σ a f L Ha Hu ltac:(lia) Hq) as Hrun1.
  set (g := Frame (height f) (width f) (channels f) (map3 (quantise L) (data f))) in *.
  set (σ1 := set_heap (heap σ ++ [g]) σ) in *.
  pose proof (color_banding_run lib σ1 (length (heap σ)) g L
                (lookup_app_length _ _) (uint8_quantised L f HL Hu) ltac:(lia) Hq) as Hrun2.
  eexists _, _, _, _, g. split; [exact Hrun1|]. split; [exact Hrun2|].
  simpl. split.
  - apply lookup_app_l_Some, lookup_app_length.
  - rewrite length_app. simpl.
    replace (length (heap σ) + 1)%nat with (length (heap σ ++ [g])) by (rewrite length_app; simpl; lia).
    rewrite lookup_app_length. f_equal. unfold g. simpl. f_equal.
    rewrite map3_map3. unfold map3. apply map_ext. intros row. apply map_ext. intros p.
    apply map_ext. intros v. apply quantise_idem.
Qed.

Lemma color_banding_idempotent_witness :
  ∃ r1 σ1 r2 σ2 g,
    color_banding sample_library 0%nat 8 (sample_world sample_frame (λ _, 0%N)) = Ok r1 σ1 ∧
    color_banding sample_library r1 8 σ1 = Ok r2 σ2 ∧
    heap σ2 !! r1 = Some g ∧ heap σ2 !! r2 = Some g.
Proof.
  apply (color_banding_idempotent sample_library (sample_world sample_frame (λ _, 0%N))
           0%nat sample_frame 8).
  - reflexivity.
  - by_compute.
  - lia.
  - right. lia.
Defined.

Lemma get_uint8 f i j k v : uint8_frame f → get f i j k = Some v → 0 ≤ v < 256.
Proof.
  unfold uint8_frame, get. intros Hu Hg.
  destruct (data f !! i) as [row|] eqn:Hrow; simplify_eq/=.
  destruct (row !! j) as [p|] eqn:Hp; simplify_eq/=.
  rewrite Forall_lookup in Hu. specialize (Hu _ _ Hrow).
  rewrite Forall_lookup in Hu. specialize (Hu _ _ Hp).
  rewrite Forall_lookup in Hu. by apply (Hu k).
Qed.

Lemma get_quantised L f i j k :
  get (Frame (height f) (width f) (channels f) (map3 (quantise L) (data f))) i j k
  = quantise L <$> get f i j k.
Proof. by rewrite get_map3. Qed.

(** X2.  Banding keeps the order of values: where one element of the input
    is at most another, the same holds of the banded elements. *)
Theorem color_banding_monotone lib σ a f L :
  heap σ !! a = Some f → uint8_frame f →
  0 < L → (promotion_rule lib = ValueBased ∨ 2 ≤ L) →
  ∃ r σ' g,
    color_banding lib a L σ = Ok r σ' ∧ heap σ' !! r = Some g ∧
    ∀ i j k i' j' k' v w,
      get f i j k = Some v → get f i' j' k' = Some w → v ≤ w →
      ∃ v' w', get g i j k = Some v' ∧ get g i' j' k' = Some w' ∧ v' ≤ w'.
Proof.
  intros Ha Hu HL Hdom.
  assert (Hq : promotion_rule lib = ValueBased ∨ 0 ≤ 256 / L ≤ 255).
  { destruct Hdom as [|HL2]; [by left|right].
    split; [apply Z.div_pos; lia|].
    assert (256 / L ≤ 256 / 2) by (apply Z.div_le_compat_l; lia).
    change (256 / 2) with 128 in *. lia. }
  eexists _, _, _. split; [by apply color_banding_run; [..|lia|]|].
  split; [simpl; apply lookup_app_length|].
  intros i j k i' j' k' v w Hv Hw Hvw.
  exists (quantise L v), (quantise L w). rewrite !get_quantised, Hv, Hw.
  split; [done|]. split; [done|]. unfold quantise.
  destruct (decide (256 / L = 0)) as [->|Hq0]; [by rewrite !Z.div_0_r|].
  assert (0 < 256 / L) by (pose proof (Z.div_pos 256 L); lia).
  apply Z.mul_le_mono_nonneg_r; [lia|]. apply Z.div_le_mono; lia.
Qed.

Lemma color_banding_monotone_witness :
  ∃ r σ' g,
    color_banding sample_library 0%nat 8 (sample_world sample_frame (λ _, 0%N)) = Ok r σ' ∧
    heap σ' !! r = Some g ∧
    ∀ i j k i' j' k' v w,
      get sample_frame i j k = Some v → get sample_frame i' j' k' = Some w → v ≤ w →
      ∃ v' w', get g i j k = Some v' ∧ get g i' j' k' = Some w' ∧ v' ≤ w'.
Proof.
  apply (color_banding_monotone sample_library (sample_world sample_frame (λ _, 0%N))
           0%nat sample_frame 8).
  - reflexivity.
  - by_compute.
  - lia.
  - right. lia.
Defined.

(** X3.  A level count of zero makes [color_banding] raise
    [ZeroDivisionError]. *)
Theorem color_banding_zero_levels lib σ a f :
  heap σ !! a = Some f → raises (color_banding lib a 0) σ ZeroDivisionError.
Proof.
  intros Ha. unfold color_banding.
  eapply raises_bind_ok; [by apply load_ok|].
  apply raises_bind. by exists σ.
Qed.

Lemma color_banding_zero_levels_witness :
  raises (color_banding sample_library 0%nat 0)
         (sample_world sample_frame (λ _, 0%N)) ZeroDivisionError.
Proof.
  apply (color_banding_zero_levels sample_library (sample_world sample_frame (λ _, 0%N))
           0%nat sample_frame).
  reflexivity.
Defined.

(** X4.  With more than 256 levels the step [256 // levels] is zero, and the
    banded frame is all zeros: NumPy's integer division by zero yields zero. *)
Theorem color_banding_too_many_levels lib σ a f L :
  heap σ !! a = Some f → uint8_frame f → 256 < L →
  ∃ r σ' g,
    color_banding lib a L σ = Ok r σ' ∧ heap σ' !! r = Some g ∧ same_shape f g ∧
    ∀ i j k v', get g i j k = Some v' → v' = 0.
Proof.
  intros Ha Hu HL.
  assert (Hq : 256 / L = 0) by (apply Z.div_small; lia).
  eexists _, _, _. split; [apply color_banding_run; [done|done|lia|right; lia]|].
  split; [simpl; apply lookup_app_length|]. split; [done|].
  intros i j k v' Hv'. rewrite get_quantised in Hv'.
  destruct (get f i j k) as [v|]; simplify_eq/=.
  unfold quantise. rewrite Hq. lia.
Qed.

Lemma color_banding_too_many_levels_witness :
  ∃ r σ' g,
    color_banding sample_library 0%nat 300 (sample_world sample_frame (λ _, 0%N)) = Ok r σ' ∧
    heap σ' !! r = Some g ∧ same_shape sample_frame g ∧
    ∀ i j k v', get g i j k = Some v' → v' = 0.
Proof.
  apply (color_banding_too_many_levels sample_library
           (sample_world sample_frame (λ _, 0%N)) 0%nat sample_frame 300).
  - reflexivity.
  - by_compute.
  - lia.
Defined.

(** ** Chromatic aberration *)

Lemma roll_roll {A} s t (l : list A) : roll t (roll s l) = roll (s + t) l.
Proof.
  apply list_eq. intros j.
  destruct (decide (j < length l)%nat) as [Hj|Hj].
  - rewrite lookup_roll by (by rewrite length_roll). rewrite length_roll.
    set (N := Z.of_nat (length l)). assert (0 < N) by (unfold N; lia).
    pose proof (Z.mod_pos_bound (Z.of_nat j - t) N ltac:(lia)).
    rewrite !lookup_roll by lia. fold N. f_equal.
    rewrite Z2Nat.id by lia. rewrite Zminus_mod_idemp_l. f_equal. f_equal. lia.
  - rewrite !(proj2 (lookup_ge_None _ _)); [done|rewrite ?length_roll; lia..].
Qed.

Lemma roll_period {A} m (l : list A) : roll (m * Z.of_nat (length l)) l = l.
Proof.
  apply list_eq. intros j.
  destruct (decide (j < length l)%nat) as [Hj|Hj].
  - rewrite lookup_roll by done. f_equal.
    replace (Z.of_nat j - m * Z.of_nat (length l))
      with (Z.of_nat j + (- m) * Z.of_nat (length l)) by lia.
    rewrite Z.mod_add by lia. rewrite Z.mod_small by lia. lia.
  - rewrite !(proj2 (lookup_ge_None _ _)); [done|rewrite ?length_roll; lia..].
Qed.

Lemma aberrate_row_compose s t row :
  aberrate_row t (aberrate_row s row) = aberrate_row (s + t) row.
Proof.
  unfold aberrate_row at 1.
  destruct (channels_of_merged (roll s (channel 0 row)) (channel 1 row)
              (roll (- s) (channel 2 row))) as (H0 & H1 & H2 & _).
  { by rewrite length_roll, !length_channel. }
  { by rewrite !length_roll, !length_channel. }
  fold (aberrate_row s row) in H0, H1, H2. rewrite H0, H1, H2.
  rewrite !roll_roll. unfold aberrate_row. by rewrite Z.opp_add_distr.
Qed.

Lemma aberrate_row_period m row :
  Forall (λ p, length p = 3%nat) row →
  aberrate_row (m * Z.of_nat (length row)) row = row.
Proof.
  intros Hrow. unfold aberrate_row.
  rewrite <- (length_channel 0 row) at 1. rewrite roll_period.
  rewrite <- Z.mul_opp_l. rewrite <- (length_channel 2 row) at 1. rewrite roll_period.
  by apply merge_channels.
Qed.

Lemma chromatic_aberration_run σ a f s :
  heap σ !! a = Some f → wf_frame f →
  channels f = 3%nat → (1 ≤ height f)%nat → (1 ≤ width f)%nat →
  chromatic_aberration a s σ =
    Ok (length (heap σ))
       (set_heap (heap σ ++ [Frame (height f) (width f) 3 (map (aberrate_row s) (data f))]) σ).
Proof.
  intros Ha Hwf Hc Hh Hw.
  destruct (mspec_total_inv _ _ _ (chromatic_aberration_spec false σ a f s Ha Hwf Hc Hh Hw))
    as (r & σ' & Hrun & -> & ->).
  exact Hrun.
Qed.

(** X5.  Two aberrations in a row are one aberration by the sum of the
    shifts. *)
Theorem chromatic_aberration_compose σ a f s t :
  heap σ !! a = Some f → wf_frame f →
  channels f = 3%nat → (1 ≤ height f)%nat → (1 ≤ width f)%nat →
  ∃ r1 σ1 r2 σ2 r3 σ3 g,
    chromatic_aberration a s σ = Ok r1 σ1 ∧
    chromatic_aberration r1 t σ1 = Ok r2 σ2 ∧
    chromatic_aberration a (s + t) σ = Ok r3 σ3 ∧
    heap σ2 !! r2 = Some g ∧ heap σ3 !! r3 = Some g.
Proof.
  intros Ha Hwf Hc Hh Hw.
  pose proof (chromatic_aberration_run σ a f s Ha Hwf Hc Hh Hw) as Hrun1.
  set (G := Frame (height f) (width f) 3 (map (aberrate_row s) (data f))) in *.
  assert (HG : wf_frame G).
  { apply wf_aberrate. unfold wf_frame in Hwf. by rewrite Hc in Hwf. }
  pose proof (chromatic_aberration_run (set_heap (heap σ ++ [G]) σ) (length (heap σ)) G t
                (lookup_app_length _ _) HG eq_refl Hh Hw) as Hrun2.
  pose proof (chromatic_aberration_run σ a f (s + t) Ha Hwf Hc Hh Hw) as Hrun3.
  eexists _, _, _, _, _, _, _.
  split; [exact Hrun1|]. split; [exact Hrun2|]. split; [exact Hrun3|].
  simpl. rewrite !lookup_app_length. split; [|done]. do 2 f_equal.
  rewrite map_map. apply map_ext. intros row. apply aberrate_row_compose.
Qed.

Lemma chromatic_aberration_compose_witness :
  ∃ r1 σ1 r2 σ2 r3 σ3 g,
    chromatic_aberration 0%nat 1 (sample_world sample_frame (λ _, 0%N)) = Ok r1 σ1 ∧
    chromatic_aberration r1 4 σ1 = Ok r2 σ2 ∧
    chromatic_aberration 0%nat (1 + 4) (sample_world sample_frame (λ _, 0%N)) = Ok r3 σ3 ∧
    heap σ2 !! r2 = Some g ∧ heap σ3 !! r3 = Some g.
Proof.
  apply (chromatic_aberration_compose (sample_world sample_frame (λ _, 0%N)) 0%nat
           sample_frame 1 4).
  - reflexivity.
  - by_compute.
  - reflexivity.
  - simpl. lia.
  - simpl. lia.
Defined.

(** X6.  A shift by a multiple of the frame width, zero included, gives a
    frame equal to the input. *)
Theorem chromatic_aberration_full_turn σ a f m :
  heap σ !! a = Some f → wf_frame f →
  channels f = 3%nat → (1 ≤ height f)%nat → (1 ≤ width f)%nat →
  ∃ r σ',
    chromatic_aberration a (m * Z.of_nat (width f)) σ = Ok r σ' ∧ r ≠ a ∧
    heap σ' !! r = Some f.
Proof.
  intros Ha Hwf Hc Hh Hw.
  eexists _, _. split; [by apply chromatic_aberration_run|].
  pose proof (lookup_lt_Some _ _ _ Ha). split; [lia|].
  simpl. rewrite lookup_app_length. f_equal.
  destruct f as [h w c d]. simpl in *. subst c. f_equal.
  rewrite <- (map_id d) at 2.
  apply map_ext_Forall. destruct Hwf as [_ Hd]. eapply Forall_impl; [exact Hd|].
  intros row [Hrw Hrow]. simpl in *. rewrite <- Hrw. by apply aberrate_row_period.
Qed.

Lemma chromatic_aberration_full_turn_witness :
  ∃ r σ',
    chromatic_aberration 0%nat (2 * Z.of_nat (width sample_frame))
      (sample_world sample_frame (λ _, 0%N)) = Ok r σ' ∧ r ≠ 0%nat ∧
    heap σ' !! r = Some sample_frame.
Proof.
  apply (chromatic_aberration_full_turn (sample_world sample_frame (λ _, 0%N)) 0%nat
           sample_frame 2).
  - reflexivity.
  - by_compute.
  - reflexivity.
  - simpl. lia.
  - simpl. lia.
Defined.

(** X7.  On a frame whose channel count is not three the unpacking [b, g, r
    = cv2.split(frame)] fails: [chromatic_aberration] raises [ValueError]. *)
Theorem chromatic_aberration_wrong_channels σ a f s :
  heap σ !! a = Some f →
  (1 ≤ height f)%nat → (1 ≤ width f)%nat → (1 ≤ channels f)%nat → channels f ≠ 3%nat →
  raises (chromatic_aberration a s) σ ValueError.
Proof.
  intros Ha Hh Hw Hc Hc3. unfold chromatic_aberration.
  eapply raises_bind_ok; [by apply load_ok|].
  unfold cv_split, is_empty.
  destruct (Nat.eqb_spec (height f) 0); [lia|].
  destruct (Nat.eqb_spec (width f) 0); [lia|].
  destruct (Nat.eqb_spec (channels f) 0); [lia|]. simpl.
  destruct (channels f) as [|[|[|[|c]]]]; try lia; by eexists.
Qed.

Lemma chromatic_aberration_wrong_channels_witness :
  raises (chromatic_aberration 0%nat 2)
         (sample_world (Frame 1 1 4 [[[1; 2; 3; 4]]]) (λ _, 0%N)) ValueError.
Proof.
  apply (chromatic_aberration_wrong_channels
           (sample_world (Frame 1 1 4 [[[1; 2; 3; 4]]]) (λ _, 0%N)) 0%nat
           (Frame 1 1 4 [[[1; 2; 3; 4]]]) 2).
  - reflexivity.
  - simpl. lia.
  - simpl. lia.
  - simpl. lia.
  - simpl. lia.
Defined.

(** ** Elements of frames *)

Lemma get_Some_lt f i j k v :
  wf_frame f → get f i j k = Some v →
  (i < height f)%nat ∧ (j < width f)%nat ∧ (k < channels f)%nat.
Proof.
  intros Hwf Hg. unfold get in Hg.
  destruct (data f !! i) as [row|] eqn:Hrow; simplify_eq/=.
  destruct (row !! j) as [p|] eqn:Hp; simplify_eq/=.
  pose proof (wf_row_length _ _ _ Hwf Hrow).
  pose proof (wf_pixel_length _ _ _ _ _ Hwf Hrow Hp).
  apply lookup_lt_Some in Hrow, Hp, Hg. destruct Hwf as [Hh _]. lia.
Qed.

Lemma get_lt_Some f i j k :
  wf_frame f → (i < height f)%nat → (j < width f)%nat → (k < channels f)%nat →
  is_Some (get f i j k).
Proof.
  intros Hwf Hi Hj Hk. unfold get.
  destruct (lookup_lt_is_Some_2 (data f) i) as [row Hrow]; [destruct Hwf; lia|].
  rewrite Hrow. simpl.
  destruct (lookup_lt_is_Some_2 row j) as [p Hp].
  { rewrite (wf_row_length _ _ _ Hwf Hrow). lia. }
  rewrite Hp. simpl. apply lookup_lt_is_Some_2.
  rewrite (wf_pixel_length _ _ _ _ _ Hwf Hrow Hp). lia.
Qed.

Lemma nth_get f i j k v :
  get f i j k = Some v → nth k (nth j (nth i (data f) []) []) 0 = v.
Proof.
  unfold get. intros Hg.
  destruct (data f !! i) as [row|] eqn:Hrow; simplify_eq/=.
  destruct (row !! j) as [p|] eqn:Hp; simplify_eq/=.
  rewrite (nth_lookup_Some _ _ _ _ Hrow), (nth_lookup_Some _ _ _ _ Hp).
  by apply nth_lookup_Some.
Qed.

(** Two well-formed frames of one shape with the same elements are equal. *)
Lemma frame_ext f g :
  wf_frame f → wf_frame g → same_shape f g →
  (∀ i j k, get g i j k = get f i j k) → g = f.
Proof.
  intros Hf Hg (Hh & Hw & Hc) Hget.
  rewrite <- (build_self f Hf), <- (build_self g Hg), Hh, Hw, Hc.
  apply build_ext. intros i j k Hi Hj Hk.
  destruct (get_lt_Some f i j k Hf Hi Hj Hk) as [v Hv].
  rewrite (nth_get f i j k v Hv). apply nth_get. by rewrite Hget.
Qed.

Lemma get_build h w c g i j k :
  (i < h)%nat → (j < w)%nat → (k < c)%nat → get (build h w c g) i j k = Some (g i j k).
Proof.
  intros Hi Hj Hk. unfold get, build. simpl.
  rewrite lookup_tabulate by done. simpl.
  rewrite lookup_tabulate by done. simpl.
  by rewrite lookup_tabulate.
Qed.

Lemma get_zip_with3 (op : Z → Z → Z) h w c d1 d2 i j k :
  get (Frame h w c (zip_with (zip_with (zip_with op)) d1 d2)) i j k =
  x ← get (Frame h w c d1) i j k; y ← get (Frame h w c d2) i j k; Some (op x y).
Proof.
  unfold get. simpl. rewrite lookup_zip_with.
  destruct (d1 !! i) as [r1|]; simpl; [|done].
  destruct (d2 !! i) as [r2|]; simpl; [|by destruct (r1 !! j) as [p|]; simpl;
                                          [destruct (p !! k)|]].
  rewrite lookup_zip_with.
  destruct (r1 !! j) as [p1|]; simpl; [|done].
  destruct (r2 !! j) as [p2|]; simpl; [|by destruct (p1 !! k)].
  by rewrite lookup_zip_with.
Qed.

(** ** Gaussian noise *)

(** The result of [gaussian_noise] is the saturated sum of the input and
    of an 8-bit noise array; each noise element is a rounded, saturated
    multiple of the noise level. *)
Lemma gaussian_noise_spec b lib σ a f noise_level :
  heap σ !! a = Some f → wf_frame f →
  mspec b (gaussian_noise lib a noise_level) σ (λ r σ',
    r ≠ a ∧
    ∃ n, wf_frame n ∧ same_shape f n ∧
      (∀ i j k x, get n i j k = Some x →
         ∃ s, x = saturate_u8 (cvRound (0 + noise_level * s))) ∧
      heap σ' !! r =
        Some (Frame (height f) (width f) (channels f)
                (zip_with (zip_with (zip_with (λ a b, saturate_u8 (a + b))))
                          (data f) (data n)))).
Proof.
  intros Ha Hwf. unfold gaussian_noise.
  pose proof (lookup_lt_Some _ _ _ Ha) as Hlt.
  mstep. eapply mspec_load; [done|]. msteps. unfold cv_randn.
  mstep. eapply mspec_load. { simpl. apply lookup_app_length. }
  mstep. unfold mspec at 1, cv_rng_fill. cbv beta zeta. simpl height. simpl width.
  simpl channels.
  set (n := build (height f) (width f) (channels f) _).
  apply mspec_store. { simpl. rewrite lookup_app_length. eauto. }
  mstep. eapply mspec_load. { simpl. rewrite insert_app_length. apply lookup_app_length. }
  unfold cv_add. simpl height. simpl width. simpl channels. rewrite !Nat.eqb_refl. simpl.
  msteps. simpl. rewrite insert_app_length, length_app. simpl. split; [lia|].
  exists n. split; [apply wf_build|]. split; [done|]. split.
  - intros i j k x Hx.
    destruct (get_Some_lt n i j k x (wf_build _ _ _ _) Hx) as (Hi & Hj & Hk). simpl in *.
    unfold n in Hx. rewrite get_build in Hx by done. injection Hx as <-. eauto.
  - replace (length (heap σ) + 1)%nat with (length (heap σ ++ [n]))
      by (rewrite length_app; simpl; lia).
    by rewrite lookup_app_length.
Qed.

(** X8.  The noise of [gaussian_noise] only brightens: every element of the
    result is at least the element of the video frame at the same place, and
    at most 255. *)
Theorem gaussian_noise_never_darkens lib σ a f noise_level :
  heap σ !! a = Some f → video_frame f →
  ∃ r σ' g,
    gaussian_noise lib a noise_level σ = Ok r σ' ∧ heap σ' !! r = Some g ∧
    ∀ i j k v, get f i j k = Some v → ∃ v', get g i j k = Some v' ∧ v ≤ v' ≤ 255.
Proof.
  intros Ha (Hwf & Hu & _).
  destruct (mspec_total_inv _ _ _ (gaussian_noise_spec false lib σ a f noise_level Ha Hwf))
    as (r & σ' & Hrun & _ & n & Hn & (Hh & Hw & Hc) & Hnoise & Hr).
  eexists _, _, _. split; [exact Hrun|]. split; [exact Hr|].
  intros i j k v Hv. rewrite get_zip_with3.
  change (get (Frame (height f) (width f) (channels f) (data f)) i j k) with (get f i j k).
  change (get (Frame (height f) (width f) (channels f) (data n)) i j k) with (get n i j k).
  rewrite Hv. simpl.
  destruct (get_Some_lt f i j k v Hwf Hv) as (Hi & Hj & Hk).
  destruct (get_lt_Some n i j k Hn) as [x Hx]; [lia..|].
  rewrite Hx. simpl. eexists. split; [done|].
  destruct (Hnoise _ _ _ _ Hx) as [s ->].
  pose proof (get_uint8 _ _ _ _ _ Hu Hv). unfold saturate_u8. lia.
Qed.

Lemma gaussian_noise_never_darkens_witness :
  ∃ r σ' g,
    gaussian_noise sample_library 0%nat 80 (sample_world sample_frame N.of_nat) = Ok r σ' ∧
    heap σ' !! r = Some g ∧
    ∀ i j k v, get sample_frame i j k = Some v →
      ∃ v', get g i j k = Some v' ∧ v ≤ v' ≤ 255.
Proof.
  apply (gaussian_noise_never_darkens sample_library (sample_world sample_frame N.of_nat)
           0%nat sample_frame 80).
  - reflexivity.
  - by_compute.
Defined.

(** X9.  With a noise level of zero the noise array is all zeros and the
    result equals the video frame. *)
Theorem gaussian_noise_level_zero lib σ a f :
  heap σ !! a = Some f → video_frame f →
  ∃ r σ', gaussian_noise lib a 0 σ = Ok r σ' ∧ r ≠ a ∧ heap σ' !! r = Some f.
Proof.
  intros Ha (Hwf & Hu & _).
  destruct (mspec_total_inv _ _ _ (gaussian_noise_spec false lib σ a f 0 Ha Hwf))
    as (r & σ' & Hrun & Hra & n & Hn & (Hh & Hw & Hc) & Hnoise & Hr).
  eexists _, _. split; [exact Hrun|]. split; [done|]. rewrite Hr. f_equal.
  apply frame_ext; [done| |done|].
  - destruct Hwf as [Hfh Hfd], Hn as [Hnh Hnd]. rewrite Hh, Hw, Hc in *.
    apply has_shape_zip_with; [|done|done].
    intros p q Hp Hq. rewrite length_zip_with. lia.
  - intros i j k. rewrite get_zip_with3.
    change (get (Frame (height f) (width f) (channels f) (data f)) i j k) with (get f i j k).
    change (get (Frame (height f) (width f) (channels f) (data n)) i j k) with (get n i j k).
    destruct (get f i j k) as [v|] eqn:Hv; simpl; [|done].
    destruct (get_Some_lt f i j k v Hwf Hv) as (Hi & Hj & Hk).
    destruct (get_lt_Some n i j k Hn) as [x Hx]; [lia..|].
    rewrite Hx. simpl. f_equal.
    destruct (Hnoise _ _ _ _ Hx) as [s ->].
    rewrite (cvRound_integer _ 0) by ring.
    pose proof (get_uint8 _ _ _ _ _ Hu Hv). unfold saturate_u8. lia.
Qed.

Lemma gaussian_noise_level_zero_witness :
  ∃ r σ', gaussian_noise sample_library 0%nat 0 (sample_world sample_frame N.of_nat)
            = Ok r σ' ∧ r ≠ 0%nat ∧ heap σ' !! r = Some sample_frame.
Proof.
  apply (gaussian_noise_level_zero sample_library (sample_world sample_frame N.of_nat)
           0%nat sample_frame).
  - reflexivity.
  - by_compute.
Defined.

(** ** Sums *)

Lemma Qsum_map_ext {A} (f g : A → Q) l :
  (∀ x, x ∈ l → (f x == g x)%Q) → (Qsum (map f l) == Qsum (map g l))%Q.
Proof.
  induction l as [|x l IH]; intros H; simpl; [reflexivity|].
  rewrite (H x) by left. rewrite IH; [reflexivity|].
  intros y Hy. apply H. by right.
Qed.

Lemma Qsum_map_scale {A} (f : A → Q) c l :
  (Qsum (map (λ x, c * f x) l) == c * Qsum (map f l))%Q.
Proof. induction l as [|x l IH]; simpl; [ring|]. rewrite IH. ring. Qed.

Lemma Qsum_map_zero {A} (f : A → Q) l :
  (∀ x, x ∈ l → (f x == 0)%Q) → (Qsum (map f l) == 0)%Q.
Proof.
  induction l as [|x l IH]; intros H; simpl; [reflexivity|].
  rewrite (H x) by left. rewrite IH; [ring|]. intros y Hy. apply H. by right.
Qed.

Lemma Qsum_map_single {A} (f : A → Q) l r :
  NoDup l → r ∈ l → (∀ x, x ∈ l → x ≠ r → (f x == 0)%Q) →
  (Qsum (map f l) == f r)%Q.
Proof.
  induction 1 as [|x l Hx Hl IH]; intros Hr H; [by apply elem_of_nil in Hr|].
  simpl. apply elem_of_cons in Hr as [->|Hr].
  - rewrite Qsum_map_zero; [ring|]. intros y Hy. apply H; [by right|]. by intros ->.
  - rewrite (H x); [|by left|by intros ->]. rewrite IH; [ring|done|].
    intros y Hy. apply H. by right.
Qed.

Lemma Qsum_map_const {A} (c : Q) (l : list A) :
  (Qsum (map (λ _, c) l) == inject_Z (Z.of_nat (length l)) * c)%Q.
Proof.
  induction l as [|x l IH]; [simpl; ring|].
  change (Qsum (map (λ _, c) (x :: l))) with (c + Qsum (map (λ _ : A, c) l))%Q.
  rewrite IH. change (length (x :: l)) with (S (length l)).
  rewrite Nat2Z.inj_succ. unfold Z.succ. rewrite inject_Z_plus. ring.
Qed.

Lemma imap_tabulate {A B} (g : nat → A → B) n (f : nat → A) :
  imap g (tabulate n f) = tabulate n (λ i, g i (f i)).
Proof.
  apply list_eq. intros i. rewrite list_lookup_imap.
  destruct (decide (i < n)%nat).
  - by rewrite !lookup_tabulate.
  - by rewrite !lookup_tabulate_ge by lia.
Qed.

Lemma cvRound_proper q q' : (q == q')%Q → cvRound q = cvRound q'.
Proof.
  intros H. unfold cvRound. rewrite (Qfloor_comp _ _ H).
  assert (q - inject_Z (Qfloor q') == q' - inject_Z (Qfloor q'))%Q as -> by (by rewrite H).
  done.
Qed.

Lemma borderInterpolate_range p len : 1 ≤ len → 0 ≤ borderInterpolate p len < len.
Proof.
  intros Hlen. unfold borderInterpolate.
  destruct (Z.eqb_spec len 1); [lia|].
  pose proof (Z.mod_pos_bound p (2 * (len - 1)) ltac:(lia)).
  destruct (Z.ltb_spec (p mod (2 * (len - 1))) len); lia.
Qed.

(** ** Motion blur *)

Lemma line_kernel_row kernel_size :
  1 ≤ kernel_size →
  norm_index (Z.to_nat kernel_size) ((kernel_size - 1) ÷ 2)
  = Some (Z.to_nat ((kernel_size - 1) / 2)).
Proof.
  intros Hk. rewrite Z.quot_div_nonneg by lia. unfold norm_index.
  pose proof (Z.div_pos (kernel_size - 1) 2 ltac:(lia) ltac:(lia)).
  assert ((kernel_size - 1) / 2 < kernel_size)
    by (apply Z.div_lt_upper_bound; lia).
  destruct (Z.leb_spec 0 ((kernel_size - 1) / 2)); [|lia].
  destruct (Z.ltb_spec ((kernel_size - 1) / 2) (Z.of_nat (Z.to_nat kernel_size))); [|lia].
  done.
Qed.

Lemma kernel_row_offset kernel_size :
  1 ≤ kernel_size →
  (kernel_size - 1) / 2 - kernel_size / 2 = if Z.odd kernel_size then 0 else -1.
Proof.
  intros Hk. pose proof (Z.div_mod kernel_size 2 ltac:(lia)) as Hdiv.
  pose proof (Z.mod_pos_bound kernel_size 2 ltac:(lia)) as Hmod.
  rewrite Zodd_mod. destruct (Z.eqb_spec (kernel_size mod 2) 1) as [H1|H1].
  - replace (kernel_size - 1) with (kernel_size / 2 * 2) by lia.
    rewrite Z.div_mul by lia. lia.
  - replace (kernel_size - 1) with (1 + (kernel_size / 2 - 1) * 2) by lia.
    rewrite Z.div_add by lia. change (1 / 2) with 0. lia.
Qed.

(** [motion_blur] with a kernel of size at least one: the fresh result holds
    the rounded row means of the input. *)
Lemma motion_blur_spec b σ a f kernel_size :
  heap σ !! a = Some f → is_empty f = false → 1 ≤ kernel_size →
  mspec b (motion_blur a kernel_size) σ (λ r σ',
    r = length (heap σ) ∧
    σ' = set_heap (heap σ ++
           [build (height f) (width f) (channels f) (λ y x ch,
              saturate_u8 (cvRound (row_mean f kernel_size y x ch)))]) σ).
Proof.
  intros Ha He Hk. unfold motion_blur, line_kernel.
  destruct (Z.ltb_spec kernel_size 0); [lia|].
  rewrite line_kernel_row by done.
  mstep. mstep. mstep. mstep. mstep. eapply mspec_load; [done|].
  unfold cv_filter2D. rewrite He. simpl.
  mstep. mstep. mstep. split; [done|]. do 3 f_equal.
  apply build_ext. intros y x ch Hy Hx Hch. f_equal. apply cvRound_proper.
  rewrite length_tabulate.
  assert (length (hd [] (tabulate (Z.to_nat kernel_size) (λ i,
            tabulate (Z.to_nat kernel_size) (λ _ : nat,
              ((if (i =? Z.to_nat ((kernel_size - 1) / 2))%nat then 1 else 0)
               / inject_Z kernel_size)%Q)))) = Z.to_nat kernel_size) as ->.
  { unfold tabulate at 1. destruct (Z.to_nat kernel_size) as [|n] eqn:Hn; [lia|].
    change (seq 0 (S n)) with (0%nat :: seq 1 n). cbn [map hd].
    by rewrite length_tabulate. }
  rewrite Z2Nat.id by lia.
  rewrite imap_tabulate. unfold tabulate at 1.
  rewrite (Qsum_map_single _ _ (Z.to_nat ((kernel_size - 1) / 2))).
  - rewrite Nat.eqb_refl, imap_tabulate. unfold row_mean, tabulate.
    rewrite (Qsum_map_ext _ (λ j, 1 / inject_Z kernel_size *
       inject_Z (at3 f
         (borderInterpolate (Z.of_nat y + (if Z.odd kernel_size then 0 else -1))
            (Z.of_nat (height f)))
         (borderInterpolate (Z.of_nat x + Z.of_nat j - kernel_size / 2)
            (Z.of_nat (width f))) ch))%Q).
    + rewrite Qsum_map_scale. field. change 0%Q with (inject_Z 0).
      rewrite inject_Z_injective. lia.
    + intros j _. rewrite Z2Nat.id by (apply Z.div_pos; lia).
      rewrite <- (kernel_row_offset kernel_size Hk).
      replace (Z.of_nat y + (kernel_size - 1) / 2 - kernel_size / 2)
        with (Z.of_nat y + ((kernel_size - 1) / 2 - kernel_size / 2)) by lia.
      reflexivity.
  - apply NoDup_seq.
  - apply elem_of_seq. pose proof (Z.div_pos (kernel_size - 1) 2 ltac:(lia) ltac:(lia)).
    assert ((kernel_size - 1) / 2 < kernel_size) by (apply Z.div_lt_upper_bound; lia).
    lia.
  - intros i _ Hi. destruct (Nat.eqb_spec i (Z.to_nat ((kernel_size - 1) / 2))); [done|].
    rewrite imap_tabulate. unfold tabulate. apply Qsum_map_zero.
    intros j _. field. change 0%Q with (inject_Z 0).
    rewrite inject_Z_injective. lia.
Qed.

Lemma nth_tabulate {A} n (g : nat → A) i d : (i < n)%nat → nth i (tabulate n g) d = g i.
Proof. intros Hi. apply nth_lookup_Some. by apply lookup_tabulate. Qed.

Lemma at3_build h w c g i j k :
  0 ≤ i < Z.of_nat h → 0 ≤ j < Z.of_nat w → (k < c)%nat →
  at3 (build h w c g) i j k = g (Z.to_nat i) (Z.to_nat j) k.
Proof.
  intros Hi Hj Hk. unfold at3, build. simpl.
  rewrite nth_tabulate by lia. rewrite nth_tabulate by lia. by rewrite nth_tabulate.
Qed.

Lemma is_empty_false f :
  (1 ≤ height f)%nat → (1 ≤ width f)%nat → (1 ≤ channels f)%nat → is_empty f = false.
Proof.
  intros Hh Hw Hc. unfold is_empty.
  destruct (Nat.eqb_spec (height f) 0); [lia|].
  destruct (Nat.eqb_spec (width f) 0); [lia|].
  destruct (Nat.eqb_spec (channels f) 0); [lia|]. done.
Qed.

(** X10.  For an odd kernel size [motion_blur] is a horizontal moving
    average: every element of the result is the rounded mean of
    [kernel_size] neighbours of the input in the same row and channel,
    mirrored at the left and right borders. The input is not changed. *)
Theorem motion_blur_row_means σ a f kernel_size :
  heap σ !! a = Some f → wf_frame f → uint8_frame f →
  (1 ≤ height f)%nat → (1 ≤ width f)%nat → (1 ≤ channels f)%nat →
  1 ≤ kernel_size → Z.odd kernel_size = true →
  ∃ r σ' g,
    motion_blur a kernel_size σ = Ok r σ' ∧ heap σ' !! r = Some g ∧
    heap σ' !! a = Some f ∧ same_shape f g ∧
    ∀ y x ch, (y < height f)%nat → (x < width f)%nat → (ch < channels f)%nat →
      get g y x ch =
      Some (saturate_u8 (cvRound
        (Qsum (tabulate (Z.to_nat kernel_size) (λ j,
           inject_Z (at3 f (Z.of_nat y)
                       (borderInterpolate (Z.of_nat x + Z.of_nat j - kernel_size / 2)
                                          (Z.of_nat (width f)))
                       ch)))
         / inject_Z kernel_size)%Q)).
Proof.
  intros Ha Hwf Hu Hh Hw Hc Hk Hodd.
  destruct (mspec_total_inv _ _ _
              (motion_blur_spec false σ a f kernel_size Ha
                 (is_empty_false f Hh Hw Hc) Hk))
    as (r & σ' & Hrun & -> & ->).
  eexists _, _, _. split; [exact Hrun|]. simpl.
  split; [apply lookup_app_length|].
  split; [by apply lookup_app_l_Some|]. split; [done|].
  intros y x ch Hy Hx Hch. rewrite get_build by done.
  unfold row_mean. rewrite Hodd, Z.add_0_r, borderInterpolate_inside by lia. done.
Qed.

Lemma motion_blur_row_means_witness :
  ∃ r σ' g,
    motion_blur 0%nat 3 (sample_world sample_frame N.of_nat) = Ok r σ' ∧
    heap σ' !! r = Some g ∧
    heap σ' !! 0%nat = Some sample_frame ∧ same_shape sample_frame g ∧
    ∀ y x ch, (y < height sample_frame)%nat → (x < width sample_frame)%nat →
      (ch < channels sample_frame)%nat →
      get g y x ch =
      Some (saturate_u8 (cvRound
        (Qsum (tabulate (Z.to_nat 3) (λ j,
           inject_Z (at3 sample_frame (Z.of_nat y)
                       (borderInterpolate (Z.of_nat x + Z.of_nat j - 3 / 2)
                                          (Z.of_nat (width sample_frame)))
                       ch)))
         / inject_Z 3)%Q)).
Proof.
  apply (motion_blur_row_means (sample_world sample_frame N.of_nat) 0%nat sample_frame 3).
  - reflexivity.
  - by_compute.
  - by_compute.
  - simpl; lia.
  - simpl; lia.
  - simpl; lia.
  - lia.
  - reflexivity.
Defined.

Lemma row_mean_flat h w c v kernel_size y x ch :
  (1 ≤ h)%nat → (1 ≤ w)%nat → (ch < c)%nat → 1 ≤ kernel_size →
  (row_mean (build h w c (λ _ _ _, v)) kernel_size y x ch == inject_Z v)%Q.
Proof.
  intros Hh Hw Hch Hk. unfold row_mean, tabulate.
  rewrite (Qsum_map_ext _ (λ _, inject_Z v)).
  - rewrite Qsum_map_const, length_seq, Z2Nat.id by lia. field.
    change 0%Q with (inject_Z 0). rewrite inject_Z_injective. lia.
  - intros j _. simpl height. simpl width.
    rewrite at3_build; [reflexivity| | |done]; apply borderInterpolate_range; lia.
Qed.

(** X11.  A frame of one colour value is a fixed point of [motion_blur],
    whatever the kernel size: the weights of the kernel add up to one. *)
Theorem motion_blur_flat_frame σ a h w c v kernel_size :
  heap σ !! a = Some (build h w c (λ _ _ _, v)) →
  (1 ≤ h)%nat → (1 ≤ w)%nat → (1 ≤ c)%nat → 0 ≤ v < 256 →
  1 ≤ kernel_size →
  ∃ r σ',
    motion_blur a kernel_size σ = Ok r σ' ∧ r ≠ a ∧
    heap σ' !! r = Some (build h w c (λ _ _ _, v)).
Proof.
  intros Ha Hh Hw Hc Hv Hk.
  destruct (mspec_total_inv _ _ _
              (motion_blur_spec false σ a _ kernel_size Ha
                 (is_empty_false (build h w c (λ _ _ _, v)) Hh Hw Hc) Hk))
    as (r & σ' & Hrun & -> & ->).
  eexists _, _. split; [exact Hrun|]. simpl.
  split; [apply lookup_lt_Some in Ha; lia|].
  rewrite lookup_app_length. f_equal. apply build_ext.
  intros y x ch Hy Hx Hch.
  rewrite (cvRound_integer _ v) by (by apply row_mean_flat).
  by apply saturate_u8_id.
Qed.

Lemma motion_blur_flat_frame_witness :
  ∃ r σ',
    motion_blur 0%nat 15 (sample_world (build 2 3 3 (λ _ _ _, 7)) N.of_nat) = Ok r σ' ∧
    r ≠ 0%nat ∧ heap σ' !! r = Some (build 2 3 3 (λ _ _ _, 7)).
Proof.
  apply (motion_blur_flat_frame (sample_world (build 2 3 3 (λ _ _ _, 7)) N.of_nat)
           0%nat 2 3 3 7 15).
  - reflexivity.
  - lia.
  - lia.
  - lia.
  - lia.
  - lia.
Defined.

Lemma motion_blur_raises σ a kernel_size :
  kernel_size ≤ 0 →
  raises (motion_blur a kernel_size) σ (if kernel_size <? 0 then ValueError else IndexError).
Proof.
  intros Hk. exists σ. unfold motion_blur, line_kernel.
  destruct (Z.ltb_spec kernel_size 0); [done|].
  assert (kernel_size = 0) as -> by lia. done.
Qed.

(** X12.  A kernel size below one makes [motion_blur] raise before it looks
    at the frame: a negative size is refused when the kernel is allocated
    ([ValueError]), a size of zero when its middle row is assigned
    ([IndexError]). *)
Theorem motion_blur_no_kernel σ a kernel_size :
  kernel_size ≤ 0 →
  raises (motion_blur a kernel_size) σ
         (if kernel_size <? 0 then ValueError else IndexError).
Proof.
  intros Hk. exists σ. unfold motion_blur, line_kernel.
  destruct (Z.ltb_spec kernel_size 0) as [Hneg|Hpos]; [done|].
  assert (kernel_size = 0) as -> by lia.
  unfold norm_index. simpl. done.
Qed.

Lemma motion_blur_no_kernel_witness :
  raises (motion_blur 0%nat 0) (sample_world sample_frame N.of_nat) IndexError.
Proof.
  apply (motion_blur_no_kernel (sample_world sample_frame N.of_nat) 0%nat 0). lia.
Defined.

(** ** Salt and pepper *)

Lemma randint_negative low high n σ :
  n < 0 → raises (np_random_randint low high n) σ ValueError.
Proof.
  intros Hn. exists σ. unfold np_random_randint.
  by destruct (Z.ltb_spec n 0); [|lia].
Qed.

Lemma randint_empty_range low high n σ :
  1 ≤ n → high ≤ low → raises (np_random_randint low high n) σ ValueError.
Proof.
  intros Hn Hr. exists σ. unfold np_random_randint.
  destruct (Z.ltb_spec n 0); [lia|]. destruct (Z.eqb_spec n 0); [lia|].
  by destruct (Z.leb_spec high low); [|lia].
Qed.

Lemma randint_returns low high n σ :
  1 ≤ n → low < high → ∃ l σ', np_random_randint low high n σ = Ok l σ'.
Proof.
  intros Hn Hr. unfold np_random_randint.
  destruct (Z.ltb_spec n 0); [lia|]. destruct (Z.eqb_spec n 0); [lia|].
  destruct (Z.leb_spec high low); [lia|]. eauto.
Qed.

(** X13.  With a count that rounds to zero (an amount of zero, say), the
    count being [sp_count], whose products are rounded as floats are,
    [salt_and_pepper_noise] paints nothing and draws nothing: the result is
    a copy that equals the input, and NumPy's generator is where it was. *)
Theorem salt_and_pepper_noise_nothing_to_paint σ a f amount :
  heap σ !! a = Some f →
  (2 ≤ height f)%nat → (2 ≤ width f)%nat → (2 ≤ channels f)%nat →
  sp_count f amount = 0 →
  ∃ r σ',
    salt_and_pepper_noise a amount σ = Ok r σ' ∧ r ≠ a ∧
    heap σ' !! r = Some f ∧ heap σ' !! a = Some f ∧
    np_random σ' = np_random σ.
Proof.
  intros Ha _ _ _ Hn.
  destruct (mspec_total_inv _ _ _
              (salt_and_pepper_noise_spec false σ a f amount Ha
                 ltac:(intros _; rewrite Hn; split; [lia|by left])))
    as (r & σ' & Hrun & -> & salt & pepper & _ & Hls & Hlp & _ & _ & Hheap & Hrest & Hpos).
  rewrite Hn in Hls, Hlp.
  apply length_zero_iff_nil in Hls as ->. apply length_zero_iff_nil in Hlp as ->.
  simpl in Hheap, Hpos.
  eexists _, _. split; [exact Hrun|].
  split; [apply lookup_lt_Some in Ha; lia|].
  rewrite Hheap. split; [apply lookup_app_length|].
  split; [by apply lookup_app_l_Some|].
  destruct Hrest as (_ & _ & _ & _ & _ & Htape & _).
  destruct (np_random σ') as [t' p'], (np_random σ) as [t p]. simpl in *.
  f_equal; [done|lia].
Qed.

Lemma salt_and_pepper_noise_nothing_to_paint_witness :
  ∃ r σ',
    salt_and_pepper_noise 0%nat 0 (sample_world sample_frame N.of_nat) = Ok r σ' ∧
    r ≠ 0%nat ∧
    heap σ' !! r = Some sample_frame ∧ heap σ' !! 0%nat = Some sample_frame ∧
    np_random σ' = np_random (sample_world sample_frame N.of_nat).
Proof.
  apply (salt_and_pepper_noise_nothing_to_paint
           (sample_world sample_frame N.of_nat) 0%nat sample_frame 0).
  - reflexivity.
  - simpl; lia.
  - simpl; lia.
  - simpl; lia.
  - reflexivity.
Defined.

(** X14.  A negative amount on a frame that is not empty gives a negative
    count, and [salt_and_pepper_noise] raises [ValueError] at the first
    request to the generator. *)
Theorem salt_and_pepper_noise_negative_count σ a f amount :
  heap σ !! a = Some f → sp_count f amount < 0 →
  raises (salt_and_pepper_noise a amount) σ ValueError.
Proof.
  intros Ha Hn. unfold salt_and_pepper_noise.
  eapply raises_bind_ok; [by apply load_ok|].
  eapply raises_bind_ok; [reflexivity|]. cbv beta zeta.
  fold (sp_count f amount). apply raises_bind. unfold shape.
  change (mapM ?g (?x :: ?l)) with (y ← g x; k ← mapM g l; mret (y :: k)).
  apply raises_bind. by apply randint_negative.
Qed.

Lemma salt_and_pepper_noise_negative_count_witness :
  raises (salt_and_pepper_noise 0%nat (- (1 # 2)))
         (sample_world sample_frame N.of_nat) ValueError.
Proof.
  apply (salt_and_pepper_noise_negative_count
           (sample_world sample_frame N.of_nat) 0%nat sample_frame (- (1 # 2))).
  - reflexivity.
  - vm_compute. reflexivity.
Defined.

(** X15.  With at least one location to paint, [salt_and_pepper_noise]
    raises [ValueError] on every frame that has a single row, a single
    column or a single channel (or none): the upper bound [i - 1] it passes
    to the generator for that axis is not above the lower bound 0. *)
Theorem salt_and_pepper_noise_thin_frame σ a f amount :
  heap σ !! a = Some f → 1 ≤ sp_count f amount →
  (height f ≤ 1 ∨ width f ≤ 1 ∨ channels f ≤ 1)%nat →
  raises (salt_and_pepper_noise a amount) σ ValueError.
Proof.
  intros Ha Hn Hthin. unfold salt_and_pepper_noise.
  eapply raises_bind_ok; [by apply load_ok|].
  eapply raises_bind_ok; [reflexivity|]. cbv beta zeta.
  fold (sp_count f amount). apply raises_bind. unfold shape.
  set (σ1 := set_heap _ σ). clearbody σ1.
  change (mapM ?g (?x :: ?l)) with (y ← g x; k ← mapM g l; mret (y :: k)).
  destruct (decide (height f ≤ 1)%nat) as [Hh|Hh].
  { apply raises_bind. apply randint_empty_range; lia. }
  destruct (randint_returns 0 (Z.of_nat (height f) - 1) (sp_count f amount) σ1)
    as (l1 & σ2 & H1); [lia..|].
  eapply raises_bind_ok; [exact H1|]. apply raises_bind.
  change (mapM ?g (?x :: ?l)) with (y ← g x; k ← mapM g l; mret (y :: k)).
  destruct (decide (width f ≤ 1)%nat) as [Hw|Hw].
  { apply raises_bind. apply randint_empty_range; lia. }
  destruct (randint_returns 0 (Z.of_nat (width f) - 1) (sp_count f amount) σ2)
    as (l2 & σ3 & H2); [lia..|].
  eapply raises_bind_ok; [exact H2|]. apply raises_bind.
  change (mapM ?g (?x :: ?l)) with (y ← g x; k ← mapM g l; mret (y :: k)).
  apply raises_bind. apply randint_empty_range; lia.
Qed.

Lemma salt_and_pepper_noise_thin_frame_witness :
  raises (salt_and_pepper_noise 0%nat (1 # 100))
         (sample_world (Frame 4 1 3 [[[1; 2; 3]]; [[4; 5; 6]]; [[7; 8; 9]]; [[10; 11; 12]]])
                       N.of_nat) ValueError.
Proof.
  apply (salt_and_pepper_noise_thin_frame
           (sample_world (Frame 4 1 3 [[[1; 2; 3]]; [[4; 5; 6]]; [[7; 8; 9]]; [[10; 11; 12]]])
                         N.of_nat)
           0%nat (Frame 4 1 3 [[[1; 2; 3]]; [[4; 5; 6]]; [[7; 8; 9]]; [[10; 11; 12]]])
           (1 # 100)).
  - reflexivity.
  - vm_compute. discriminate.
  - right. left. simpl. lia.
Defined.

(** ** Dust and dirt *)

Lemma get_pixel_imap (F : nat → nat → list Z → list Z) h w c d i j :
  get_pixel (Frame h w c (imap (λ i row, imap (λ j p, F i j p) row) d)) i j =
  F i j <$> get_pixel (Frame h w c d) i j.
Proof.
  unfold get_pixel. simpl. rewrite list_lookup_imap.
  destruct (d !! i) as [row|]; simpl; [|done]. by rewrite list_lookup_imap.
Qed.

Lemma get_pixel_length f i j p :
  wf_frame f → get_pixel f i j = Some p → length p = channels f.
Proof.
  intros Hwf Hp. unfold get_pixel in Hp.
  destruct (data f !! i) as [row|] eqn:Hrow; simplify_eq/=.
  by apply (wf_pixel_length f i j row p).
Qed.

(** The particle loop of [dust_dirt_particles] on a three-channel frame:
    every pixel is the input's or a grey between 50 and 99. *)
Lemma dust_loop_pixels b lib f D H0 (m : nat) σ (Q : unit → world → Prop) :
  heap σ = H0 ++ [D] → wf_frame D → same_shape f D → channels f = 3%nat →
  (∀ i j p, get_pixel D i j = Some p →
     get_pixel f i j = Some p ∨ ∃ v, 50 ≤ v < 100 ∧ p = [v; v; v]) →
  (b = false → (1 ≤ height f)%nat ∧ (1 ≤ width f)%nat) →
  (∀ D' σ', heap σ' = H0 ++ [D'] → wf_frame D' → same_shape f D' →
     (∀ i j p, get_pixel D' i j = Some p →
        get_pixel f i j = Some p ∨ ∃ v, 50 ≤ v < 100 ∧ p = [v; v; v]) →
     Q () σ') →
  mspec b (for_each (replicate m ()) (λ _,
             x ← np_random_randint1 0 (Z.of_nat (width f));
             y ← np_random_randint1 0 (Z.of_nat (height f));
             radius ← np_random_randint1 5 15;
             color ← np_random_randint1 50 100;
             cv_circle lib (length H0) x y radius color)) σ Q.
Proof.
  intros Hheap HD Hs Hc. revert D σ Hheap HD Hs.
  induction m as [|m IH]; intros D σ Hheap HD Hs Hinv Hdom HQ; simpl.
  { msteps. eapply HQ; eauto. }
  mstep. mstep.
  apply mspec_randint1. { intros Hb. destruct (Hdom Hb). lia. }
  intros x σ1 _ [Hh1 _].
  mstep. apply mspec_randint1. { intros Hb. destruct (Hdom Hb). lia. }
  intros y σ2 _ [Hh2 _].
  mstep. apply mspec_randint1. { lia. }
  intros radius σ3 _ [Hh3 _].
  mstep. apply mspec_randint1. { lia. }
  intros color σ4 Hcolor [Hh4 _].
  assert (Hheap4 : heap σ4 = H0 ++ [D]) by congruence.
  unfold cv_circle. mstep. eapply mspec_load. { rewrite Hheap4. apply lookup_app_length. }
  apply mspec_store. { rewrite Hheap4, lookup_app_length. eauto. }
  cbv beta.
  eapply IH; simpl; [| | | |done|done].
  - rewrite Hheap4. apply insert_app_length.
  - unfold wf_frame. simpl.
    apply (has_shape_imap _ _ _ (λ i j p, if circle_covers lib x y radius i j
             then imap (λ k _, if (k <? 3)%nat then color else 0) p else p)); [|done].
    intros i j p. destruct (circle_covers _ _ _ _ _ _); [by rewrite length_imap|done].
  - done.
  - intros i j p.
    rewrite (get_pixel_imap (λ i j p, if circle_covers lib x y radius i j
               then imap (λ k _, if (k <? 3)%nat then color else 0) p else p)).
    change (get_pixel (Frame (height D) (width D) (channels D) (data D)) i j)
      with (get_pixel D i j).
    destruct (get_pixel D i j) as [p0|] eqn:Hp0; simpl; [|done].
    intros [= <-]. destruct (circle_covers lib x y radius i j); [|by apply Hinv].
    right. exists color. split; [done|].
    pose proof (get_pixel_length D i j p0 HD Hp0) as Hlen.
    destruct Hs as (_ & _ & Hc').
    assert (length p0 = 3%nat) by congruence.
    by destruct p0 as [|? [|? [|? [|]]]].
Qed.

(** X16.  On a three-channel frame with at least one pixel,
    [dust_dirt_particles] returns a new frame of the same shape in which
    every pixel is either the input's pixel at that place or one grey [(v,
    v, v)] with [50 ≤ v < 100]; the input itself is not changed. *)
Theorem dust_dirt_particles_grey_or_unchanged lib σ a f num_particles :
  heap σ !! a = Some f → wf_frame f → channels f = 3%nat →
  (1 ≤ height f)%nat → (1 ≤ width f)%nat →
  ∃ r σ' g,
    dust_dirt_particles lib a num_particles σ = Ok r σ' ∧
    heap σ' !! r = Some g ∧ heap σ' !! a = Some f ∧ r ≠ a ∧ same_shape f g ∧
    ∀ i j p, get_pixel g i j = Some p →
      get_pixel f i j = Some p ∨ ∃ v, 50 ≤ v < 100 ∧ p = [v; v; v].
Proof.
  intros Ha Hwf Hc Hh Hw.
  cut (mspec false (dust_dirt_particles lib a num_particles) σ (λ r σ', ∃ g,
         heap σ' !! r = Some g ∧ heap σ' !! a = Some f ∧ r ≠ a ∧ same_shape f g ∧
         ∀ i j p, get_pixel g i j = Some p →
           get_pixel f i j = Some p ∨ ∃ v, 50 ≤ v < 100 ∧ p = [v; v; v])).
  { intros H. destruct (mspec_total_inv _ _ _ H) as (r & σ' & Hrun & g & Hg).
    by exists r, σ', g. }
  unfold dust_dirt_particles.
  mstep. eapply mspec_load; [done|]. mstep. mstep. cbv beta zeta. mstep.
  eapply (dust_loop_pixels false lib f f (heap σ)); [done|done|done|done|eauto|done|].
  intros D σ1 Hh1 HD Hs Hinv. msteps.
  exists D. rewrite Hh1. split; [apply lookup_app_length|].
  split; [by apply lookup_app_l_Some|].
  split; [apply lookup_lt_Some in Ha; lia|]. done.
Qed.

Lemma dust_dirt_particles_grey_or_unchanged_witness :
  ∃ r σ' g,
    dust_dirt_particles sample_library 0%nat 10 (sample_world sample_frame N.of_nat)
      = Ok r σ' ∧
    heap σ' !! r = Some g ∧ heap σ' !! 0%nat = Some sample_frame ∧ r ≠ 0%nat ∧
    same_shape sample_frame g ∧
    ∀ i j p, get_pixel g i j = Some p →
      get_pixel sample_frame i j = Some p ∨ ∃ v, 50 ≤ v < 100 ∧ p = [v; v; v].
Proof.
  apply (dust_dirt_particles_grey_or_unchanged sample_library
           (sample_world sample_frame N.of_nat) 0%nat sample_frame 10).
  - reflexivity.
  - by_compute.
  - reflexivity.
  - simpl; lia.
  - simpl; lia.
Defined.

(** X17.  Without particles ([num_particles ≤ 0]) [dust_dirt_particles]
    returns a copy that equals the input, for any frame, and draws no random
    number. *)
Theorem dust_dirt_particles_no_particles lib σ a f num_particles :
  heap σ !! a = Some f → num_particles ≤ 0 →
  ∃ r σ',
    dust_dirt_particles lib a num_particles σ = Ok r σ' ∧ r ≠ a ∧
    heap σ' !! r = Some f ∧ heap σ' !! a = Some f ∧
    np_random σ' = np_random σ.
Proof.
  intros Ha Hn. unfold dust_dirt_particles.
  replace (Z.to_nat num_particles) with 0%nat by lia.
  exists (length (heap σ)), (set_heap (heap σ ++ [f]) σ).
  split; [unfold mbind, M_bind; by rewrite (load_ok a f σ Ha)|].
  split; [apply lookup_lt_Some in Ha; lia|]. simpl.
  split; [apply lookup_app_length|]. split; [by apply lookup_app_l_Some|done].
Qed.

Lemma dust_dirt_particles_no_particles_witness :
  ∃ r σ',
    dust_dirt_particles sample_library 0%nat 0 (sample_world sample_frame N.of_nat)
      = Ok r σ' ∧ r ≠ 0%nat ∧
    heap σ' !! r = Some sample_frame ∧ heap σ' !! 0%nat = Some sample_frame ∧
    np_random σ' = np_random (sample_world sample_frame N.of_nat).
Proof.
  apply (dust_dirt_particles_no_particles sample_library
           (sample_world sample_frame N.of_nat) 0%nat sample_frame 0).
  - reflexivity.
  - lia.
Defined.

(** ** Vignetting *)

Lemma foldr_max_ge init l :
  let F := foldr (λ a m : Q, if Qle_bool m a then a else m) init l in
  (init <= F)%Q ∧ ∀ a, a ∈ l → (a <= F)%Q.
Proof.
  induction l as [|a l [IH1 IH2]]; simpl.
  { split; [apply Qle_refl|]. intros a Ha. by apply elem_of_nil in Ha. }
  destruct (Qle_bool _ a) eqn:Hle.
  - apply Qle_bool_iff in Hle. split; [by eapply Qle_trans|].
    intros a' [->|Ha']%elem_of_cons; [apply Qle_refl|].
    eapply Qle_trans; [by apply IH2|done].
  - assert (a <= foldr (λ a m : Q, if Qle_bool m a then a else m) init l)%Q as Ha.
    { apply Qlt_le_weak, Qnot_le_lt. intros H%Qle_bool_iff. congruence. }
    split; [done|]. intros a' [->|Ha']%elem_of_cons; [done|by apply IH2].
Qed.

Lemma Qmax_list_ge l x : x ∈ l → (x <= Qmax_list l)%Q.
Proof.
  destruct l as [|y l]; [by intros ?%elem_of_nil|]. simpl.
  destruct (foldr_max_ge y l) as [H1 H2].
  intros [->|Hx]%elem_of_cons; [done|by apply H2].
Qed.

(** The entries of the mask of [vignetting] lie in (0, 1] when the Gaussian
    coefficients are positive. *)
Lemma mask_range (X Y : list Q) i j :
  Forall (Qlt 0) X → Forall (Qlt 0) Y → (i < length Y)%nat → (j < length X)%nat →
  ∃ m, entry (map (map (λ v, (v / Qmax_list (concat (map (λ y, map (λ x, (y * x)%Q) X) Y)))%Q))
                  (map (λ y, map (λ x, (y * x)%Q) X) Y)) i j = Some m ∧
       (0 < m)%Q ∧ (m <= 1)%Q.
Proof.
  intros HX HY Hi Hj.
  destruct (lookup_lt_is_Some_2 Y i Hi) as [y Hy].
  destruct (lookup_lt_is_Some_2 X j Hj) as [x Hx].
  set (kernel := map (λ y, map (λ x, (y * x)%Q) X) Y).
  assert (Hrow : kernel !! i = Some (map (λ x, (y * x)%Q) X)).
  { unfold kernel. by rewrite lookup_map, Hy. }
  assert (Hin : (y * x)%Q ∈ concat kernel).
  { apply list_elem_of_In, in_concat. exists (map (λ x, (y * x)%Q) X).
    split; apply list_elem_of_In.
    - by apply (list_elem_of_lookup_2 _ i).
    - apply (list_elem_of_lookup_2 _ j). by rewrite lookup_map, Hx. }
  pose proof (Qmax_list_ge _ _ Hin) as Hmax.
  assert (0 < y * x)%Q as Hpos.
  { apply Qmult_lt_0_compat.
    - rewrite Forall_lookup in HY. by apply (HY i).
    - rewrite Forall_lookup in HX. by apply (HX j). }
  assert (0 < Qmax_list (concat kernel))%Q as HM by (by eapply Qlt_le_trans).
  exists (y * x / Qmax_list (concat kernel))%Q. split; [|split].
  - unfold entry. rewrite lookup_map, Hrow. simpl. by rewrite !lookup_map, Hx.
  - by apply Qlt_shift_div_l; [|rewrite Qmult_0_l].
  - by apply Qle_shift_div_r; [|rewrite Qmult_1_l].
Qed.

Lemma wf_assign_channel k V vals :
  wf_frame V → length vals = height V → Forall (λ r, length r = width V) vals →
  wf_frame (assign_channel k V vals).
Proof. intros HV Hh Hw. unfold wf_frame. simpl. by apply has_shape_setitem. Qed.

Lemma get_assign_channel k V vals i j k' q :
  wf_frame V → (k < channels V)%nat → (i < height V)%nat → (j < width V)%nat →
  entry vals i j = Some q →
  get (assign_channel k V vals) i j k' =
  if decide (k' = k) then Some (uint8 (Qtrunc q)) else get V i j k'.
Proof.
  intros HV Hk Hi Hj Hq. unfold get, assign_channel, entry in *. simpl.
  destruct (lookup_lt_is_Some_2 (data V) i) as [row Hrow]; [destruct HV; lia|].
  destruct (vals !! i) as [r|] eqn:Hr; simplify_eq/=.
  destruct (lookup_lt_is_Some_2 row j) as [p Hp].
  { rewrite (wf_row_length _ _ _ HV Hrow). lia. }
  rewrite lookup_zip_with, Hrow, Hr. simpl.
  rewrite lookup_zip_with, Hp, Hq. simpl.
  destruct (decide (k' = k)) as [->|Hne].
  - apply list_lookup_insert_eq. by rewrite (wf_pixel_length _ _ _ _ _ HV Hrow Hp).
  - by rewrite list_lookup_insert_ne.
Qed.

Lemma entry_channel_times f k mask i j v m :
  get f i j k = Some v → entry mask i j = Some m →
  entry (channel_times f k mask) i j = Some (inject_Z v * m)%Q.
Proof.
  unfold get, entry, channel_times. intros Hv Hm.
  destruct (data f !! i) as [row|] eqn:Hrow; simplify_eq/=.
  destruct (row !! j) as [p|] eqn:Hp; simplify_eq/=.
  destruct (mask !! i) as [r|] eqn:Hr; simplify_eq/=.
  rewrite lookup_zip_with, lookup_map, Hrow, Hr. simpl.
  rewrite lookup_zip_with, lookup_map, Hp, Hm. simpl.
  by rewrite (nth_lookup_Some _ _ _ _ Hv).
Qed.

Lemma length_channel_times f k mask :
  wf_frame f → length mask = height f → Forall (λ r, length r = width f) mask →
  length (channel_times f k mask) = height f ∧
  Forall (λ r, length r = width f) (channel_times f k mask).
Proof.
  intros Hwf Hmh Hmw. unfold channel_times. split.
  - rewrite length_zip_with, length_map. destruct Hwf as [-> _]. lia.
  - eapply (Forall_zip_with (λ r, length r = width f)); [| |exact Hmw].
    + intros r m Hr Hm. simpl in *. rewrite length_zip_with. lia.
    + rewrite Forall_map. eapply Forall_impl; [apply (wf_rows f Hwf)|].
      intros row Hrow. simpl. by rewrite length_map.
Qed.

(** One pass of the channel loop of [vignetting], with the array it
    leaves. *)
Lemma vignetting_pass b a i f V H0 (mask : list (list Q)) σ (Q : unit → world → Prop) :
  heap σ = H0 ++ [V] → H0 !! a = Some f →
  (i < channels f)%nat → (i < channels V)%nat →
  (∀ σ', heap σ' = H0 ++ [assign_channel i V (channel_times f i mask)] → Q () σ') →
  mspec b (f ← load a;
           plane ← lift IndexError (get_channel f i);
           setitem_channel (length H0) i
             (zip_with (zip_with (λ v m, (inject_Z v * m)%Q)) plane mask)) σ Q.
Proof.
  intros Hheap Ha Hf HV HQ.
  mstep. eapply mspec_load. { rewrite Hheap. by apply lookup_app_l_Some. }
  unfold get_channel. destruct (Nat.ltb_spec i (channels f)); [|lia].
  msteps. unfold setitem_channel.
  mstep. eapply mspec_load. { rewrite Hheap. apply lookup_app_length. }
  destruct (Nat.ltb_spec i (channels V)); [|lia].
  apply mspec_store. { rewrite Hheap, lookup_app_length. eauto. }
  apply HQ. simpl. rewrite Hheap. apply insert_app_length.
Qed.

(** [vignetting] on a frame of three channels: every element of the fresh
    result is the element of the input times an entry of the mask, cut to
    an integer; the entries lie in (0, 1] when the Gaussian coefficients are
    positive. *)
Lemma vignetting_spec b lib σ a f :
  heap σ !! a = Some f → wf_frame f → channels f = 3%nat →
  (1 ≤ height f)%nat → (1 ≤ width f)%nat →
  mspec b (vignetting lib a) σ (λ r σ',
    r = length (heap σ) ∧
    ∃ g mask, heap σ' = heap σ ++ [g] ∧ wf_frame g ∧ same_shape f g ∧
      (∀ i j, (i < height f)%nat → (j < width f)%nat →
         ∃ m, entry mask i j = Some m ∧
              ((∀ n s k, 0 < gaussian_coeff lib n s k)%Q → (0 < m)%Q ∧ (m <= 1)%Q)) ∧
      ∀ i j k v m, get f i j k = Some v → entry mask i j = Some m →
        get g i j k = Some (uint8 (Qtrunc (inject_Z v * m)))).
Proof.
  intros Ha Hwf Hc Hh Hw. unfold vignetting.
  mstep. eapply mspec_load; [done|].
  unfold cv_getGaussianKernel.
  destruct (Z.leb_spec (Z.of_nat (width f)) 0); [lia|].
  destruct (Z.leb_spec (Z.of_nat (height f)) 0); [lia|].
  mstep. mstep. mstep. mstep. cbv zeta. rewrite !Nat2Z.id.
  set (X := tabulate (width f) _). set (Y := tabulate (height f) _).
  set (kernel := map (λ y, map (λ x, (y * x)%Q) X) Y).
  set (mask := map (map (λ v, (v / Qmax_list (concat kernel))%Q)) kernel).
  assert (Hmh : length mask = height f).
  { unfold mask, kernel, Y. by rewrite !length_map, length_tabulate. }
  assert (Hmw : Forall (λ r, length r = width f) mask).
  { unfold mask, kernel. rewrite !Forall_map. apply Forall_true. intros y. simpl.
    unfold X. by rewrite !length_map, length_tabulate. }
  mstep. mstep. cbv beta. simpl for_each.
  set (V0 := build (height f) (width f) (channels f) (uninitialised lib)).
  assert (Hheap : heap (set_heap (heap σ ++ [V0]) σ) = heap σ ++ [V0]) by done.
  destruct (length_channel_times f 0 mask Hwf Hmh Hmw) as [Hl0 Hw0].
  destruct (length_channel_times f 1 mask Hwf Hmh Hmw) as [Hl1 Hw1].
  destruct (length_channel_times f 2 mask Hwf Hmh Hmw) as [Hl2 Hw2].
  set (V1 := assign_channel 0 V0 (channel_times f 0 mask)).
  set (V2 := assign_channel 1 V1 (channel_times f 1 mask)).
  set (V3 := assign_channel 2 V2 (channel_times f 2 mask)).
  assert (HV1 : wf_frame V1) by (apply wf_assign_channel; [apply wf_build|done..]).
  assert (HV2 : wf_frame V2) by (by apply wf_assign_channel).
  assert (HV3 : wf_frame V3) by (by apply wf_assign_channel).
  mstep. mstep.
  eapply (vignetting_pass b a 0 f V0); [exact Hheap|done|lia|simpl; lia|].
  intros σ1 Hh1. mstep.
  eapply (vignetting_pass b a 1 f V1); [exact Hh1|done|lia|simpl; lia|].
  intros σ2 Hh2. mstep.
  eapply (vignetting_pass b a 2 f V2); [exact Hh2|done|lia|simpl; lia|].
  intros σ3 Hh3. msteps. split; [done|].
  exists V3, mask. split; [done|]. split; [done|]. split; [done|]. split.
  - intros i j Hi Hj.
    destruct (lookup_lt_is_Some_2 mask i) as [r Hr]; [lia|].
    destruct (lookup_lt_is_Some_2 r j) as [m Hm].
    { rewrite Forall_lookup in Hmw. rewrite (Hmw i r Hr). lia. }
    exists m. split; [unfold entry; by rewrite Hr|].
    intros Hpos.
    destruct (mask_range X Y i j) as (m' & Hm' & Hrange).
    + apply Forall_tabulate. intros. apply Hpos.
    + apply Forall_tabulate. intros. apply Hpos.
    + unfold Y. by rewrite length_tabulate.
    + unfold X. by rewrite length_tabulate.
    + fold kernel in Hm'. fold mask in Hm'. unfold entry in Hm'.
      rewrite Hr in Hm'. simpl in Hm'. by simplify_eq.
  - intros i j k v m Hv Hm.
    destruct (get_Some_lt f i j k v Hwf Hv) as (Hi & Hj & Hk).
    assert (k = 0 ∨ k = 1 ∨ k = 2)%nat as Hcases by lia.
    unfold V3.
    rewrite (get_assign_channel 2 V2 _ i j k (inject_Z (nth 2 (nth j (nth i (data f) []) []) 0%Z) * m)%Q);
      [|done|simpl; lia|simpl; lia|simpl; lia|]; first last.
    { destruct (get_lt_Some f i j 2 Hwf) as [v2 Hv2]; [lia..|].
      rewrite (nth_get f i j 2 v2 Hv2). by apply entry_channel_times. }
    destruct (decide (k = 2)%nat) as [->|H2].
    { by rewrite (nth_get f i j 2 v Hv). }
    unfold V2.
    rewrite (get_assign_channel 1 V1 _ i j k (inject_Z (nth 1 (nth j (nth i (data f) []) []) 0%Z) * m)%Q);
      [|done|simpl; lia|simpl; lia|simpl; lia|]; first last.
    { destruct (get_lt_Some f i j 1 Hwf) as [v1 Hv1]; [lia..|].
      rewrite (nth_get f i j 1 v1 Hv1). by apply entry_channel_times. }
    destruct (decide (k = 1)%nat) as [->|H1].
    { by rewrite (nth_get f i j 1 v Hv). }
    assert (k = 0%nat) as -> by lia.
    unfold V1.
    rewrite (get_assign_channel 0 V0 _ i j 0 (inject_Z v * m)%Q);
      [done|apply wf_build|simpl; lia|simpl; lia|simpl; lia|].
    by apply entry_channel_times.
Qed.

Lemma darkened v m :
  0 ≤ v < 256 → (0 < m)%Q → (m <= 1)%Q → 0 ≤ uint8 (Qtrunc (inject_Z v * m)) ≤ v.
Proof.
  intros Hv Hm0 Hm1.
  assert (0 <= inject_Z v)%Q as Hv0.
  { change 0%Q with (inject_Z 0). rewrite <- Zle_Qle. lia. }
  assert (0 <= inject_Z v * m)%Q as Hq0.
  { apply Qmult_le_0_compat; [done|by apply Qlt_le_weak]. }
  assert (inject_Z v * m <= inject_Z v)%Q as Hq1.
  { rewrite <- (Qmult_1_r (inject_Z v)) at 2.
    destruct (Qle_lt_or_eq _ _ Hv0) as [Hlt|Heq].
    - by apply Qmult_le_l.
    - rewrite <- Heq, !Qmult_0_l. apply Qle_refl. }
  unfold Qtrunc. apply Qle_bool_iff in Hq0 as Hb. rewrite Hb.
  pose proof (Qfloor_resp_le _ _ Hq0) as H0. pose proof (Qfloor_resp_le _ _ Hq1) as H1.
  rewrite Qfloor_Z in H1. change (Qfloor 0) with 0 in H0.
  unfold uint8. rewrite Z.mod_small; lia.
Qed.

(** X18.  [vignetting] only darkens: with the positive coefficients of a
    Gaussian window, every element of the result is at most the element of
    the video frame at the same place, and not negative. The input is not
    changed. *)
Theorem vignetting_never_brightens lib σ a f :
  heap σ !! a = Some f → video_frame f →
  (∀ n s k, (0 < gaussian_coeff lib n s k)%Q) →
  ∃ r σ' g,
    vignetting lib a σ = Ok r σ' ∧ heap σ' !! r = Some g ∧
    heap σ' !! a = Some f ∧ r ≠ a ∧ same_shape f g ∧
    ∀ i j k v, get f i j k = Some v → ∃ v', get g i j k = Some v' ∧ 0 ≤ v' ≤ v.
Proof.
  intros Ha (Hwf & Hu & Hc & Hh & Hw) Hpos.
  destruct (mspec_total_inv _ _ _
              (vignetting_spec false lib σ a f Ha Hwf Hc ltac:(lia) ltac:(lia)))
    as (r & σ' & Hrun & -> & g & mask & Hheap & Hg & Hs & Hmask & Hval).
  exists (length (heap σ)), σ', g. split; [exact Hrun|]. rewrite Hheap.
  split; [apply lookup_app_length|]. split; [by apply lookup_app_l_Some|].
  split; [apply lookup_lt_Some in Ha; lia|]. split; [done|].
  intros i j k v Hv.
  destruct (get_Some_lt f i j k v Hwf Hv) as (Hi & Hj & Hk).
  destruct (Hmask i j Hi Hj) as (m & Hm & Hrange).
  destruct (Hrange Hpos) as [Hm0 Hm1].
  eexists. split; [by apply (Hval i j k v m)|].
  apply darkened; [by eapply get_uint8|done|done].
Qed.

Lemma vignetting_never_brightens_witness :
  ∃ r σ' g,
    vignetting sample_library 0%nat (sample_world sample_frame N.of_nat) = Ok r σ' ∧
    heap σ' !! r = Some g ∧
    heap σ' !! 0%nat = Some sample_frame ∧ r ≠ 0%nat ∧ same_shape sample_frame g ∧
    ∀ i j k v, get sample_frame i j k = Some v →
      ∃ v', get g i j k = Some v' ∧ 0 ≤ v' ≤ v.
Proof.
  apply (vignetting_never_brightens sample_library
           (sample_world sample_frame N.of_nat) 0%nat sample_frame).
  - reflexivity.
  - by_compute.
  - intros n s k. reflexivity.
Defined.

Lemma vignetting_pass_raises a i f (mask : list (list Q)) (H0 : list frame) σ :
  heap σ !! a = Some f → (channels f ≤ i)%nat →
  raises (f ← load a;
          plane ← lift IndexError (get_channel f i);
          setitem_channel (length H0) i
            (zip_with (zip_with (λ v m, (inject_Z v * m)%Q)) plane mask)) σ IndexError.
Proof.
  intros Ha Hi. eapply raises_bind_ok; [by apply load_ok|]. apply raises_bind.
  unfold get_channel. destruct (Nat.ltb_spec i (channels f)); [lia|]. by exists σ.
Qed.

Lemma vignetting_pass_runs a i f V H0 (mask : list (list Q)) σ :
  heap σ = H0 ++ [V] → H0 !! a = Some f →
  (i < channels f)%nat → (i < channels V)%nat →
  ∃ σ', (f ← load a;
         plane ← lift IndexError (get_channel f i);
         setitem_channel (length H0) i
           (zip_with (zip_with (λ v m, (inject_Z v * m)%Q)) plane mask)) σ = Ok () σ' ∧
        heap σ' = H0 ++ [assign_channel i V (channel_times f i mask)].
Proof.
  intros Hheap Ha Hf HV.
  destruct (mspec_total_inv _ _ _
              (vignetting_pass false a i f V H0 mask σ
                 (λ _ σ', heap σ' = H0 ++ [assign_channel i V (channel_times f i mask)])
                 Hheap Ha Hf HV (λ _ H, H)))
    as ([] & σ' & Hrun & Hh).
  eauto.
Qed.

(** X19.  On a frame with fewer than three channels (and at least one pixel)
    [vignetting] raises [IndexError]: its loop asks for the channels 0, 1
    and 2 whatever the frame has. *)
Theorem vignetting_too_few_channels lib σ a f :
  heap σ !! a = Some f → (1 ≤ height f)%nat → (1 ≤ width f)%nat →
  (channels f < 3)%nat →
  raises (vignetting lib a) σ IndexError.
Proof.
  intros Ha Hh Hw Hc. unfold vignetting.
  eapply raises_bind_ok; [by apply load_ok|].
  unfold cv_getGaussianKernel.
  destruct (Z.leb_spec (Z.of_nat (width f)) 0); [lia|].
  destruct (Z.leb_spec (Z.of_nat (height f)) 0); [lia|].
  eapply raises_bind_ok; [reflexivity|]. eapply raises_bind_ok; [reflexivity|].
  cbv zeta. eapply raises_bind_ok; [reflexivity|]. apply raises_bind.
  set (mask := map _ _).
  set (V0 := build (height f) (width f) (channels f) (uninitialised lib)).
  set (σ0 := set_heap (heap σ ++ [V0]) σ).
  assert (Hheap : heap σ0 = heap σ ++ [V0]) by done.
  simpl for_each.
  destruct (decide (channels f = 0)%nat) as [Hc0|Hc0].
  { apply raises_bind. apply vignetting_pass_raises with f; [|lia].
    rewrite Hheap. by apply lookup_app_l_Some. }
  destruct (vignetting_pass_runs a 0 f V0 (heap σ) mask σ0)
    as (σ1 & Hrun1 & Hh1); [done|done|lia|simpl; lia|].
  eapply raises_bind_ok; [exact Hrun1|].
  destruct (decide (channels f = 1)%nat) as [Hc1|Hc1].
  { apply raises_bind. apply vignetting_pass_raises with f; [|lia].
    rewrite Hh1. by apply lookup_app_l_Some. }
  destruct (vignetting_pass_runs a 1 f (assign_channel 0 V0 (channel_times f 0 mask))
              (heap σ) mask σ1)
    as (σ2 & Hrun2 & Hh2); [exact Hh1|done|lia|simpl; lia|].
  eapply raises_bind_ok; [exact Hrun2|].
  apply raises_bind. apply vignetting_pass_raises with f; [|lia].
  rewrite Hh2. by apply lookup_app_l_Some.
Qed.

Lemma vignetting_too_few_channels_witness :
  raises (vignetting sample_library 0%nat)
         (sample_world (Frame 1 2 1 [[[5]; [6]]]) N.of_nat) IndexError.
Proof.
  apply (vignetting_too_few_channels sample_library
           (sample_world (Frame 1 2 1 [[[5]; [6]]]) N.of_nat) 0%nat
           (Frame 1 2 1 [[[5]; [6]]])).
  - reflexivity.
  - simpl; lia.
  - simpl; lia.
  - simpl; lia.
Defined.

(** * The files the pipeline writes *)

Lemma grow_nil s : grow s [] = s.
Proof. destruct s. unfold grow. simpl. by rewrite Z.add_0_r, app_nil_r. Qed.

Lemma grow_push g s L : grow (push_frame g s) L = grow s (g :: L).
Proof.
  unfold grow, push_frame. simpl. rewrite <- app_assoc. simpl. f_equal. lia.
Qed.

Lemma pushed_frames_snoc acc x m :
  pushed_frames (acc ++ [x]) m = alter (push_frame x.2) x.1.1 (pushed_frames acc m).
Proof. unfold pushed_frames. by rewrite foldl_app. Qed.

Lemma saved_stills_snoc acc x m :
  saved_stills (acc ++ [x]) m = <[x.1.2 := x.2]> (saved_stills acc m).
Proof. unfold saved_stills. by rewrite foldl_app. Qed.

Lemma step_state_start a f first σ :
  heap σ !! a = Some f → step_state a f first σ [] σ.
Proof. intros Ha. unfold step_state. by destruct first. Qed.

(** A transform followed by [emit], inside the loop. *)
Lemma transform_emit_step {A} a f first σ0 acc out img (m : M addr) (k : M A) σ Q :
  step_state a f first σ0 acc σ →
  mspec false m σ (fresh_frame_like f σ) →
  (∀ g σ', step_state a f first σ0 (acc ++ [(out, img, g)]) σ' → mspec false k σ' Q) →
  mspec false (r ← m; emit out img (negb first) r;; k) σ Q.
Proof.
  intros (Ha & Hv & Hi & Ho & Hc & Ht & Hacc) Hm Hk. mstep.
  eapply mspec_mono; [exact Hm|].
  intros r σ' (news & g & [Hheap (Ho' & Hv' & Hi' & Hc' & Ht' & _)] & _ & Hr & Hs & _).
  cbv beta. mstep. eapply mspec_emit; [exact Hr|]. cbv beta.
  apply (Hk g). unfold step_state, emitted.
  rewrite pushed_frames_snoc, saved_stills_snoc. simpl.
  split. { destruct first; simpl; rewrite Hheap; by apply lookup_app_l_Some. }
  split. { destruct first; simpl; congruence. }
  split. { destruct first; simpl; congruence. }
  split. { destruct first; simpl; congruence. }
  split. { destruct first; simpl; congruence. }
  split. { destruct first; simpl; congruence. }
  apply Forall_app. split; [done|]. by constructor.
Qed.

Ltac other_names H :=
  repeat (apply not_elem_of_cons in H as [? H]).

Ltac through_alters :=
  repeat first [ rewrite lookup_alter_eq | rewrite lookup_alter_ne by congruence ].

Ltac through_inserts :=
  repeat first [ rewrite lookup_insert_eq | rewrite lookup_insert_ne by congruence ].

(** One iteration of the loop body, as seen in the files. *)
Lemma process_frame_files lib p first a f σ (Q : unit → world → Prop) :
  valid_params lib p → video_frame f → heap σ !! a = Some f →
  (∀ σ' gs,
     Forall2 (sink_written f first σ σ') transform_sinks gs →
     (∀ name, name ∉ sink_names → videos σ' !! name = videos σ !! name) →
     (∀ name, name ∉ transform_sinks.*2 → images σ' !! name = images σ !! name) →
     (videos σ' !! "frame_dropping.mp4" = videos σ !! "frame_dropping.mp4" ∨
      videos σ' !! "frame_dropping.mp4" = push_frame f <$> videos σ !! "frame_dropping.mp4") →
     stdout σ' = stdout σ → captures σ' = captures σ →
     Q () σ') →
  mspec false (process_frame lib p (negb first) a) σ Q.
Proof.
  intros Hp Hf Ha HQ.
  destruct (valid_params_accepts lib p f Hp Hf) as (Hmb & Hcb & Hsp).
  destruct Hf as (Hwf & Hu & Hc & Hh & Hw).
  assert (Hfresh : ∀ t' acc σ', step_state a f first σ acc σ' → accepts lib t' f →
            mspec false (apply_transform lib t' a) σ' (fresh_frame_like f σ')).
  { intros t' acc σ' (Ha' & _) Hacc. apply apply_transform_fresh; try done; lia. }
  unfold process_frame.
  eapply (transform_emit_step a f first σ []);
    [by apply step_state_start|eapply (Hfresh (GaussianNoise _)); [by apply step_state_start|done]|].
  intros g1 σ1 Hst.
  eapply (transform_emit_step a f first σ); [exact Hst|by eapply (Hfresh (CompressionArtifacts _))|].
  clear σ1 Hst. intros g2 σ1 Hst.
  eapply (transform_emit_step a f first σ); [exact Hst|by eapply (Hfresh (MotionBlur _))|].
  clear σ1 Hst. intros g3 σ1 Hst.
  eapply (transform_emit_step a f first σ); [exact Hst|by eapply (Hfresh (ColorBanding _))|].
  clear σ1 Hst. intros g4 σ1 Hst.
  eapply (transform_emit_step a f first σ); [exact Hst|by eapply (Hfresh (SaltAndPepperNoise _))|].
  clear σ1 Hst. intros g5 σ1 Hst.
  eapply (transform_emit_step a f first σ); [exact Hst|by eapply (Hfresh (LensDistortion _ _))|].
  clear σ1 Hst. intros g6 σ1 Hst.
  eapply (transform_emit_step a f first σ); [exact Hst|by eapply (Hfresh Vignetting)|].
  clear σ1 Hst. intros g7 σ1 Hst.
  eapply (transform_emit_step a f first σ); [exact Hst|by eapply (Hfresh (ChromaticAberration _))|].
  clear σ1 Hst. intros g8 σ1 Hst.
  eapply (transform_emit_step a f first σ); [exact Hst|by eapply (Hfresh (DustDirtParticles _))|].
  clear σ1 Hst. intros g9 σ1 (Ha1 & Hv1 & Hi1 & Ho1 & Hc1 & Ht1 & Hacc).
  simpl in Hv1, Hi1, Hacc. unfold pushed_frames in Hv1. unfold saved_stills in Hi1. simpl in Hv1, Hi1.
  assert (Hend : ∀ σ', images σ' = images σ1 → stdout σ' = stdout σ1 →
            captures σ' = captures σ1 →
            (videos σ' = videos σ1 ∨
             videos σ' = alter (push_frame f) "frame_dropping.mp4" (videos σ1)) →
            Q () σ').
  { intros σ' Hi' Ho' Hc' Hv'.
    apply (HQ σ' [g1; g2; g3; g4; g5; g6; g7; g8; g9]); [| | | |congruence|congruence].
    - repeat (apply Forall_cons in Hacc as [? Hacc]). simpl in *.
      unfold transform_sinks.
      repeat (constructor; [split; [done|split; simpl;
        [destruct Hv' as [-> | ->]; rewrite Hv1; by through_alters
        |rewrite Hi', Hi1; destruct first; [by through_inserts|done]]]|]).
      constructor.
    - intros name Hname. unfold sink_names in Hname. other_names Hname.
      destruct Hv' as [-> | ->]; rewrite Hv1; by through_alters.
    - intros name Hname. simpl in Hname. other_names Hname.
      rewrite Hi', Hi1. destruct first; [by through_inserts|done].
    - destruct Hv' as [-> | ->]; rewrite Hv1; [left|right]; by through_alters. }
  unfold simulate_frame_dropping.
  mstep. unfold mspec at 1, np_random_rand. cbv beta zeta.
  destruct (Qlt_le_dec _ _).
  - unfold writer_write. mstep. eapply mspec_load; [exact Ha1|]. mstep.
    apply Hend; simpl; auto.
  - mstep. apply Hend; simpl; auto.
Qed.

Lemma sink_filled_nil first σ σ' x :
  videos σ' = videos σ → images σ' = images σ → sink_filled [] first σ σ' x [].
Proof.
  intros Hv Hi. unfold sink_filled. rewrite Hv, Hi. split; [constructor|]. split.
  - destruct (videos σ !! x.1); simpl; [|done]. by rewrite grow_nil.
  - by destruct first.
Qed.

Lemma sink_filled_cons f rest first σ σ1 σ2 σ' x g L :
  videos σ2 = videos σ1 → images σ2 = images σ1 →
  sink_written f first σ σ1 x g → sink_filled rest false σ2 σ' x L →
  sink_filled (f :: rest) first σ σ' x (g :: L).
Proof.
  intros Hv2 Hi2 (Hs & Hv & Hi) (HF & Hv' & Hi'). split; [by constructor|]. split.
  - rewrite Hv', Hv2, Hv. destruct (videos σ !! x.1); simpl; [|done]. by rewrite grow_push.
  - rewrite Hi', Hi2, Hi. by destruct first.
Qed.

Lemma Forall2_cons_each {A B} (P1 : A → B → Prop) (P2 P : A → list B → Prop) l gs Ls :
  (∀ x g L, P1 x g → P2 x L → P x (g :: L)) →
  Forall2 P1 l gs → Forall2 P2 l Ls → Forall2 P l (zip_with cons gs Ls).
Proof.
  intros HP H1. revert Ls. induction H1 as [|x g l gs Hx _ IH]; intros Ls H2.
  - inversion_clear H2. constructor.
  - inversion_clear H2. simpl. constructor; eauto.
Qed.

(** The frame loop, as seen in the files: every sink of a transform gets
    one frame per frame read, the still images are written in the first
    iteration, a progress line is printed after every tenth frame. *)
Lemma frame_loop_files lib p frame_count cap meta frames :
  ∀ fuel frame_number first σ,
    (frames ≠ [] → valid_params lib p) → Forall video_frame frames →
    (length frames < fuel)%nat →
    captures σ !! cap = Some (Capture true meta frames) →
    mspec false (frame_loop lib fuel cap p frame_count frame_number (negb first)) σ (λ _ σ',
      (∃ outs, Forall2 (sink_filled frames first σ σ') transform_sinks outs) ∧
      (∀ name, name ∉ sink_names → videos σ' !! name = videos σ !! name) ∧
      (∀ name, name ∉ transform_sinks.*2 → images σ' !! name = images σ !! name) ∧
      (∃ kept, sublist kept frames ∧
         videos σ' !! "frame_dropping.mp4"
           = (λ s, grow s kept) <$> videos σ !! "frame_dropping.mp4") ∧
      stdout σ' = stdout σ ++ loop_lines frame_count frame_number (length frames) ∧
      captures σ' !! cap = Some (Capture true meta [])).
Proof.
  induction frames as [|f rest IH]; intros fuel fn first σ Hp Hfr Hfuel Hc;
    (destruct fuel as [|fuel]; [simpl in Hfuel; lia|]); simpl.
  - unfold cap_read. mstep. mstep. eapply mspec_the_capture; [done|]. simpl.
    msteps. split; [|split; [done|split; [done|split; [|by rewrite app_nil_r]]]].
    + exists (replicate 9 []). unfold transform_sinks. simpl.
      repeat (constructor; [by apply sink_filled_nil|]). constructor.
    + exists []. split; [constructor|].
      destruct (videos σ !! "frame_dropping.mp4"); simpl; [|done]. by rewrite grow_nil.
  - inversion_clear Hfr as [|? ? Hf Hrest]. specialize (Hp ltac:(done)).
    unfold cap_read. mstep. mstep. eapply mspec_the_capture; [done|]. simpl.
    mstep. mstep. mstep. mstep. mstep. msteps.
    eapply (process_frame_files lib p first _ f); [done|done|simpl; apply lookup_app_length|].
    intros σ2 gs Hgs Hvo Hio Hfd Hso Hco. simpl in Hvo, Hio, Hfd, Hso, Hco. cbv beta zeta.
    assert (Hrec : ∀ σ3 lines, videos σ3 = videos σ2 → images σ3 = images σ2 →
              captures σ3 = captures σ2 → stdout σ3 = stdout σ2 ++ lines →
              lines ++ loop_lines frame_count (fn + 1) (length rest)
                = loop_lines frame_count fn (S (length rest)) →
              mspec false (frame_loop lib fuel cap p frame_count (fn + 1) true) σ3 (λ _ σ',
                (∃ outs, Forall2 (sink_filled (f :: rest) first σ σ') transform_sinks outs) ∧
                (∀ name, name ∉ sink_names → videos σ' !! name = videos σ !! name) ∧
                (∀ name, name ∉ transform_sinks.*2 → images σ' !! name = images σ !! name) ∧
                (∃ kept, sublist kept (f :: rest) ∧
                   videos σ' !! "frame_dropping.mp4"
                     = (λ s, grow s kept) <$> videos σ !! "frame_dropping.mp4") ∧
                stdout σ' = stdout σ ++ loop_lines frame_count fn (S (length rest)) ∧
                captures σ' !! cap = Some (Capture true meta []))).
    { intros σ3 lines Hv3 Hi3 Hc3 Hs3 Hlines.
      eapply mspec_mono.
      { apply (IH fuel (fn + 1) false σ3); [done|done|simpl in Hfuel; lia|].
        rewrite Hc3, Hco. apply list_lookup_insert_eq. by eapply lookup_lt_Some. }
      intros _ σ' ((outs & Houts) & Hvo' & Hio' & (kept & Hsub & Hfd') & Hso' & Hc').
      split; [|split; [|split; [|split; [|split]]]].
      - exists (zip_with cons gs outs).
        eapply Forall2_cons_each; [|exact Hgs|exact Houts].
        intros x g L (Hs & Hv & Hi) HL.
        eapply (sink_filled_cons f rest first σ σ2 σ3); [done|done| |done].
        split; [done|]. split; [exact Hv|exact Hi].
      - intros name Hname. rewrite Hvo', Hv3 by done. by apply Hvo.
      - intros name Hname. rewrite Hio', Hi3 by done. by apply Hio.
      - rewrite Hfd', Hv3. destruct Hfd as [-> | ->].
        + exists kept. split; [by constructor|done].
        + exists (f :: kept). split; [by constructor|].
          destruct (videos σ !! "frame_dropping.mp4"); simpl; [|done]. by rewrite grow_push.
      - rewrite Hso', Hs3, Hso, <- Hlines. by rewrite app_assoc.
      - done. }
    mstep. change (loop_lines frame_count fn (S (length rest))) with
      ((if (fn + 1) mod 10 =? 0 then [progress_line frame_count (fn + 1)] else [])
       ++ loop_lines frame_count (fn + 1) (length rest)) in Hrec.
    destruct (_ =? 0).
    + unfold print. mstep. cbv beta. by apply (Hrec _ [progress_line frame_count (fn + 1)]).
    + mstep. apply (Hrec _ []); [done..|by rewrite app_nil_r|done].
Qed.

Lemma loop_lines_snoc frame_count n :
  ∀ frame_number,
    loop_lines frame_count frame_number (S n) =
    loop_lines frame_count frame_number n ++
    (if (frame_number + Z.of_nat n + 1) mod 10 =? 0
     then [progress_line frame_count (frame_number + Z.of_nat n + 1)] else []).
Proof.
  induction n as [|n IH]; intros fn.
  - cbn [loop_lines]. change (Z.of_nat 0) with 0. by rewrite Z.add_0_r, app_nil_r.
  - change (loop_lines frame_count fn (S (S n))) with
      ((if (fn + 1) mod 10 =? 0 then [progress_line frame_count (fn + 1)] else [])
       ++ loop_lines frame_count (fn + 1) (S n)).
    rewrite IH. cbn [loop_lines]. rewrite <- app_assoc.
    by replace (fn + 1 + Z.of_nat n + 1) with (fn + Z.of_nat (S n) + 1) by lia.
Qed.

(** The loop prints one progress line for every tenth frame. *)
Lemma loop_lines_closed frame_count n :
  loop_lines frame_count 0 n = progress_lines frame_count n.
Proof.
  induction n as [|n IH]; [done|].
  rewrite loop_lines_snoc, IH. unfold progress_lines.
  pose proof (Nat.div_mod_eq n 10) as Hn. pose proof (Nat.div_mod_eq (S n) 10) as HSn.
  pose proof (Nat.mod_upper_bound n 10 ltac:(done)) as Hn'.
  pose proof (Nat.mod_upper_bound (S n) 10 ltac:(done)) as HSn'.
  destruct (Z.eqb_spec ((0 + Z.of_nat n + 1) mod 10) 0) as [H0|H0].
  - assert (S n mod 10 = 0)%nat as Hm.
    { apply Nat2Z.inj. rewrite Nat2Z.inj_mod.
      replace (Z.of_nat (S n)) with (0 + Z.of_nat n + 1) by lia. exact H0. }
    assert (S n / 10 = S (n / 10))%nat as HS by lia. rewrite HS.
    replace (0 + Z.of_nat n + 1) with (10 * Z.of_nat (1 + n / 10)) by lia.
    by rewrite seq_S, map_app.
  - assert (S n mod 10 ≠ 0)%nat as Hm.
    { intros Hm. apply H0. replace (0 + Z.of_nat n + 1) with (Z.of_nat (S n)) by lia.
      change 10 with (Z.of_nat 10). by rewrite <- Nat2Z.inj_mod, Hm. }
    assert (S n / 10 = n / 10)%nat as -> by lia.
    by rewrite app_nil_r.
Qed.

(** The pipeline on a video that opens, as seen in the files, on the
    console and in the capture object. *)
Lemma add_artifacts_files lib fuel path p σ v :
  videos σ !! path = Some v →
  Forall video_frame (vframes v) → (vframes v ≠ [] → valid_params lib p) →
  (length (vframes v) < fuel)%nat →
  mspec false (add_artifacts lib fuel path p) σ (λ _ σ',
    (∃ outs, Forall2 (λ x L,
       Forall2 same_shape (vframes v) L ∧
       videos σ' !! x.1 = Some (Video "mp4v" (vwidth v) (vheight v) (vfps v)
                                      (Z.of_nat (length L)) L) ∧
       images σ' !! x.2 = from_option Some (images σ !! x.2) (head L)) transform_sinks outs) ∧
    (∀ name, name ∉ sink_names → videos σ' !! name = videos σ !! name) ∧
    (∀ name, name ∉ transform_sinks.*2 → images σ' !! name = images σ !! name) ∧
    (∃ kept, sublist kept (vframes v) ∧
       videos σ' !! "frame_dropping.mp4"
         = Some (Video "mp4v" (vwidth v) (vheight v) (vfps v)
                       (Z.of_nat (length kept)) kept)) ∧
    stdout σ' = stdout σ
      ++ ["Processing " +:+ pretty (vcount v) +:+ " frames to add artifacts..."]
      ++ progress_lines (vcount v) (length (vframes v))
      ++ ["Artifact addition complete"] ∧
    captures σ' !! length (captures σ) = Some (Capture false (Some v) [])).
Proof.
  intros Hv Hfr Hp Hfuel. unfold add_artifacts.
  mstep. unfold mspec at 1, cv_VideoCapture. rewrite Hv. cbv beta zeta.
  set (cap := length (captures σ)).
  set (c := Capture true (Some v) (vframes v)).
  set (σ0 := set_captures (captures σ ++ [c]) σ).
  assert (Hc0 : captures σ0 !! cap = Some c) by apply lookup_app_length.
  assert (Hcap : ∀ {A} (prop : video → A) zero σ1 (Q : A → world → Prop),
            captures σ1 !! cap = Some c → Q (prop v) σ1 →
            mspec false (cap_get cap prop zero) σ1 Q).
  { intros A prop zero σ1 Q Hc1 HQ. unfold cap_get.
    mstep. eapply mspec_the_capture; [done|]. by mstep. }
  unfold cap_isOpened. mstep. mstep. eapply mspec_the_capture; [done|]. msteps.
  simpl negb. cbv iota.
  mstep. apply Hcap; [done|]. mstep. apply Hcap; [done|]. mstep. apply Hcap; [done|].
  cbv zeta. mstep. apply open_writers_spec.
  mstep. apply Hcap; [done|]. cbv beta. mstep. unfold print at 1. mstep. cbv beta. mstep.
  set (V0 := Video (cv_VideoWriter_fourcc "mp4v") (vwidth v) (vheight v) (vfps v) 0 []).
  set (σp := set_stdout _ _).
  assert (Hinit : Forall (λ x, videos σp !! x.1 = Some V0) transform_sinks).
  { unfold transform_sinks, sink_names. simpl.
    repeat (constructor; [simpl; by through_inserts|]). constructor. }
  assert (Hfd0 : videos σp !! "frame_dropping.mp4" = Some V0).
  { unfold sink_names. simpl. by through_inserts. }
  assert (Hother : ∀ name, name ∉ sink_names → videos σp !! name = videos σ !! name).
  { intros name Hname. unfold sink_names in *. simpl. other_names Hname.
    by through_inserts. }
  eapply mspec_mono.
  { eapply (frame_loop_files lib p _ cap (Some v) (vframes v) fuel 0 true σp);
      [done|done|done|done]. }
  intros _ σ1 ((outs & Houts) & Hvo & Hio & (kept & Hsub & Hfd) & Hso & Hc1). cbv beta.
  mstep. unfold cap_release. mstep. eapply mspec_the_capture; [done|]. mstep.
  mstep. apply for_each_release. unfold print. mstep. simpl.
  split; [|split; [|split; [|split; [|split]]]].
  - exists outs. apply Forall2_same_length_lookup in Houts as [Hlen Hlook].
    apply Forall2_same_length_lookup. split; [done|]. intros i x L Hx HL.
    destruct (Hlook i x L Hx HL) as (HF & Hv1 & Hi1).
    rewrite Forall_lookup in Hinit. rewrite (Hinit i x Hx) in Hv1.
    split; [done|]. split; [exact Hv1|exact Hi1].
  - intros name Hname. rewrite Hvo by done. by apply Hother.
  - intros name Hname. by rewrite Hio.
  - exists kept. split; [done|]. by rewrite Hfd, Hfd0.
  - rewrite Hso. simpl. rewrite loop_lines_closed. by rewrite <- !app_assoc.
  - apply list_lookup_insert_eq. by eapply lookup_lt_Some.
Qed.

(** X20.  Every one of the nine transform sinks ends with exactly one frame
    per frame of the source video, of the shape of that frame, under the
    codec mp4v and with the width, height and frame rate of the source. *)
Theorem add_artifacts_fills_sinks lib fuel path p σ v :
  videos σ !! path = Some v → path ∉ sink_names →
  Forall video_frame (vframes v) → valid_params lib p →
  (length (vframes v) < fuel)%nat →
  ∃ σ',
    add_artifacts lib fuel path p σ = Ok () σ' ∧
    ∀ out img, (out, img) ∈ transform_sinks →
      ∃ s, videos σ' !! out = Some s ∧
           vcodec s = "mp4v" ∧ vwidth s = vwidth v ∧ vheight s = vheight v ∧
           vfps s = vfps v ∧ vcount s = Z.of_nat (length (vframes v)) ∧
           Forall2 same_shape (vframes v) (vframes s).
Proof.
  intros Hv _ Hfr Hp Hfuel.
  destruct (mspec_total_inv _ _ _ (add_artifacts_files lib fuel path p σ v Hv Hfr (λ _, Hp) Hfuel))
    as ([] & σ' & Hrun & (outs & Houts) & _).
  exists σ'. split; [exact Hrun|]. intros out img Hin.
  apply list_elem_of_lookup in Hin as [i Hi].
  destruct (Forall2_lookup_l _ _ _ _ _ Houts Hi) as (L & HL & HF & Hvid & _).
  eexists. split; [exact Hvid|]. simpl. do 4 (split; [done|]).
  split; [|done]. by rewrite (Forall2_length _ _ _ HF).
Qed.

Lemma add_artifacts_fills_sinks_witness :
  ∃ σ',
    add_artifacts sample_library 2 "input_video.mp4" default_params
      (one_frame_world N.of_nat) = Ok () σ' ∧
    ∀ out img, (out, img) ∈ transform_sinks →
      ∃ s, videos σ' !! out = Some s ∧
           vcodec s = "mp4v" ∧ vwidth s = 2 ∧ vheight s = 2 ∧
           vfps s = 30%Q ∧ vcount s = Z.of_nat (length [flat_frame]) ∧
           Forall2 same_shape [flat_frame] (vframes s).
Proof.
  apply (add_artifacts_fills_sinks sample_library 2 "input_video.mp4" default_params
           (one_frame_world N.of_nat) (Video "avc1" 2 2 30 1 [flat_frame])).
  - vm_compute. reflexivity.
  - by_compute.
  - constructor; [by_compute|constructor].
  - unfold valid_params. simpl. split; [lia|]. split; [lia|].
    split; [right; change (256 / 8) with 32; lia|].
    unfold Qle. simpl. lia.
  - simpl. lia.
Defined.

(** X21.  All ten output files, the sink of dropped frames included, are
    created with the codec mp4v and the width, height and frame rate of the
    source; none holds more frames than the source, and the frames of the
    sink of dropped frames are frames of the source, in their order. *)
Theorem add_artifacts_output_headers lib fuel path p σ v :
  videos σ !! path = Some v → path ∉ sink_names →
  Forall video_frame (vframes v) → valid_params lib p →
  (length (vframes v) < fuel)%nat →
  ∃ σ',
    add_artifacts lib fuel path p σ = Ok () σ' ∧
    (∀ name, name ∈ sink_names →
       ∃ s, videos σ' !! name = Some s ∧
            vcodec s = "mp4v" ∧ vwidth s = vwidth v ∧ vheight s = vheight v ∧
            vfps s = vfps v ∧ vcount s = Z.of_nat (length (vframes s)) ∧
            (length (vframes s) ≤ length (vframes v))%nat) ∧
    ∃ s, videos σ' !! "frame_dropping.mp4" = Some s ∧ sublist (vframes s) (vframes v).
Proof.
  intros Hv _ Hfr Hp Hfuel.
  destruct (mspec_total_inv _ _ _ (add_artifacts_files lib fuel path p σ v Hv Hfr (λ _, Hp) Hfuel))
    as ([] & σ' & Hrun & (outs & Houts) & _ & _ & (kept & Hsub & Hfd) & _).
  exists σ'. split; [exact Hrun|]. split; [|eauto].
  assert (Hnine : ∀ x, x ∈ transform_sinks →
            ∃ s, videos σ' !! x.1 = Some s ∧
              vcodec s = "mp4v" ∧ vwidth s = vwidth v ∧ vheight s = vheight v ∧
              vfps s = vfps v ∧ vcount s = Z.of_nat (length (vframes s)) ∧
              (length (vframes s) ≤ length (vframes v))%nat).
  { intros x [i Hi]%list_elem_of_lookup.
    destruct (Forall2_lookup_l _ _ _ _ _ Houts Hi) as (L & HL & HF & Hvid & _).
    eexists. split; [exact Hvid|]. simpl. do 5 (split; [done|]).
    by rewrite (Forall2_length _ _ _ HF). }
  apply Forall_forall in Hnine. unfold transform_sinks in Hnine.
  repeat (apply Forall_cons in Hnine as [? Hnine]). simpl in *.
  intros name Hname. unfold sink_names in Hname.
  repeat (apply elem_of_cons in Hname as [->|Hname]; [done|]).
  apply elem_of_cons in Hname as [->|Hname]; [|by apply elem_of_nil in Hname].
  eexists. split; [exact Hfd|]. simpl. do 5 (split; [done|]).
  by apply sublist_length.
Qed.

Lemma add_artifacts_output_headers_witness :
  ∃ σ',
    add_artifacts sample_library 2 "input_video.mp4" default_params
      (one_frame_world N.of_nat) = Ok () σ' ∧
    (∀ name, name ∈ sink_names →
       ∃ s, videos σ' !! name = Some s ∧
            vcodec s = "mp4v" ∧ vwidth s = 2 ∧ vheight s = 2 ∧
            vfps s = 30%Q ∧ vcount s = Z.of_nat (length (vframes s)) ∧
            (length (vframes s) ≤ length [flat_frame])%nat) ∧
    ∃ s, videos σ' !! "frame_dropping.mp4" = Some s ∧ sublist (vframes s) [flat_frame].
Proof.
  apply (add_artifacts_output_headers sample_library 2 "input_video.mp4" default_params
           (one_frame_world N.of_nat) (Video "avc1" 2 2 30 1 [flat_frame])).
  - vm_compute. reflexivity.
  - by_compute.
  - constructor; [by_compute|constructor].
  - unfold valid_params. simpl. split; [lia|]. split; [lia|].
    split; [right; change (256 / 8) with 32; lia|].
    unfold Qle. simpl. lia.
  - simpl. lia.
Defined.

(** X22.  When the source has at least one frame, each of the nine still
    images is the first frame of the video beside it: the images are written
    for the first frame and not again. No other image file is touched. *)
Theorem add_artifacts_saves_first_frames lib fuel path p σ v :
  videos σ !! path = Some v → path ∉ sink_names → vframes v ≠ [] →
  Forall video_frame (vframes v) → valid_params lib p →
  (length (vframes v) < fuel)%nat →
  ∃ σ',
    add_artifacts lib fuel path p σ = Ok () σ' ∧
    (∀ out img, (out, img) ∈ transform_sinks →
       ∃ s g, videos σ' !! out = Some s ∧ head (vframes s) = Some g ∧
              images σ' !! img = Some g) ∧
    ∀ name, name ∉ transform_sinks.*2 → images σ' !! name = images σ !! name.
Proof.
  intros Hv _ Hne Hfr Hp Hfuel.
  destruct (mspec_total_inv _ _ _ (add_artifacts_files lib fuel path p σ v Hv Hfr (λ _, Hp) Hfuel))
    as ([] & σ' & Hrun & (outs & Houts) & _ & Himg & _).
  exists σ'. split; [exact Hrun|]. split; [|exact Himg].
  intros out img [i Hi]%list_elem_of_lookup.
  destruct (Forall2_lookup_l _ _ _ _ _ Houts Hi) as (L & HL & HF & Hvid & Hi').
  simpl in Hvid, Hi'.
  destruct HF as [|f g frames L' _ _]; [done|].
  exists (Video "mp4v" (vwidth v) (vheight v) (vfps v) (Z.of_nat (length (g :: L'))) (g :: L')), g.
  by repeat split.
Qed.

Lemma add_artifacts_saves_first_frames_witness :
  ∃ σ',
    add_artifacts sample_library 2 "input_video.mp4" default_params
      (one_frame_world N.of_nat) = Ok () σ' ∧
    (∀ out img, (out, img) ∈ transform_sinks →
       ∃ s g, videos σ' !! out = Some s ∧ head (vframes s) = Some g ∧
              images σ' !! img = Some g) ∧
    ∀ name, name ∉ transform_sinks.*2 →
      images σ' !! name = images (one_frame_world N.of_nat) !! name.
Proof.
  apply (add_artifacts_saves_first_frames sample_library 2 "input_video.mp4" default_params
           (one_frame_world N.of_nat) (Video "avc1" 2 2 30 1 [flat_frame])).
  - vm_compute. reflexivity.
  - by_compute.
  - simpl. discriminate.
  - constructor; [by_compute|constructor].
  - unfold valid_params. simpl. split; [lia|]. split; [lia|].
    split; [right; change (256 / 8) with 32; lia|].
    unfold Qle. simpl. lia.
  - simpl. lia.
Defined.

(** X23.  The console of a run: the opening line with the frame count of the
    header, one progress line after every tenth frame read, the closing
    line; nothing else. *)
Theorem add_artifacts_console lib fuel path p σ v :
  videos σ !! path = Some v → path ∉ sink_names →
  Forall video_frame (vframes v) → valid_params lib p →
  (length (vframes v) < fuel)%nat →
  ∃ σ',
    add_artifacts lib fuel path p σ = Ok () σ' ∧
    stdout σ' = stdout σ
      ++ ["Processing " +:+ pretty (vcount v) +:+ " frames to add artifacts..."]
      ++ progress_lines (vcount v) (length (vframes v))
      ++ ["Artifact addition complete"].
Proof.
  intros Hv _ Hfr Hp Hfuel.
  destruct (mspec_total_inv _ _ _ (add_artifacts_files lib fuel path p σ v Hv Hfr (λ _, Hp) Hfuel))
    as ([] & σ' & Hrun & _ & _ & _ & _ & Hout & _).
  eauto.
Qed.

Lemma add_artifacts_console_witness :
  ∃ σ',
    add_artifacts sample_library 2 "input_video.mp4" default_params
      (one_frame_world N.of_nat) = Ok () σ' ∧
    stdout σ' = stdout (one_frame_world N.of_nat)
      ++ ["Processing " +:+ pretty 1 +:+ " frames to add artifacts..."]
      ++ progress_lines 1 (length [flat_frame])
      ++ ["Artifact addition complete"].
Proof.
  apply (add_artifacts_console sample_library 2 "input_video.mp4" default_params
           (one_frame_world N.of_nat) (Video "avc1" 2 2 30 1 [flat_frame])).
  - vm_compute. reflexivity.
  - by_compute.
  - constructor; [by_compute|constructor].
  - unfold valid_params. simpl. split; [lia|]. split; [lia|].
    split; [right; change (256 / 8) with 32; lia|].
    unfold Qle. simpl. lia.
  - simpl. lia.
Defined.

(** X24.  A run touches no video file but its ten outputs, the source video
    least of all, and no image file but its nine stills; at the end the
    capture it opened is released, with every frame read. *)
Theorem add_artifacts_leaves_other_files lib fuel path p σ v :
  videos σ !! path = Some v → path ∉ sink_names →
  Forall video_frame (vframes v) → valid_params lib p →
  (length (vframes v) < fuel)%nat →
  ∃ σ',
    add_artifacts lib fuel path p σ = Ok () σ' ∧
    videos σ' !! path = Some v ∧
    (∀ name, name ∉ sink_names → videos σ' !! name = videos σ !! name) ∧
    (∀ name, name ∉ transform_sinks.*2 → images σ' !! name = images σ !! name) ∧
    captures σ' !! length (captures σ) = Some (Capture false (Some v) []).
Proof.
  intros Hv Hpath Hfr Hp Hfuel.
  destruct (mspec_total_inv _ _ _ (add_artifacts_files lib fuel path p σ v Hv Hfr (λ _, Hp) Hfuel))
    as ([] & σ' & Hrun & _ & Hvid & Himg & _ & _ & Hcap).
  exists σ'. split; [exact Hrun|]. split; [by rewrite Hvid|done].
Qed.

Lemma add_artifacts_leaves_other_files_witness :
  ∃ σ',
    add_artifacts sample_library 2 "input_video.mp4" default_params
      (one_frame_world N.of_nat) = Ok () σ' ∧
    videos σ' !! "input_video.mp4" = Some (Video "avc1" 2 2 30 1 [flat_frame]) ∧
    (∀ name, name ∉ sink_names →
       videos σ' !! name = videos (one_frame_world N.of_nat) !! name) ∧
    (∀ name, name ∉ transform_sinks.*2 →
       images σ' !! name = images (one_frame_world N.of_nat) !! name) ∧
    captures σ' !! length (captures (one_frame_world N.of_nat))
      = Some (Capture false (Some (Video "avc1" 2 2 30 1 [flat_frame])) []).
Proof.
  apply (add_artifacts_leaves_other_files sample_library 2 "input_video.mp4" default_params
           (one_frame_world N.of_nat) (Video "avc1" 2 2 30 1 [flat_frame])).
  - vm_compute. reflexivity.
  - by_compute.
  - constructor; [by_compute|constructor].
  - unfold valid_params. simpl. split; [lia|]. split; [lia|].
    split; [right; change (256 / 8) with 32; lia|].
    unfold Qle. simpl. lia.
  - simpl. lia.
Defined.

(** X25.  A source video without frames: whatever the parameters, the run
    completes, the ten output files are created empty, no still image is
    written and the console shows the opening and the closing line. *)
Theorem add_artifacts_empty_video lib fuel path p σ v :
  videos σ !! path = Some v → path ∉ sink_names → vframes v = [] → (0 < fuel)%nat →
  ∃ σ',
    add_artifacts lib fuel path p σ = Ok () σ' ∧
    (∀ name, name ∈ sink_names →
       videos σ' !! name = Some (Video "mp4v" (vwidth v) (vheight v) (vfps v) 0 [])) ∧
    images σ' = images σ ∧
    stdout σ' = stdout σ
      ++ ["Processing " +:+ pretty (vcount v) +:+ " frames to add artifacts...";
          "Artifact addition complete"].
Proof.
  intros Hv _ Hnil Hfuel.
  destruct (mspec_total_inv _ _ _
              (add_artifacts_files lib fuel path p σ v Hv
                 ltac:(rewrite Hnil; constructor) ltac:(done)
                 ltac:(rewrite Hnil; simpl; lia)))
    as ([] & σ' & Hrun & (outs & Houts) & _ & Himg & (kept & Hsub & Hfd) & Hout & _).
  rewrite Hnil in *. apply sublist_nil_r in Hsub as ->.
  assert (Hnine : Forall (λ x,
            videos σ' !! x.1 = Some (Video "mp4v" (vwidth v) (vheight v) (vfps v) 0 []) ∧
            images σ' !! x.2 = images σ !! x.2) transform_sinks).
  { apply Forall_lookup. intros i x Hi.
    destruct (Forall2_lookup_l _ _ _ _ _ Houts Hi) as (L & HL & HF & Hvid & Hi').
    by inversion HF; subst. }
  exists σ'. split; [exact Hrun|]. split; [|split; [|exact Hout]].
  - unfold transform_sinks in Hnine.
    repeat (apply Forall_cons in Hnine as [[? _] Hnine]). simpl in *.
    intros name Hname. unfold sink_names in Hname.
    repeat (apply elem_of_cons in Hname as [->|Hname]; [done|]).
    by apply elem_of_nil in Hname.
  - apply map_eq. intros name.
    destruct (decide (name ∈ transform_sinks.*2)) as [Hin|Hin]; [|by apply Himg].
    apply list_elem_of_fmap in Hin as (x & -> & Hx).
    rewrite Forall_forall in Hnine. by destruct (Hnine x Hx).
Qed.

Lemma add_artifacts_empty_video_witness :
  ∃ σ',
    add_artifacts sample_library 1 "input_video.mp4" (Params 0 0 0 0 0 0 0 0 0 0)
      (World [] (Rng N.of_nat 0) (Rng N.of_nat 0) []
             {["input_video.mp4" := Video "avc1" 4 2 25 0 []]} ∅ []) = Ok () σ' ∧
    (∀ name, name ∈ sink_names →
       videos σ' !! name = Some (Video "mp4v" 4 2 25 0 [])) ∧
    images σ' = ∅ ∧
    stdout σ' = []
      ++ ["Processing " +:+ pretty 0 +:+ " frames to add artifacts...";
          "Artifact addition complete"].
Proof.
  apply (add_artifacts_empty_video sample_library 1 "input_video.mp4"
           (Params 0 0 0 0 0 0 0 0 0 0)
           (World [] (Rng N.of_nat 0) (Rng N.of_nat 0) []
                  {["input_video.mp4" := Video "avc1" 4 2 25 0 []]} ∅ [])
           (Video "avc1" 4 2 25 0 [])).
  - vm_compute. reflexivity.
  - by_compute.
  - reflexivity.
  - lia.
Defined.

Lemma kept_frames_negative rate frames draws :
  length draws = length frames → Forall (λ u, (0 <= u)%Q) draws → (rate < 0)%Q →
  kept_frames rate frames draws = frames.
Proof.
  intros Hl Hd Hrate. revert frames Hl.
  induction Hd as [|u draws Hu _ IH]; intros [|f frames] Hl; simplify_eq/=; [done|].
  unfold kept_frames in *. simpl. rewrite IH by done. unfold forwarded.
  destruct (Qlt_le_dec rate u) as [|Hle]; [done|].
  exfalso. eapply Qlt_irrefl, Qle_lt_trans; [|exact Hrate]. by eapply Qle_trans.
Qed.

Lemma kept_frames_one_or_more rate frames draws :
  Forall (λ u, (u < 1)%Q) draws → (1 <= rate)%Q → kept_frames rate frames draws = [].
Proof.
  intros Hd Hrate. revert frames.
  induction Hd as [|u draws Hu _ IH]; intros [|f frames]; try done.
  unfold kept_frames in *. simpl. rewrite IH. unfold forwarded.
  destruct (Qlt_le_dec rate u) as [Hlt|]; [|done].
  exfalso. eapply Qlt_irrefl, Qlt_trans; [exact Hu|]. by eapply Qle_lt_trans.
Qed.

(** X26.  A negative drop rate drops nothing: every draw is at least 0, so
    the sink of dropped frames ends with all frames of the source, in order. *)
Theorem frame_dropping_negative_rate lib fuel path p σ v :
  videos σ !! path = Some v → path ∉ sink_names →
  Forall video_frame (vframes v) → valid_params lib p →
  (length (vframes v) < fuel)%nat → (drop_rate p < 0)%Q →
  ∃ σ' sink,
    add_artifacts lib fuel path p σ = Ok () σ' ∧
    videos σ' !! "frame_dropping.mp4" = Some sink ∧ vframes sink = vframes v.
Proof.
  intros Hv _ Hfr Hp Hfuel Hrate.
  destruct (mspec_total_inv _ _ _ (add_artifacts_spec lib fuel path p σ v Hv Hfr Hp Hfuel))
    as ([] & σ' & Hrun & draws & sink & Hl & Hd & Hs & Hk).
  exists σ', sink. split; [exact Hrun|]. split; [exact Hs|].
  rewrite Hk. apply kept_frames_negative; [done| |done].
  eapply Forall_impl; [exact Hd|]. intros u [n ->]. apply rand_value_range.
Qed.

Lemma frame_dropping_negative_rate_witness :
  ∃ σ' sink,
    add_artifacts sample_library 2 "input_video.mp4"
      (with_drop_rate (- (1 # 10)) default_params) (one_frame_world (λ _, 0%N)) = Ok () σ' ∧
    videos σ' !! "frame_dropping.mp4" = Some sink ∧ vframes sink = [flat_frame].
Proof.
  apply (frame_dropping_negative_rate sample_library 2 "input_video.mp4"
           (with_drop_rate (- (1 # 10)) default_params) (one_frame_world (λ _, 0%N))
           (Video "avc1" 2 2 30 1 [flat_frame])).
  - vm_compute. reflexivity.
  - by_compute.
  - constructor; [by_compute|constructor].
  - unfold valid_params. simpl. split; [lia|]. split; [lia|].
    split; [right; change (256 / 8) with 32; lia|].
    unfold Qle. simpl. lia.
  - simpl. lia.
  - reflexivity.
Defined.

(** X27.  A drop rate of 1 or more drops everything: every draw is below 1,
    so the sink of dropped frames ends without a frame. *)
Theorem frame_dropping_rate_one_or_more lib fuel path p σ v :
  videos σ !! path = Some v → path ∉ sink_names →
  Forall video_frame (vframes v) → valid_params lib p →
  (length (vframes v) < fuel)%nat → (1 <= drop_rate p)%Q →
  ∃ σ' sink,
    add_artifacts lib fuel path p σ = Ok () σ' ∧
    videos σ' !! "frame_dropping.mp4" = Some sink ∧ vframes sink = [].
Proof.
  intros Hv _ Hfr Hp Hfuel Hrate.
  destruct (mspec_total_inv _ _ _ (add_artifacts_spec lib fuel path p σ v Hv Hfr Hp Hfuel))
    as ([] & σ' & Hrun & draws & sink & Hl & Hd & Hs & Hk).
  exists σ', sink. split; [exact Hrun|]. split; [exact Hs|].
  rewrite Hk. apply kept_frames_one_or_more; [|done].
  eapply Forall_impl; [exact Hd|]. intros u [n ->]. apply rand_value_range.
Qed.

Lemma frame_dropping_rate_one_or_more_witness :
  ∃ σ' sink,
    add_artifacts sample_library 2 "input_video.mp4"
      (with_drop_rate 2 default_params) (one_frame_world N.of_nat) = Ok () σ' ∧
    videos σ' !! "frame_dropping.mp4" = Some sink ∧ vframes sink = [].
Proof.
  apply (frame_dropping_rate_one_or_more sample_library 2 "input_video.mp4"
           (with_drop_rate 2 default_params) (one_frame_world N.of_nat)
           (Video "avc1" 2 2 30 1 [flat_frame])).
  - vm_compute. reflexivity.
  - by_compute.
  - constructor; [by_compute|constructor].
  - unfold valid_params. simpl. split; [lia|]. split; [lia|].
    split; [right; change (256 / 8) with 32; lia|].
    unfold Qle. simpl. lia.
  - simpl. lia.
  - unfold Qle. simpl. lia.
Defined.

(** ** Runs that end in an exception *)

Lemma raises_bind_spec {A B} (m : M A) (k : A → M B) σ e :
  mspec false m σ (λ a σ', raises (k a) σ' e) → raises (m ≫= k) σ e.
Proof. unfold mspec, raises, mbind, M_bind. by destruct (m σ). Qed.

Lemma heap_emitted out img first g σ : heap (emitted out img first g σ) = heap σ.
Proof. unfold emitted. by destruct first. Qed.

(** X28.  The script has no error handling: with a kernel size below one, a
    run on a video that has a frame stops with the exception of
    [motion_blur] while it works on the first frame. *)
Theorem add_artifacts_bad_kernel_size lib fuel path p σ v f rest :
  videos σ !! path = Some v → path ∉ sink_names →
  vframes v = f :: rest → video_frame f → kernel_size p ≤ 0 → (0 < fuel)%nat →
  raises (add_artifacts lib fuel path p) σ
         (if kernel_size p <? 0 then ValueError else IndexError).
Proof.
  intros Hv _ Hframes (Hwf & Hu & Hc & Hh & Hw) Hk Hfuel. unfold add_artifacts.
  apply raises_bind_spec. unfold mspec at 1, cv_VideoCapture. rewrite Hv. cbv beta zeta.
  set (cap := length (captures σ)).
  set (c := Capture true (Some v) (vframes v)).
  set (σ0 := set_captures (captures σ ++ [c]) σ).
  assert (Hc0 : captures σ0 !! cap = Some c) by apply lookup_app_length.
  assert (Hcap : ∀ {A} (prop : video → A) zero σ1 (Q : A → world → Prop),
            captures σ1 !! cap = Some c → Q (prop v) σ1 →
            mspec false (cap_get cap prop zero) σ1 Q).
  { intros A prop zero σ1 Q Hc1 HQ. unfold cap_get.
    mstep. eapply mspec_the_capture; [done|]. by mstep. }
  apply raises_bind_spec. unfold cap_isOpened.
  mstep. eapply mspec_the_capture; [done|]. mstep. simpl negb. cbv iota.
  apply raises_bind_spec. apply Hcap; [done|].
  apply raises_bind_spec. apply Hcap; [done|].
  apply raises_bind_spec. apply Hcap; [done|]. cbv zeta.
  apply raises_bind_spec. apply open_writers_spec.
  apply raises_bind_spec. apply Hcap; [done|]. cbv beta.
  apply raises_bind_spec. unfold print at 1. mstep. cbv beta.
  apply raises_bind.
  destruct fuel as [|fuel]; [lia|]. simpl frame_loop.
  apply raises_bind_spec. unfold cap_read.
  mstep. eapply mspec_the_capture; [done|]. simpl pending. rewrite Hframes.
  simpl opened. cbv iota. mstep. mstep. mstep. mstep. cbv beta.
  set (σr := set_heap _ _).
  set (a := length (heap _)).
  assert (Ha : heap σr !! a = Some f) by (simpl; apply lookup_app_length).
  clearbody σr a.
  apply raises_bind. unfold process_frame.
  apply raises_bind_spec. eapply mspec_mono.
  { apply (apply_transform_fresh false lib (GaussianNoise (noise_level p)) σr a f);
      [done|done|done|done|lia|lia|done]. }
  intros r1 σ1 (news1 & g1 & [Hheap1 _] & _ & Hr1 & _). cbv beta.
  apply raises_bind_spec. eapply mspec_emit; [exact Hr1|].
  set (σ2 := emitted _ _ _ _ σ1).
  assert (Ha2 : heap σ2 !! a = Some f).
  { unfold σ2. rewrite heap_emitted, Hheap1. by apply lookup_app_l_Some. }
  clearbody σ2.
  apply raises_bind_spec. eapply mspec_mono.
  { apply (apply_transform_fresh false lib (CompressionArtifacts (compression_quality p))
             σ2 a f); [done|done|done|done|lia|lia|done]. }
  intros r2 σ3 (news2 & g2 & [Hheap3 _] & _ & Hr2 & _). cbv beta.
  apply raises_bind_spec. eapply mspec_emit; [exact Hr2|].
  apply raises_bind. by apply motion_blur_raises.
Qed.

Lemma add_artifacts_bad_kernel_size_witness :
  raises (add_artifacts sample_library 2 "input_video.mp4"
            (Params 80 1 0 8 (1 # 100) (- (1 # 2)) 0 2 10 (1 # 10)))
         (one_frame_world N.of_nat) IndexError.
Proof.
  apply (add_artifacts_bad_kernel_size sample_library 2 "input_video.mp4"
           (Params 80 1 0 8 (1 # 100) (- (1 # 2)) 0 2 10 (1 # 10))
           (one_frame_world N.of_nat) (Video "avc1" 2 2 30 1 [flat_frame]) flat_frame []).
  - vm_compute. reflexivity.
  - by_compute.
  - reflexivity.
  - by_compute.
  - simpl. lia.
  - lia.
Defined.

(** ** The script with its defaults *)

Lemma valid_default_params lib : valid_params lib default_params.
Proof.
  unfold valid_params. simpl. split; [lia|]. split; [lia|].
  split; [right; change (256 / 8) with 32; lia|]. unfold Qle. simpl. lia.
Qed.

(** X29.  The defaults of the script are accepted by every transform, under
    either typing rule of NumPy: run as a program on a file
    [input_video.mp4] of ordinary frames, the script completes, fills each
    of the nine transform sinks with as many frames as the source has, and
    ends the console with the closing line. *)
Theorem main_completes lib fuel σ v :
  videos σ !! "input_video.mp4" = Some v →
  Forall video_frame (vframes v) → (length (vframes v) < fuel)%nat →
  ∃ σ',
    main lib fuel σ = Ok () σ' ∧
    last (stdout σ') = Some "Artifact addition complete" ∧
    ∀ out img, (out, img) ∈ transform_sinks →
      ∃ s, videos σ' !! out = Some s ∧ length (vframes s) = length (vframes v).
Proof.
  intros Hv Hfr Hfuel. unfold main.
  destruct (mspec_total_inv _ _ _
              (add_artifacts_files lib fuel "input_video.mp4" default_params σ v Hv Hfr
                 (λ _, valid_default_params lib) Hfuel))
    as ([] & σ' & Hrun & (outs & Houts) & _ & _ & _ & Hout & _).
  exists σ'. split; [exact Hrun|]. split.
  - rewrite Hout, !app_assoc. apply last_snoc.
  - intros out img [i Hi]%list_elem_of_lookup.
    destruct (Forall2_lookup_l _ _ _ _ _ Houts Hi) as (L & HL & HF & Hvid & _).
    eexists. split; [exact Hvid|]. simpl. symmetry. by eapply Forall2_length.
Qed.

Lemma main_completes_witness :
  ∃ σ',
    main sample_library 2 (one_frame_world N.of_nat) = Ok () σ' ∧
    last (stdout σ') = Some "Artifact addition complete" ∧
    ∀ out img, (out, img) ∈ transform_sinks →
      ∃ s, videos σ' !! out = Some s ∧ length (vframes s) = length [flat_frame].
Proof.
  apply (main_completes sample_library 2 (one_frame_world N.of_nat)
           (Video "avc1" 2 2 30 1 [flat_frame])).
  - vm_compute. reflexivity.
  - constructor; [by_compute|constructor].
  - simpl. lia.
Defined.
